(** * build_knowledge_base.py: chunking, embedding retries, wave scheduling

    A shallow embedding of [src/build_knowledge_base.py].  Python [str]
    values are sequences of Unicode code points, integers are unbounded,
    dictionaries loaded from JSON are finite maps with string keys.
    Loops that Python runs until a condition holds are driven by fuel;
    every statement that a call returns is proved with an explicit fuel. *)

From Stdlib Require Import ZArith Lia.
From stdpp Require Import base option list strings gmap.

(** ** Python values and outcomes *)

(** A Python [str] is a sequence of code points. *)
Definition str := list N.

(** The exceptions that the script can raise. *)
Inductive exn :=
  | RuntimeError (msg : string)
  | KeyError (key : string)
  | AttributeError
  | TypeError
  | ValueError
  | OverflowError
  | UnicodeEncodeError
  | OSError (msg : string)
  | JSONDecodeError.

(** Outcome of running a piece of the script: a value, a raised
    exception, or no answer within the given number of loop iterations. *)
Inductive result (A : Type) :=
  | Ok (a : A)
  | Raise (e : exn)
  | NoFuel.
Arguments Ok {A} a.
Arguments Raise {A} e.
Arguments NoFuel {A}.

(** ** Configuration constants (lines 13-22) *)

Definition CHUNK_SIZE : Z := 500.
Definition CHUNK_OVERLAP : Z := 100.
Definition MAX_RETRIES : nat := 3.
Definition CONCURRENT_REQUESTS : nat := 4.

(** ** [str.strip] and slicing *)

(** [Py_UNICODE_ISSPACE]: the code points removed by [str.strip()] and
    matched by [\s] in a [str] pattern. *)
Definition isspace (c : N) : bool :=
  (((9 <=? c) && (c <=? 13)) || ((28 <=? c) && (c <=? 32))
   || (c =? 133) || (c =? 160) || (c =? 5760)
   || ((8192 <=? c) && (c <=? 8202))
   || (c =? 8232) || (c =? 8233) || (c =? 8239) || (c =? 8287)
   || (c =? 12288))%N.

Fixpoint lstrip (s : str) : str :=
  match s with
  | [] => []
  | c :: s' => if isspace c then lstrip s' else s
  end.

Definition rstrip (s : str) : str := rev (lstrip (rev s)).

Definition strip (s : str) : str := rstrip (lstrip s).

(** Python's normalisation of one slice bound against a length. *)
Definition slice_index (n i : Z) : Z :=
  if (i <? 0)%Z then Z.max (i + n) 0 else Z.min i n.

(** [s[start:stop]] for integer bounds of either sign, on a [str] or a list. *)
Definition py_slice {A} (s : list A) (start stop : Z) : list A :=
  let n := Z.of_nat (length s) in
  let a := slice_index n start in
  let b := slice_index n stop in
  take (Z.to_nat (b - a)) (drop (Z.to_nat a) s).

(** ** [chunk_text] (lines 62-75) *)

Record chunk_state := { cs_start : Z; cs_chunks : list str }.

Inductive loop_step :=
  | Continue (st : chunk_state)
  | Break (chunks : list str).

(** One evaluation of the [while] condition followed by the loop body. *)
Definition chunk_iter (text : str) (chunk_size overlap : Z)
    (st : chunk_state) : loop_step :=
  let len := Z.of_nat (length text) in
  let start := cs_start st in
  if (start <? len)%Z then
    let end_ := Z.min (start + chunk_size) len in
    let chunk := py_slice text start end_ in
    let chunks := cs_chunks st ++ [chunk] in
    if (end_ =? len)%Z then Break chunks
    else Continue {| cs_start := start + (chunk_size - overlap);
                     cs_chunks := chunks |}
  else Break (cs_chunks st).

Fixpoint chunk_loop (fuel : nat) (text : str) (chunk_size overlap : Z)
    (st : chunk_state) : result (list str) :=
  match fuel with
  | O => NoFuel
  | S fuel' =>
      match chunk_iter text chunk_size overlap st with
      | Break chunks => Ok chunks
      | Continue st' => chunk_loop fuel' text chunk_size overlap st'
      end
  end.

Definition chunk_text (fuel : nat) (text : str) (chunk_size overlap : Z)
    : result (list str) :=
  let text := strip text in
  match text with
  | [] => Ok []
  | _ => chunk_loop fuel text chunk_size overlap
           {| cs_start := 0; cs_chunks := [] |}
  end.

(** Chunks put back together: the first chunk whole, every later chunk
    without its first [overlap] characters. *)
Definition reassemble (overlap : Z) (chunks : list str) : str :=
  match chunks with
  | [] => []
  | c :: cs => c ++ concat (map (drop (Z.to_nat overlap)) cs)
  end.

(** Least integer [q] with [a <= q * b], for [b > 0]. *)
Definition ceil_div (a b : Z) : Z := ((a + b - 1) / b)%Z.

(** Enough iterations to reach the end of [text] from [start] when the
    start offset advances by [chunk_size - overlap]. *)
Definition enough_fuel (text : str) (chunk_size overlap : Z)
    (fuel : nat) (start : Z) : Prop :=
  1 ≤ fuel ∧
  (Z.of_nat (length text) - start - chunk_size
   ≤ (Z.of_nat fuel - 1) * (chunk_size - overlap))%Z.

(** ** [get_embedding] (lines 77-101) *)

(** What one [session.post] yields: a status with, for a 200, the
    serialised [data["data"][0]["embedding"]] when the body parses and has
    that shape; or an exception raised by the request. *)
Inductive response :=
  | Http (status : Z) (embedding : option str)
  | NetworkError.

(** The replies of the remote service to one call: indexed by the text
    sent and by the attempt number. *)
Definition endpoint := str → nat → response.

Inductive client_event :=
  | Post (text : str) (attempt : nat)
  | Sleep (seconds : Z).

Definition RETRIES_EXHAUSTED : exn :=
  RuntimeError "Failed to get embedding after retries.".

(** The [for attempt in range(retries)] loop from [attempt] on, with
    [remaining] attempts left; the second component logs the requests sent
    and the [asyncio.sleep] calls. *)
Fixpoint attempt_loop (server : endpoint) (text : str)
    (attempt remaining : nat) : result str * list client_event :=
  match remaining with
  | O => (Raise RETRIES_EXHAUSTED, [])
  | S remaining' =>
      let retry_after (seconds : Z) :=
        let '(r, log) := attempt_loop server text (S attempt) remaining' in
        (r, Post text attempt :: Sleep seconds :: log) in
      match server text attempt with
      | Http status body =>
          if (status =? 200)%Z then
            match body with
            | Some emb => (Ok emb, [Post text attempt])
            | None => retry_after 2%Z          (* [except Exception] *)
            end
          else if (status =? 429)%Z then retry_after (2 ^ Z.of_nat attempt)%Z
          else retry_after 2%Z
      | NetworkError => retry_after 2%Z          (* [except Exception] *)
      end
  end.

(** A count of zero (or, in Python, a negative one) gives an empty range. *)
Definition get_embedding (server : endpoint) (text : str) (retries : nat)
    : result str * list client_event :=
  attempt_loop server text 0 retries.

Definition sleeps (log : list client_event) : list Z :=
  omap (λ ev, match ev with Sleep z => Some z | Post _ _ => None end) log.

Definition posts_sent (log : list client_event) : list nat :=
  omap (λ ev, match ev with Post _ k => Some k | Sleep _ => None end) log.

(** ** JSON records, store rows, run state *)

Global Instance result_ret : MRet result := λ A a, Ok a.
Global Instance result_bind : MBind result := λ A B f r,
  match r with
  | Ok a => f a
  | Raise e => Raise e
  | NoFuel => NoFuel
  end.

Global Instance result_fmap : FMap result := λ A B f r,
  match r with
  | Ok a => Ok (f a)
  | Raise e => Raise e
  | NoFuel => NoFuel
  end.

(** The scalar JSON values that occur in the two input files. *)
Inductive value :=
  | VNone
  | VInt (z : Z)
  | VStr (s : str).

Abbreviation dict := (gmap string value).

(** [d[key]] *)
Definition getitem (d : dict) (key : string) : result value :=
  match d !! key with
  | Some v => Ok v
  | None => Raise (KeyError key)
  end.

(** [d.get(key, dflt)] *)
Definition get (d : dict) (key : string) (dflt : value) : value :=
  match d !! key with
  | Some v => v
  | None => dflt
  end.

Record discourse_row := {
  d_post_id : value;
  d_topic_id : value;
  d_topic_title : value;
  d_post_number : value;
  d_author : value;
  d_created_at : value;
  d_likes : value;
  d_chunk_index : nat;
  d_content : str;
  d_url : value;
  d_embedding : str
}.

Record markdown_row := {
  m_doc_title : value;
  m_original_url : value;
  m_downloaded_at : value;
  m_chunk_index : nat;
  m_content : str;
  m_embedding : str
}.

Inductive row :=
  | DiscourseRow (r : discourse_row)
  | MarkdownRow (r : markdown_row).

(** The two tables of [knowledge_base.db], rows in insertion order. *)
Record database := {
  discourse_chunks : list discourse_row;
  markdown_chunks : list markdown_row
}.

Definition empty_database : database :=
  {| discourse_chunks := []; markdown_chunks := [] |}.

Definition add_rows (rows : list row) (db : database) : database :=
  {| discourse_chunks := discourse_chunks db ++
       omap (λ r, match r with DiscourseRow d => Some d | _ => None end) rows;
     markdown_chunks := markdown_chunks db ++
       omap (λ r, match r with MarkdownRow m => Some m | _ => None end) rows |}.

Inductive corpus := Forum | Pages.

Inductive source :=
  | DiscourseJson
  | MetadataJson
  | MarkdownFile (name : str).

(** What the run does to the outside, in program order. [EvRead f]: the
    file [f] has been opened and read to its end. [EvStart c p] and
    [EvDone c p] are the beginning and the completion of the embedding
    call for position [p] of the pending list of corpus [c];
    [EvInsert c p] is the [INSERT] for that position. *)
Inductive event :=
  | EvRead (f : source)
  | EvRemoveDb
  | EvConnect
  | EvStart (c : corpus) (p : nat)
  | EvDone (c : corpus) (p : nat)
  | EvInsert (c : corpus) (p : nat)
  | EvCommit (c : corpus).

(** [db_file] is the store file as it is on disk ([None]: no file),
    [pending] the rows of the open transaction. *)
Record run_state := {
  db_file : option database;
  pending : list row;
  trace : list event
}.

(** A path that [os.path.exists] finds: a file whose content decodes as
    UTF-8 text, or something that [open] or [read] fails on with [e] (a
    directory, a file without read permission, bytes that are not
    UTF-8). *)
Inductive disk_file :=
  | TextFile (content : str)
  | Unreadable (e : exn).

(** A JSON input file that exists: one that [json.load] turns into a list
    of objects, or one on which [open] or [json.load] raises [e]. *)
Inductive json_file :=
  | Parsed (docs : list dict)
  | Unparsable (e : exn).

(** Everything the run reads: the environment variable, the input files
    ([None]: no such path), the files of the page directory by the name
    listed in the metadata, the replies of the service to the call made
    for each position, and the order in which the calls of the wave
    starting at an offset complete (as indices into that wave). *)
Record environment := {
  api_key : option str;
  discourse_json : option json_file;
  metadata_json : option json_file;
  markdown_files : gmap str disk_file;
  server : corpus → nat → endpoint;
  completion : corpus → nat → list nat
}.

(** State and exceptions: a raised exception keeps the state reached. *)
Definition M (A : Type) : Type := run_state → result A * run_state.

Definition ret {A} (a : A) : M A := λ s, (Ok a, s).

Definition bind {A B} (m : M A) (f : A → M B) : M B := λ s,
  match m s with
  | (Ok a, s') => f a s'
  | (Raise e, s') => (Raise e, s')
  | (NoFuel, s') => (NoFuel, s')
  end.

Notation "'let*' x ':=' m 'in' k" := (bind m (λ x, k))
  (at level 10, x binder, m at level 100, k at level 200).

Definition lift {A} (r : result A) : M A := λ s, (r, s).

Definition add_trace (s : run_state) (evs : list event) : run_state :=
  {| db_file := db_file s; pending := pending s; trace := trace s ++ evs |}.

Definition emit (evs : list event) : M unit := λ s, (Ok tt, add_trace s evs).

Fixpoint for_each {A} (l : list A) (body : A → M unit) : M unit :=
  match l with
  | [] => ret tt
  | x :: l' => let* _ := body x in for_each l' body
  end.

(** Binding the parameters of a statement: [sqlite3] takes an [int] that
    fits in 64 signed bits and a [str] that encodes as UTF-8, that is,
    without a surrogate code point. *)
Definition bind_int (z : Z) : result unit :=
  if ((- 2 ^ 63 <=? z) && (z <? 2 ^ 63))%Z then Ok tt else Raise OverflowError.

Definition is_surrogate (c : N) : bool := ((55296 <=? c) && (c <=? 57343))%N.

Definition bind_str (s : str) : result unit :=
  if existsb is_surrogate s then Raise UnicodeEncodeError else Ok tt.

Definition bind_value (v : value) : result unit :=
  match v with
  | VNone => Ok tt
  | VInt z => bind_int z
  | VStr s => bind_str s
  end.

(** The parameters of a row, bound in the order of the statement; the
    first one that cannot be bound raises. *)
Definition bind_row (r : row) : result unit :=
  match r with
  | DiscourseRow d =>
      bind_value (d_post_id d);; bind_value (d_topic_id d);;
      bind_value (d_topic_title d);; bind_value (d_post_number d);;
      bind_value (d_author d);; bind_value (d_created_at d);;
      bind_value (d_likes d);; bind_int (Z.of_nat (d_chunk_index d));;
      bind_str (d_content d);; bind_value (d_url d);;
      bind_str (d_embedding d)
  | MarkdownRow m =>
      bind_value (m_doc_title m);; bind_value (m_original_url m);;
      bind_value (m_downloaded_at m);; bind_int (Z.of_nat (m_chunk_index m));;
      bind_str (m_content m);; bind_str (m_embedding m)
  end.

(** [conn.execute("INSERT ...", row)]: raises, inserting nothing, when a
    parameter cannot be bound. *)
Definition execute_insert (c : corpus) (p : nat) (r : row) : M unit :=
  let* _ := lift (bind_row r) in
  λ s, (Ok tt, {| db_file := db_file s; pending := pending s ++ [r];
                  trace := trace s ++ [EvInsert c p] |}).

(** [conn.commit()] *)
Definition commit (c : corpus) : M unit := λ s,
  (Ok tt, {| db_file := add_rows (pending s) <$> db_file s; pending := [];
             trace := trace s ++ [EvCommit c] |}).

(** ** The wave loop (lines 116-129 and 151-163) *)

(** An entry of [to_insert]: [(doc, idx, chunk)]. *)
Abbreviation segment := (dict * nat * str)%type.

(** [range(start, stop, step)] for a non-negative step, enumerated. *)
Fixpoint range_from (fuel i stop step : nat) : list nat :=
  match fuel with
  | O => []
  | S fuel' =>
      if i <? stop then i :: range_from fuel' (i + step) stop step else []
  end.

Definition py_range (start stop step : nat) : result (list nat) :=
  if step =? 0 then Raise ValueError
  else Ok (range_from stop start stop step).

(** The value each [get_embedding(session, chunk)] of a wave ends with. *)
Definition task_outcomes (env : environment) (c : corpus) (i : nat)
    (batch : list segment) : list (result str) :=
  imap (λ j seg, (get_embedding (server env c (i + j)) seg.2 MAX_RETRIES).1) batch.

(** Every call of a wave of [n] calls completes. *)
Definition completes (order : list nat) (n : nat) : Prop :=
  ∀ j, j < n → j ∈ order.

(** Every call of every wave completes, for [total] pending segments
    processed [limit] at a time. *)
Definition every_call_completes (env : environment) (c : corpus)
    (limit total : nat) : Prop :=
  ∀ i, completes (completion env c i) (Nat.min limit (total - i)).

(** [asyncio.gather]: the calls complete in the order [order]; a value is
    stored in the slot of its call, the first exception is raised to the
    awaiting caller. *)
Fixpoint gather_loop (c : corpus) (i : nat) (outcomes : list (result str))
    (order : list nat) (slots : list (option str)) : M (list (option str)) :=
  match order with
  | [] => ret slots
  | j :: order' =>
      match outcomes !! j with
      | None => gather_loop c i outcomes order' slots
      | Some r =>
          let* _ := emit [EvDone c (i + j)] in
          let* emb := lift r in
          gather_loop c i outcomes order' (<[j := Some emb]> slots)
      end
  end.

(** Events of the wave at offset [i] with [n] calls that belong to the
    concurrent phase. *)
Definition call_event (c : corpus) (i n : nat) (e : event) : Prop :=
  ∃ j, j < n ∧ (e = EvStart c (i + j) ∨ e = EvDone c (i + j)).

(** The await returns once every slot is filled; it never returns when a
    call never completes. *)
Definition gather (c : corpus) (i : nat) (outcomes : list (result str))
    (order : list nat) : M (list str) :=
  let* _ := emit (imap (λ j _, EvStart c (i + j)) outcomes) in
  let* slots := gather_loop c i outcomes order
                  (replicate (length outcomes) None) in
  match mapM id slots with
  | Some embeddings => ret embeddings
  | None => lift NoFuel
  end.

(** [for (doc, idx, chunk), emb in zip(batch, embeddings): conn.execute(...)] *)
Fixpoint insert_rows (c : corpus) (make_row : segment → str → result row)
    (p : nat) (pairs : list (segment * str)) : M unit :=
  match pairs with
  | [] => ret tt
  | (seg, emb) :: pairs' =>
      let* r := lift (make_row seg emb) in
      let* _ := execute_insert c p r in
      insert_rows c make_row (S p) pairs'
  end.

(** One iteration of [for i in range(0, len(to_insert), CONCURRENT_REQUESTS)]. *)
Definition wave (env : environment) (c : corpus)
    (make_row : segment → str → result row) (limit : nat)
    (to_insert : list segment) (i : nat) : M unit :=
  let batch := py_slice to_insert (Z.of_nat i) (Z.of_nat (i + limit)) in
  let* embeddings :=
    gather c i (task_outcomes env c i batch) (completion env c i) in
  let* _ := insert_rows c make_row i (zip batch embeddings) in
  commit c.

(** The call for position [p] returns [emb p], the row built from it is
    [rowf p], and the parameters of that row can be bound. *)
Definition call_succeeds (env : environment) (c : corpus)
    (make_row : segment → str → result row) (to_insert : list segment)
    (emb : nat → str) (rowf : nat → row) (p : nat) : Prop :=
  ∀ seg, to_insert !! p = Some seg →
    (get_embedding (server env c p) seg.2 MAX_RETRIES).1 = Ok (emb p)
    ∧ make_row seg (emb p) = Ok (rowf p)
    ∧ bind_row (rowf p) = Ok tt.

(** The call for position [p] uses up its attempts. *)
Definition call_fails (env : environment) (c : corpus)
    (to_insert : list segment) (p : nat) : Prop :=
  ∃ seg, to_insert !! p = Some seg
    ∧ (get_embedding (server env c p) seg.2 MAX_RETRIES).1
      = Raise RETRIES_EXHAUSTED.

(** The events of a completed wave of [n] calls at offset [i]: the
    concurrent phase, then the inserts in order, then the commit. *)
Definition wave_trace (c : corpus) (i n : nat) (tw : list event) : Prop :=
  ∃ calls, tw = calls ++ (EvInsert c <$> seq i n) ++ [EvCommit c]
           ∧ Forall (call_event c i n) calls.

(** The events that the wave loop of corpus [c] produces. *)
Definition wave_event (c : corpus) (e : event) : Prop :=
  match e with
  | EvStart c' _ | EvDone c' _ | EvInsert c' _ | EvCommit c' => c' = c
  | _ => False
  end.

(** In the events [t] of a loop that starts at offset [i0] over [total]
    pending segments, whenever the call for a position [p] starts, every
    position [q] of an earlier wave has been inserted and a commit has
    followed that insert. *)
Definition persisted_before_start (c : corpus) (limit total i0 : nat)
    (t : list event) : Prop :=
  ∀ a p, t !! a = Some (EvStart c p) →
    i0 ≤ p ∧
    ∀ q, i0 ≤ q → q < total → (q - i0) / limit < (p - i0) / limit →
      ∃ b d, b < d < a
             ∧ t !! b = Some (EvInsert c q) ∧ t !! d = Some (EvCommit c).

(** The loop shared by [process_discourse] and [process_markdown]; the
    two differ in the [INSERT] they execute. *)
Definition embed_and_store (env : environment) (c : corpus)
    (make_row : segment → str → result row) (limit : nat)
    (to_insert : list segment) : M unit :=
  let* offsets := lift (py_range 0 (length to_insert) limit) in
  for_each offsets (wave env c make_row limit to_insert).

(** ** [process_discourse] (lines 103-129) *)

(** [chunk_text(v)] with the default size and overlap; [v.strip()] fails
    on a value that is not a [str].  The fuel is the length of the text,
    which is enough for the default size and overlap. *)
Definition chunk_value (v : value) : result (list str) :=
  match v with
  | VStr s => chunk_text (length s) s CHUNK_SIZE CHUNK_OVERLAP
  | _ => Raise AttributeError
  end.

(** [for idx, chunk in enumerate(chunks): to_insert.append((doc, idx, chunk))] *)
Definition enumerate_chunks (doc : dict) (chunks : list str) : list segment :=
  imap (λ idx chunk, (doc, idx, chunk)) chunks.

Fixpoint discourse_segments (posts : list dict) : result (list segment) :=
  match posts with
  | [] => Ok []
  | post :: posts' =>
      content ← getitem post "content";
      chunks ← chunk_value content;
      rest ← discourse_segments posts';
      Ok (enumerate_chunks post chunks ++ rest)
  end.

(** The parameter tuple of the [INSERT INTO discourse_chunks], evaluated
    left to right. *)
Definition discourse_row_of (seg : segment) (emb : str) : result row :=
  let '(post, idx, chunk) := seg in
  post_id ← getitem post "post_id";
  topic_id ← getitem post "topic_id";
  let topic_title := get post "topic_title" (VStr []) in
  post_number ← getitem post "post_number";
  author ← getitem post "author";
  created_at ← getitem post "created_at";
  let likes := get post "like_count" (VInt 0) in
  url ← getitem post "url";
  Ok (DiscourseRow
        {| d_post_id := post_id; d_topic_id := topic_id;
           d_topic_title := topic_title; d_post_number := post_number;
           d_author := author; d_created_at := created_at;
           d_likes := likes; d_chunk_index := idx; d_content := chunk;
           d_url := url; d_embedding := emb |}).

Definition process_discourse (env : environment) : M unit :=
  match discourse_json env with
  | None => ret tt
  | Some (Unparsable e) => lift (Raise e)
  | Some (Parsed posts) =>
      let* _ := emit [EvRead DiscourseJson] in
      let* to_insert := lift (discourse_segments posts) in
      embed_and_store env Forum discourse_row_of CONCURRENT_REQUESTS to_insert
  end.

(** ** [process_markdown] (lines 131-163) *)

Definition DASHES : str := [45; 45; 45]%N.

Definition starts_with (p s : str) : bool :=
  bool_decide (take (length p) s = p).

(** What follows the first ["---"] of [s], if there is one. *)
Fixpoint after_dashes (s : str) : option str :=
  match s with
  | [] => None
  | _ :: s' =>
      if starts_with DASHES s then Some (drop 3 s) else after_dashes s'
  end.

(** [re.sub(r'^---.*?---\s*', '', content, flags=re.DOTALL)] *)
Definition strip_front_matter (content : str) : str :=
  if starts_with DASHES content then
    match after_dashes (drop 3 content) with
    | Some rest => lstrip rest
    | None => content
    end
  else content.

(** [os.path.join(MARKDOWN_DIR, v)] needs a [str]. *)
Definition filename_of (v : value) : result str :=
  match v with
  | VStr name => Ok name
  | _ => Raise TypeError
  end.

Fixpoint markdown_segments (files : gmap str disk_file) (metadata : list dict)
    : M (list segment) :=
  match metadata with
  | [] => ret []
  | meta :: metadata' =>
      let* filename := lift (getitem meta "filename") in
      let* name := lift (filename_of filename) in
      match files !! name with
      | None => markdown_segments files metadata'          (* [continue] *)
      | Some (Unreadable e) => lift (Raise e)              (* [open], [f.read()] *)
      | Some (TextFile content) =>
          let* _ := emit [EvRead (MarkdownFile name)] in
          let* chunks := lift (chunk_value (VStr (strip_front_matter content))) in
          let* rest := markdown_segments files metadata' in
          ret (enumerate_chunks meta chunks ++ rest)
      end
  end.

Definition markdown_row_of (seg : segment) (emb : str) : result row :=
  let '(meta, idx, chunk) := seg in
  title ← getitem meta "title";
  original_url ← getitem meta "original_url";
  downloaded_at ← getitem meta "downloaded_at";
  Ok (MarkdownRow
        {| m_doc_title := title; m_original_url := original_url;
           m_downloaded_at := downloaded_at; m_chunk_index := idx;
           m_content := chunk; m_embedding := emb |}).

Definition process_markdown (env : environment) : M unit :=
  match metadata_json env with
  | None => ret tt
  | Some (Unparsable e) => lift (Raise e)
  | Some (Parsed metadata) =>
      let* _ := emit [EvRead MetadataJson] in
      let* to_insert := markdown_segments (markdown_files env) metadata in
      embed_and_store env Pages markdown_row_of CONCURRENT_REQUESTS to_insert
  end.

(** ** [main] and the module body (lines 29-32 and 165-179) *)

(** [os.remove(DB_PATH)] when the file exists. *)
Definition remove_existing : M unit := λ s,
  match db_file s with
  | Some _ => (Ok tt, {| db_file := None; pending := pending s;
                         trace := trace s ++ [EvRemoveDb] |})
  | None => (Ok tt, s)
  end.

(** [sqlite3.connect(DB_PATH)] followed by the two [CREATE TABLE IF NOT EXISTS]. *)
Definition connect_and_create : M unit := λ s,
  (Ok tt, {| db_file := Some (default empty_database (db_file s));
             pending := pending s; trace := trace s ++ [EvConnect] |}).

Definition main (env : environment) : M unit :=
  let* _ := remove_existing in
  let* _ := connect_and_create in
  let* _ := process_discourse env in
  let* _ := process_markdown env in
  ret tt.

Definition API_KEY_MISSING : exn :=
  RuntimeError "API_KEY environment variable not set. Please set it in your .env file.".

(** Running the file as a script: the module body checks [API_KEY] before
    [asyncio.run(main())]. *)
Definition script (env : environment) : M unit :=
  match api_key env with
  | None | Some [] => lift (Raise API_KEY_MISSING)
  | Some _ => main env
  end.

(** The run from a store file [db]; when the process ends the open
    transaction is lost. *)
Definition run (env : environment) (db : option database)
    : result unit * option database * list event :=
  let '(r, s) := script env {| db_file := db; pending := []; trace := [] |} in
  (r, db_file s, trace s).

(** What [main] does before the first corpus: remove the old store file
    if there is one, then create the new one. *)
Definition startup_events (db : option database) : list event :=
  match db with
  | Some _ => [EvRemoveDb; EvConnect]
  | None => [EvConnect]
  end.

(** ** Closed forms used in the further properties *)

(** The attempt is answered by a 200 whose body yields an embedding. *)
Definition is_success (r : response) : bool :=
  match r with
  | Http status (Some _) => (status =? 200)%Z
  | _ => false
  end.

(** The sleep that follows an attempt that did not succeed. *)
Definition backoff (r : response) (attempt : nat) : Z :=
  match r with
  | Http status _ => if (status =? 429)%Z then (2 ^ Z.of_nat attempt)%Z else 2%Z
  | NetworkError => 2%Z
  end.

(** The request of attempt [j] followed by its backoff sleep. *)
Definition failed_attempt (server : endpoint) (text : str) (j : nat)
    : list client_event :=
  [Post text j; Sleep (backoff (server text j) j)].

(** [row] is the row built from the segment at position [p] and from the
    value returned by the embedding call made for that position. *)
Definition row_of_call (env : environment) (c : corpus)
    (make_row : segment → str → result row) (to_insert : list segment)
    (p : nat) (r : row) : Prop :=
  ∃ seg emb,
    to_insert !! p = Some seg
    ∧ (get_embedding (server env c p) seg.2 MAX_RETRIES).1 = Ok emb
    ∧ make_row seg emb = Ok r.

(** The post has a ["content"] that is a string. *)
Definition has_text (post : dict) : Prop :=
  ∃ s, post !! "content" = Some (VStr s).

(** The fields that the [INSERT INTO discourse_chunks] reads with
    [post[...]]. *)
Definition REQUIRED_POST_FIELDS : list string :=
  ["post_id"; "topic_id"; "post_number"; "author"; "created_at"; "url"].

(** The call for position [p] returns [emb p]. *)
Definition call_returns (env : environment) (c : corpus)
    (to_insert : list segment) (emb : nat → str) (p : nat) : Prop :=
  ∀ seg, to_insert !! p = Some seg →
    (get_embedding (server env c p) seg.2 MAX_RETRIES).1 = Ok (emb p).

(** Building the row of [seg] with [emb], or binding its parameters,
    raises [e]. *)
Definition insert_raises (make_row : segment → str → result row)
    (seg : segment) (emb : str) (e : exn) : Prop :=
  make_row seg emb = Raise e
  ∨ ∃ r, make_row seg emb = Ok r ∧ bind_row r = Raise e.

(** The fields that the [INSERT INTO markdown_chunks] reads with
    [meta[...]]. *)
Definition REQUIRED_PAGE_FIELDS : list string :=
  ["title"; "original_url"; "downloaded_at"].

(** [field] is the first of [fields], in the order in which the
    parameter tuple reads them, that [doc] does not have. *)
Definition first_missing (fields : list string) (doc : dict)
    (field : string) : Prop :=
  ∃ before after,
    fields = before ++ field :: after
    ∧ Forall (λ f, is_Some (doc !! f)) before
    ∧ doc !! field = None.

(** The two environments talk to the same server with the same
    scheduling of the calls. *)
Definition same_service (env env' : environment) : Prop :=
  server env' = server env ∧ completion env' = completion env.

(** ** Example inputs *)

Definition example_post (id : Z) (content : str) : dict :=
  <["post_id" := VInt id]> (<["topic_id" := VInt 7]>
  (<["post_number" := VInt 1]> (<["author" := VStr [117]%N]>
  (<["created_at" := VStr [50]%N]> (<["content" := VStr content]>
  (<["url" := VStr [47]%N]> ∅)))))).

(** A post record without ["content"]. *)
Definition headless_post : dict :=
  <["post_id" := VInt 9]> (<["author" := VStr [117]%N]> ∅).

Definition example_posts : list dict :=
  [example_post 1 [97]%N; example_post 2 [98]%N; example_post 3 [99]%N;
   example_post 4 [100]%N; example_post 5 [101]%N].

Definition example_segments : list segment :=
  [(example_post 1 [97]%N, 0, [97]%N); (example_post 2 [98]%N, 0, [98]%N);
   (example_post 3 [99]%N, 0, [99]%N); (example_post 4 [100]%N, 0, [100]%N);
   (example_post 5 [101]%N, 0, [101]%N)].

(** The embedding of a text is the text followed by the position of the
    call. *)
Definition example_emb (p : nat) : str := [97 + N.of_nat p; N.of_nat p]%N.

Definition example_row (p : nat) : row :=
  DiscourseRow
    {| d_post_id := VInt (Z.of_nat p + 1); d_topic_id := VInt 7;
       d_topic_title := VStr []; d_post_number := VInt 1;
       d_author := VStr [117]%N; d_created_at := VStr [50]%N;
       d_likes := VInt 0; d_chunk_index := 0;
       d_content := [97 + N.of_nat p]%N; d_url := VStr [47]%N;
       d_embedding := example_emb p |}.

Definition example_meta (name : str) : dict :=
  <["filename" := VStr name]> (<["title" := VStr [84]%N]>
  (<["original_url" := VStr [47]%N]> (<["downloaded_at" := VStr [50]%N]> ∅))).

(** Every request is answered 200; the calls of a wave complete in the
    order 3, 1, 0, 2. *)
Definition example_env : environment :=
  {| api_key := Some [107]%N;
     discourse_json := Some (Parsed example_posts);
     metadata_json := Some (Parsed [example_meta [120]%N; example_meta [121]%N]);
     markdown_files :=
       <[ [121]%N := TextFile [45; 45; 45; 10; 116; 45; 45; 45; 10; 104; 105]%N ]>
         {[ [] := Unreadable (OSError "Is a directory") ]};
     server := λ _ p text _, Http 200 (Some (text ++ [N.of_nat p]));
     completion := λ _ _, [3; 1; 0; 2] |}.

(** The same, with every request of the call for forum position 4
    answered 500. *)
Definition failing_env : environment :=
  {| api_key := api_key example_env;
     discourse_json := discourse_json example_env;
     metadata_json := metadata_json example_env;
     markdown_files := markdown_files example_env;
     server := λ c p text k,
       match c, p with
       | Forum, 4 => Http 500 None
       | _, _ => server example_env c p text k
       end;
     completion := completion example_env |}.

(** The forum corpus with a record without ["content"] between two
    well-formed posts, and the same corpus without that record. *)
Definition headless_env : environment :=
  {| api_key := api_key example_env;
     discourse_json :=
       Some (Parsed ([example_post 1 [97]%N] ++ headless_post
                     :: [example_post 2 [98]%N]));
     metadata_json := None;
     markdown_files := ∅;
     server := server example_env;
     completion := completion example_env |}.

Definition wellformed_env : environment :=
  {| api_key := api_key example_env;
     discourse_json := Some (Parsed [example_post 1 [97]%N; example_post 2 [98]%N]);
     metadata_json := None;
     markdown_files := ∅;
     server := server example_env;
     completion := completion example_env |}.

Definition no_key_env : environment :=
  {| api_key := None;
     discourse_json := discourse_json example_env;
     metadata_json := metadata_json example_env;
     markdown_files := markdown_files example_env;
     server := server example_env;
     completion := completion example_env |}.

Definition old_store : database :=
  add_rows [example_row 0; example_row 1] empty_database.

(** A post with a body but without ["post_id"], after five well-formed
    posts: its segment is the second of the second wave. *)
Definition anonymous_post : dict := delete "post_id" (example_post 6 [102]%N).

Definition anonymous_env : environment :=
  {| api_key := api_key example_env;
     discourse_json := Some (Parsed (example_posts ++ [anonymous_post]));
     metadata_json := metadata_json example_env;
     markdown_files := markdown_files example_env;
     server := server example_env;
     completion := completion example_env |}.

(** A post whose body is blank and that has no other field. *)
Definition blank_post : dict := <["content" := VStr [32; 10]%N]> ∅.

(** A post whose id does not fit in 64 signed bits. *)
Definition huge_id_env : environment :=
  {| api_key := api_key example_env;
     discourse_json :=
       Some (Parsed [example_post 1 [97]%N;
                     example_post (2 ^ 63) [98]%N]);
     metadata_json := None;
     markdown_files := ∅;
     server := server example_env;
     completion := completion example_env |}.

(** The pages corpus of [example_env] without the entry whose file is
    not on disk. *)
Definition listed_env : environment :=
  {| api_key := api_key example_env;
     discourse_json := discourse_json example_env;
     metadata_json := Some (Parsed [example_meta [121]%N]);
     markdown_files := markdown_files example_env;
     server := server example_env;
     completion := completion example_env |}.

(** The forum corpus of [wellformed_env] with [blank_post] between the
    two posts. *)
Definition blank_env : environment :=
  {| api_key := api_key example_env;
     discourse_json :=
       Some (Parsed ([example_post 1 [97]%N] ++ blank_post
                     :: [example_post 2 [98]%N]));
     metadata_json := None;
     markdown_files := ∅;
     server := server example_env;
     completion := completion example_env |}.

(** Page entries without ["filename"] and without ["title"]. *)
Definition nameless_meta : dict := delete "filename" (example_meta [121]%N).

Definition untitled_meta : dict := delete "title" (example_meta [121]%N).

Definition nameless_env : environment :=
  {| api_key := api_key example_env;
     discourse_json := None;
     metadata_json :=
       Some (Parsed ([example_meta [121]%N] ++ nameless_meta
                     :: [example_meta [121]%N]));
     markdown_files := markdown_files example_env;
     server := server example_env;
     completion := completion example_env |}.

Definition untitled_env : environment :=
  {| api_key := api_key example_env;
     discourse_json := None;
     metadata_json := Some (Parsed [example_meta [121]%N; untitled_meta]);
     markdown_files := markdown_files example_env;
     server := server example_env;
     completion := completion example_env |}.

Definition example_page_emb (p : nat) : str := [104; 105; N.of_nat p]%N.

Definition example_page_row (p : nat) : row :=
  MarkdownRow
    {| m_doc_title := VStr [84]%N; m_original_url := VStr [47]%N;
       m_downloaded_at := VStr [50]%N; m_chunk_index := 0;
       m_content := [104; 105]%N; m_embedding := example_page_emb p |}.

Definition fresh_state : run_state :=
  {| db_file := Some empty_database; pending := []; trace := [] |}.

(** The pending list of [anonymous_env]. *)
Definition anonymous_segments : list segment :=
  example_segments ++ [(anonymous_post, 0, [102]%N)].
(** ** Facts about the chunker *)

Lemma ceil_div_spec (a b : Z) :
  (0 < b)%Z → ((ceil_div a b - 1) * b < a ≤ ceil_div a b * b)%Z.
Proof.
  intros Hb. unfold ceil_div.
  pose proof (Z.div_mod (a + b - 1) b ltac:(lia)) as Hdm.
  pose proof (Z.mod_pos_bound (a + b - 1) b Hb) as Hmod.
  nia.
Qed.

Lemma ceil_div_one (a b : Z) : (0 < a ≤ b)%Z → ceil_div a b = 1%Z.
Proof.
  intros H. unfold ceil_div.
  symmetry. apply (Z.div_unique_pos _ _ 1%Z (a - 1)%Z); lia.
Qed.

Lemma ceil_div_step (a b : Z) :
  (0 < b)%Z → ceil_div a b = (1 + ceil_div (a - b) b)%Z.
Proof.
  intros Hb. unfold ceil_div.
  replace (a + b - 1)%Z with ((a - b + b - 1) + 1 * b)%Z by lia.
  rewrite Z.div_add by lia. lia.
Qed.

Lemma py_slice_inside {A} (s : list A) (a b : Z) :
  (0 ≤ a ≤ b)%Z → (b ≤ Z.of_nat (length s))%Z →
  py_slice s a b = take (Z.to_nat b - Z.to_nat a) (drop (Z.to_nat a) s).
Proof.
  intros Hab Hb. unfold py_slice, slice_index.
  destruct (Z.ltb_spec a 0); [lia|].
  destruct (Z.ltb_spec b 0); [lia|].
  rewrite !Z.min_l by lia.
  f_equal. lia.
Qed.

Lemma slice_glue {A} (l : list A) (a o e : nat) :
  a + o ≤ e →
  drop o (take (e - a) (drop a l)) ++ drop e l = drop (a + o) l.
Proof.
  intros Hle. rewrite take_drop_commute, drop_drop.
  replace (a + (e - a)) with e by lia.
  by apply drop_take_drop.
Qed.

Lemma chunk_loop_acc (fuel : nat) (text : str) (S_ O_ : Z) :
  ∀ start acc,
    chunk_loop fuel text S_ O_ {| cs_start := start; cs_chunks := acc |} =
    match chunk_loop fuel text S_ O_ {| cs_start := start; cs_chunks := [] |} with
    | Ok ws => Ok (acc ++ ws)
    | Raise e => Raise e
    | NoFuel => NoFuel
    end.
Proof.
  induction fuel as [|fuel IH]; intros start acc; simpl; [done|].
  unfold chunk_iter; simpl.
  destruct (Z.ltb_spec start (Z.of_nat (length text))).
  - destruct (Z.eqb_spec (Z.min (start + S_) (Z.of_nat (length text)))
                (Z.of_nat (length text))).
    + done.
    + rewrite (IH _ (acc ++ _)). rewrite (IH _ [_]).
      destruct (chunk_loop fuel text S_ O_ _); simpl; try done.
      by rewrite <- app_assoc.
  - by rewrite app_nil_r.
Qed.

Lemma chunk_loop_mono (fuel fuel' : nat) (text : str) (S_ O_ : Z) st ws :
  fuel ≤ fuel' →
  chunk_loop fuel text S_ O_ st = Ok ws →
  chunk_loop fuel' text S_ O_ st = Ok ws.
Proof.
  revert fuel' st. induction fuel as [|fuel IH]; intros fuel' st Hle; [done|].
  destruct fuel' as [|fuel']; [lia|]. simpl.
  destruct (chunk_iter text S_ O_ st); [|done].
  apply IH. lia.
Qed.

Lemma chunk_loop_no_raise (fuel : nat) (text : str) (S_ O_ : Z) st e :
  chunk_loop fuel text S_ O_ st ≠ Raise e.
Proof.
  revert st. induction fuel as [|fuel IH]; intros st; simpl; [done|].
  destruct (chunk_iter text S_ O_ st); [apply IH|done].
Qed.

(** *** The loop under the intended parameters [0 <= overlap < chunk_size] *)

Section ValidParameters.
Variable text : str.
Variables chunk_size overlap : Z.
Hypothesis overlap_nonneg : (0 ≤ overlap)%Z.
Hypothesis overlap_lt_size : (overlap < chunk_size)%Z.

Local Abbreviation len := (Z.of_nat (length text)).

Lemma chunk_iter_progress (start : Z) (acc : list str) :
  (0 ≤ start < len)%Z →
  (∃ chunks, chunk_iter text chunk_size overlap
               {| cs_start := start; cs_chunks := acc |} = Break chunks
             ∧ (len ≤ start + chunk_size)%Z) ∨
  (∃ st', chunk_iter text chunk_size overlap
            {| cs_start := start; cs_chunks := acc |} = Continue st'
          ∧ cs_start st' = (start + (chunk_size - overlap))%Z
          ∧ (start < cs_start st' < len)%Z).
Proof.
  intros Hs. unfold chunk_iter; simpl.
  destruct (Z.ltb_spec start len); [|lia].
  destruct (Z.eqb_spec (Z.min (start + chunk_size) len) len).
  - left. eexists. split; [done|lia].
  - right. eexists. split; [done|]. simpl. lia.
Qed.

Lemma chunk_loop_windows (fuel : nat) :
  ∀ start, (0 ≤ start < len)%Z → enough_fuel text chunk_size overlap fuel start →
  ∃ w rest,
    chunk_loop fuel text chunk_size overlap
      {| cs_start := start; cs_chunks := [] |} = Ok (w :: rest)
    ∧ w = py_slice text start (Z.min (start + chunk_size) len)
    ∧ concat (map (drop (Z.to_nat overlap)) rest)
      = drop (Z.to_nat (Z.min (start + chunk_size) len)) text
    ∧ ((overlap < len - start)%Z →
       Z.of_nat (length (w :: rest))
       = ceil_div (len - start - overlap) (chunk_size - overlap))
    ∧ length (w :: rest) ≤ fuel.
Proof.
  induction fuel as [|fuel IH]; intros start Hs [Hf1 Hf2]; [lia|].
  simpl. unfold chunk_iter; simpl.
  destruct (Z.ltb_spec start len); [|lia].
  destruct (Z.eqb_spec (Z.min (start + chunk_size) len) len) as [He|He].
  - exists (py_slice text start (Z.min (start + chunk_size) len)), [].
    repeat split; simpl.
    + rewrite He. rewrite Nat2Z.id. by rewrite drop_ge.
    + intros Ho. rewrite ceil_div_one; lia.
    + lia.
  - assert (Hlt : (start + chunk_size < len)%Z) by lia.
    destruct (IH (start + (chunk_size - overlap))%Z) as
      (w' & rest' & Hrun & Hw' & Hcat & Hcnt & Hlen).
    { lia. }
    { split; [|lia]. destruct fuel; [|lia]. simpl in Hf2. lia. }
    rewrite chunk_loop_acc, Hrun. simpl.
    eexists _, (w' :: rest'). repeat split.
    + simpl. rewrite Hcat, Hw'.
      set (e' := Z.min (start + (chunk_size - overlap) + chunk_size) len).
      rewrite py_slice_inside by (subst e'; lia).
      rewrite Z.min_l by lia.
      rewrite slice_glue by (subst e'; lia).
      f_equal. lia.
    + intros Ho. rewrite (ceil_div_step (len - start - overlap)) by lia.
      replace (len - start - overlap - (chunk_size - overlap))%Z
        with (len - (start + (chunk_size - overlap)) - overlap)%Z by lia.
      rewrite <- Hcnt by lia.
      simpl length. lia.
    + simpl in *. lia.
Qed.

Lemma enough_fuel_length (fuel : nat) :
  text ≠ [] → length text ≤ fuel → enough_fuel text chunk_size overlap fuel 0.
Proof.
  intros Hne Hle.
  assert (1 ≤ length text) by (destruct text; [done|simpl; lia]).
  unfold enough_fuel. split; [lia|].
  assert ((Z.of_nat fuel - 1) * 1 ≤ (Z.of_nat fuel - 1) * (chunk_size - overlap))%Z
    by (apply Z.mul_le_mono_nonneg_l; lia).
  lia.
Qed.

(** From the initial state the loop returns the windows of [text]. *)
Lemma chunk_loop_from_zero (fuel : nat) :
  text ≠ [] → length text ≤ fuel →
  ∃ chunks,
    chunk_loop fuel text chunk_size overlap
      {| cs_start := 0; cs_chunks := [] |} = Ok chunks
    ∧ reassemble overlap chunks = text
    ∧ ((overlap < len)%Z →
       Z.of_nat (length chunks) = ceil_div (len - overlap) (chunk_size - overlap))
    ∧ ((len ≤ chunk_size)%Z → chunks = [text])
    ∧ 1 ≤ length chunks ≤ fuel.
Proof.
  intros Hne Hle.
  assert (Hpos : (0 < len)%Z) by (destruct text; [done|simpl; lia]).
  destruct (chunk_loop_windows fuel 0) as (w & rest & Hrun & Hw & Hcat & Hcnt & Hlen).
  { lia. }
  { by apply enough_fuel_length. }
  exists (w :: rest). split; [done|]. repeat split.
  - simpl. rewrite Hcat, Hw.
    rewrite py_slice_inside by lia.
    change (Z.to_nat 0) with 0. rewrite drop_0, Nat.sub_0_r.
    apply take_drop.
  - intros Ho. rewrite Hcnt by lia. f_equal. lia.
  - intros Hsmall.
    assert (Hfirst : w = text).
    { rewrite Hw, py_slice_inside by lia.
      rewrite Z.min_r by lia. rewrite Nat2Z.id.
      change (Z.to_nat 0) with 0. rewrite drop_0, Nat.sub_0_r.
      by rewrite take_ge. }
    destruct (decide (overlap < len)%Z) as [Ho|Ho].
    + specialize (Hcnt ltac:(lia)).
      rewrite ceil_div_one in Hcnt by lia.
      destruct rest; [by rewrite Hfirst|simpl in Hcnt; lia].
    + (* the whole text fits in the first window *)
      destruct fuel as [|fuel']; [simpl in Hlen; lia|].
      simpl in Hrun. unfold chunk_iter in Hrun. simpl in Hrun.
      destruct (Z.ltb_spec 0 len); [|lia].
      rewrite Z.min_r in Hrun by lia.
      rewrite Z.eqb_refl in Hrun.
      injection Hrun as <- <-. by rewrite Hfirst.
  - simpl. lia.
  - done.
Qed.

End ValidParameters.

Lemma length_lstrip_le (s : str) : length (lstrip s) ≤ length s.
Proof.
  induction s as [|c s IH]; simpl; [done|].
  destruct (isspace c); simpl; lia.
Qed.

Lemma length_strip_le (s : str) : length (strip s) ≤ length s.
Proof.
  unfold strip, rstrip. rewrite length_rev.
  etrans; [apply length_lstrip_le|].
  rewrite length_rev. apply length_lstrip_le.
Qed.

(** [chunk_text] has no [raise]: whatever the arguments, it cannot end in
    an exception. *)
Lemma chunk_text_no_raise (fuel : nat) (text : str) (chunk_size overlap : Z) e :
  chunk_text fuel text chunk_size overlap ≠ Raise e.
Proof.
  unfold chunk_text. destruct (strip text); [done|].
  apply chunk_loop_no_raise.
Qed.

Lemma chunk_text_mono (fuel fuel' : nat) (text : str) (chunk_size overlap : Z) ws :
  fuel ≤ fuel' →
  chunk_text fuel text chunk_size overlap = Ok ws →
  chunk_text fuel' text chunk_size overlap = Ok ws.
Proof.
  unfold chunk_text. destruct (strip text); [done|].
  apply chunk_loop_mono.
Qed.

(** *** Reconstruction, chunk count, termination *)

(** C1. For a non-empty text and [0 <= overlap < chunk_size], the chunks
    returned by [chunk_text], concatenated in index order after removing
    the first [overlap] characters of every chunk but the first, give back
    the whitespace-trimmed text. *)
Theorem chunk_text_reassemble (text : str) (chunk_size overlap : Z) (fuel : nat) :
  text ≠ [] →
  (0 ≤ overlap < chunk_size)%Z →
  length (strip text) ≤ fuel →
  ∃ chunks,
    chunk_text fuel text chunk_size overlap = Ok chunks
    ∧ reassemble overlap chunks = strip text.
Proof.
  intros _ [Ho HS] Hfuel. unfold chunk_text.
  destruct (strip text) as [|c t] eqn:Hstrip.
  - by exists [].
  - destruct (chunk_loop_from_zero (c :: t) chunk_size overlap Ho HS fuel)
      as (chunks & Hrun & Hre & _); [done|done|].
    by exists chunks.
Qed.

Lemma chunk_text_reassemble_witness :
  ∃ chunks,
    chunk_text 7 [32; 97; 98; 99; 100; 101; 102; 103; 10]%N 3 1 = Ok chunks
    ∧ reassemble 1 chunks = strip [32; 97; 98; 99; 100; 101; 102; 103; 10]%N.
Proof.
  apply (chunk_text_reassemble [32; 97; 98; 99; 100; 101; 102; 103; 10]%N 3 1 7).
  - done.
  - lia.
  - vm_compute. lia.
Defined.

(** C2. When the trimmed text is longer than [overlap] and
    [0 <= overlap < chunk_size], [chunk_text] returns exactly
    [ceil ((len - overlap) / (chunk_size - overlap))] chunks, and exactly
    one chunk when the trimmed text is no longer than [chunk_size]. *)
Theorem chunk_text_count (text : str) (chunk_size overlap : Z) (fuel : nat) :
  (overlap < Z.of_nat (length (strip text)))%Z →
  (0 ≤ overlap < chunk_size)%Z →
  length (strip text) ≤ fuel →
  ∃ chunks,
    chunk_text fuel text chunk_size overlap = Ok chunks
    ∧ Z.of_nat (length chunks)
      = ceil_div (Z.of_nat (length (strip text)) - overlap) (chunk_size - overlap)
    ∧ ((Z.of_nat (length (strip text)) ≤ chunk_size)%Z → length chunks = 1).
Proof.
  intros Hlen [Ho HS] Hfuel. unfold chunk_text.
  destruct (strip text) as [|c t] eqn:Hstrip.
  - simpl in Hlen. lia.
  - destruct (chunk_loop_from_zero (c :: t) chunk_size overlap Ho HS fuel)
      as (chunks & Hrun & _ & Hcnt & Hone & _); [done|done|].
    exists chunks. split; [done|]. split; [by apply Hcnt|].
    intros Hsmall. by rewrite (Hone Hsmall).
Qed.

Lemma chunk_text_count_witness :
  ∃ chunks,
    chunk_text 7 [97; 98; 99; 100; 101; 102; 103]%N 3 1 = Ok chunks
    ∧ Z.of_nat (length chunks)
      = ceil_div (Z.of_nat (length (strip [97; 98; 99; 100; 101; 102; 103]%N)) - 1) (3 - 1)
    ∧ ((Z.of_nat (length (strip [97; 98; 99; 100; 101; 102; 103]%N)) ≤ 3)%Z
       → length chunks = 1).
Proof.
  apply (chunk_text_count [97; 98; 99; 100; 101; 102; 103]%N 3 1 7).
  - vm_compute. reflexivity.
  - lia.
  - vm_compute. lia.
Defined.

(** C10. With [chunk_size > 0] and [0 <= overlap < chunk_size] the loop of
    [chunk_text] terminates: an iteration started inside the text either
    leaves the loop or moves the start offset forward by
    [chunk_size - overlap > 0] to a position still inside the text, and
    the call returns within [length (strip text)] iterations. *)
Theorem chunk_text_terminates (text : str) (chunk_size overlap : Z) :
  (0 < chunk_size)%Z →
  (0 ≤ overlap < chunk_size)%Z →
  (∀ start acc,
     (0 ≤ start < Z.of_nat (length (strip text)))%Z →
     (∃ chunks, chunk_iter (strip text) chunk_size overlap
                  {| cs_start := start; cs_chunks := acc |} = Break chunks
                ∧ (Z.of_nat (length (strip text)) ≤ start + chunk_size)%Z) ∨
     (∃ st', chunk_iter (strip text) chunk_size overlap
               {| cs_start := start; cs_chunks := acc |} = Continue st'
             ∧ cs_start st' = (start + (chunk_size - overlap))%Z
             ∧ (start < cs_start st' < Z.of_nat (length (strip text)))%Z))
  ∧ ∃ chunks,
      chunk_text (length (strip text)) text chunk_size overlap = Ok chunks
      ∧ length chunks ≤ length (strip text).
Proof.
  intros _ [Ho HS]. split.
  - intros start acc Hs.
    destruct (chunk_iter_progress (strip text) chunk_size overlap Ho HS start acc Hs)
      as [(chunks & Hb)|(st' & Hc)]; [left|right]; eauto.
  - unfold chunk_text. destruct (strip text) as [|c t] eqn:Hstrip.
    + by exists [].
    + destruct (chunk_loop_from_zero (c :: t) chunk_size overlap Ho HS (length (c :: t)))
        as (chunks & Hrun & _ & _ & _ & Hlen); [done|done|].
      exists chunks. split; [done|lia].
Qed.

Lemma chunk_text_terminates_witness :
  ∃ chunks,
    chunk_text (length (strip [97; 98; 99; 100; 101; 102; 103]%N))
      [97; 98; 99; 100; 101; 102; 103]%N CHUNK_SIZE CHUNK_OVERLAP = Ok chunks
    ∧ length chunks ≤ length (strip [97; 98; 99; 100; 101; 102; 103]%N).
Proof.
  apply (chunk_text_terminates [97; 98; 99; 100; 101; 102; 103]%N
           CHUNK_SIZE CHUNK_OVERLAP); unfold CHUNK_SIZE, CHUNK_OVERLAP; lia.
Defined.

(** *** No validation of [overlap < chunk_size] *)

(** With [overlap >= chunk_size] and a trimmed text longer than
    [chunk_size] the start offset never moves forward, and no amount of
    fuel yields an answer. *)
Lemma chunk_loop_stalls (fuel : nat) (text : str) (chunk_size overlap : Z) :
  (chunk_size ≤ overlap)%Z →
  (chunk_size < Z.of_nat (length text))%Z →
  ∀ st, (cs_start st ≤ 0)%Z → text ≠ [] →
  chunk_loop fuel text chunk_size overlap st = NoFuel.
Proof.
  intros HO HS. induction fuel as [|fuel IH]; intros [start acc] Hst Hne; [done|].
  simpl in *. unfold chunk_iter; simpl.
  assert (0 < Z.of_nat (length text))%Z by (destruct text; [done|simpl; lia]).
  destruct (Z.ltb_spec start (Z.of_nat (length text))); [|lia].
  destruct (Z.eqb_spec (Z.min (start + chunk_size) (Z.of_nat (length text)))
              (Z.of_nat (length text))); [lia|].
  apply IH; simpl; [lia|done].
Qed.

Lemma chunk_text_stalls (fuel : nat) (text : str) (chunk_size overlap : Z) :
  (chunk_size ≤ overlap)%Z →
  (chunk_size < Z.of_nat (length (strip text)))%Z →
  strip text ≠ [] →
  chunk_text fuel text chunk_size overlap = NoFuel.
Proof.
  intros HO HS Hne. unfold chunk_text.
  destruct (strip text) as [|c t] eqn:Hstrip; [done|].
  apply chunk_loop_stalls; simpl in *; try done; lia.
Qed.

(** C3, as stated, fails: a call with [overlap >= chunk_size] does not
    signal an error.  [chunk_text("a", 1, 1)] returns [["a"]]. *)
Lemma chunk_text_validation_counterexample :
  ¬ (∀ (text : str) (chunk_size overlap : Z),
       (chunk_size ≤ overlap)%Z →
       ∃ fuel e, chunk_text fuel text chunk_size overlap = Raise e).
Proof.
  intros Hclaim.
  destruct (Hclaim [97%N] 1%Z 1%Z ltac:(lia)) as (fuel & e & Hraise).
  by apply chunk_text_no_raise in Hraise.
Qed.

(** C3, amended. [chunk_text] does not validate [overlap < chunk_size] and
    never signals an error; with [overlap >= chunk_size] and a trimmed
    text no longer than [chunk_size] it returns normally: no chunk for a
    blank text, otherwise the trimmed text as the only chunk. *)
Theorem chunk_text_unvalidated (text : str) (chunk_size overlap : Z) (fuel : nat) :
  (chunk_size ≤ overlap)%Z →
  (Z.of_nat (length (strip text)) ≤ chunk_size)%Z →
  1 ≤ fuel →
  (∀ fuel' e, chunk_text fuel' text chunk_size overlap ≠ Raise e)
  ∧ chunk_text fuel text chunk_size overlap
    = Ok (match strip text with [] => [] | _ => [strip text] end).
Proof.
  intros HO Hlen Hfuel. split; [intros; apply chunk_text_no_raise|].
  unfold chunk_text. destruct (strip text) as [|c t] eqn:Hstrip; [done|].
  destruct fuel as [|fuel]; [lia|]. simpl chunk_loop.
  unfold chunk_iter. cbn [cs_start cs_chunks].
  set (n := Z.of_nat (length (c :: t))) in *.
  assert (0 < n)%Z by (subst n; simpl; lia).
  destruct (Z.ltb_spec 0 n); [|lia].
  rewrite Z.min_r by lia. rewrite Z.eqb_refl.
  rewrite py_slice_inside by (fold n; lia).
  subst n. rewrite Nat2Z.id. change (Z.to_nat 0) with 0.
  by rewrite drop_0, Nat.sub_0_r, take_ge.
Qed.

Lemma chunk_text_unvalidated_witness :
  (∀ fuel' e, chunk_text fuel' [32; 97; 98]%N 2 5 ≠ Raise e)
  ∧ chunk_text 1 [32; 97; 98]%N 2 5 = Ok [[97; 98]%N].
Proof.
  apply (chunk_text_unvalidated [32; 97; 98]%N 2 5 1).
  - lia.
  - vm_compute. discriminate.
  - lia.
Defined.

(** ** Facts about the embedding client *)

Lemma attempt_loop_outcome (server : endpoint) (text : str) (remaining attempt : nat) :
  (∃ emb, (attempt_loop server text attempt remaining).1 = Ok emb)
  ∨ (attempt_loop server text attempt remaining).1 = Raise RETRIES_EXHAUSTED.
Proof.
  revert attempt. induction remaining as [|n IH]; intros attempt; simpl; [by right|].
  specialize (IH (S attempt)).
  destruct (attempt_loop server text (S attempt) n) as [r log]; simpl in IH.
  destruct (server text attempt) as [status [emb|]|];
    repeat case_match; simpl; eauto.
Qed.

Lemma get_embedding_outcome (server : endpoint) (text : str) (retries : nat) :
  (∃ emb, (get_embedding server text retries).1 = Ok emb)
  ∨ (get_embedding server text retries).1 = Raise RETRIES_EXHAUSTED.
Proof. apply attempt_loop_outcome. Qed.

(** A 429 at attempt [k] is followed by a sleep of [2 ^ k] seconds. *)
Lemma attempt_loop_rate_limited (server : endpoint) (text : str)
    (attempt remaining : nat) body :
  server text attempt = Http 429 body →
  attempt_loop server text attempt (S remaining) =
  ((attempt_loop server text (S attempt) remaining).1,
   Post text attempt :: Sleep (2 ^ Z.of_nat attempt)
     :: (attempt_loop server text (S attempt) remaining).2).
Proof.
  intros Hs. simpl. rewrite Hs. simpl.
  by destruct (attempt_loop server text (S attempt) remaining).
Qed.

Lemma attempt_loop_server_error (server : endpoint) (text : str)
    (remaining attempt : nat) :
  (∀ k, ∃ body, server text k = Http 500 body) →
  attempt_loop server text attempt remaining =
  (Raise RETRIES_EXHAUSTED,
   flat_map (λ k, [Post text k; Sleep 2]) (seq attempt remaining)).
Proof.
  intros Hs. revert attempt.
  induction remaining as [|n IH]; intros attempt; [done|].
  simpl. destruct (Hs attempt) as [body ->]. simpl.
  by rewrite IH.
Qed.

(** C7. With at least 3 attempts configured, a service answering 429,
    429, 200 makes [get_embedding] return the embedding after exactly two
    sleeps, of [2^0] and [2^1] seconds (a 429 at attempt [k] is followed
    by a sleep of [2^k] seconds); a service answering 500 to every attempt
    makes it raise after exactly [retries] requests. *)
Theorem get_embedding_backoff (flaky failing : endpoint) (text emb : str)
    (retries : nat) :
  3 ≤ retries →
  (∃ b0 b1, flaky text 0 = Http 429 b0 ∧ flaky text 1 = Http 429 b1
            ∧ flaky text 2 = Http 200 (Some emb)) →
  (∀ k, ∃ body, failing text k = Http 500 body) →
  ((get_embedding flaky text retries).1 = Ok emb
   ∧ sleeps (get_embedding flaky text retries).2 = [2 ^ 0; 2 ^ 1]%Z
   ∧ posts_sent (get_embedding flaky text retries).2 = [0; 1; 2])
  ∧ ((get_embedding failing text retries).1 = Raise RETRIES_EXHAUSTED
     ∧ posts_sent (get_embedding failing text retries).2 = seq 0 retries
     ∧ sleeps (get_embedding failing text retries).2 = replicate retries 2%Z)
  ∧ (∀ k n body, flaky text k = Http 429 body →
       sleeps (attempt_loop flaky text k (S n)).2
       = (2 ^ Z.of_nat k)%Z :: sleeps (attempt_loop flaky text (S k) n).2).
Proof.
  intros Hretries (b0 & b1 & H0 & H1 & H2) H500. repeat split.
  - destruct retries as [|[|[|n]]]; try lia.
    unfold get_embedding.
    rewrite (attempt_loop_rate_limited _ _ 0 _ b0 H0).
    rewrite (attempt_loop_rate_limited _ _ 1 _ b1 H1).
    simpl attempt_loop. by rewrite H2.
  - destruct retries as [|[|[|n]]]; try lia.
    unfold get_embedding.
    rewrite (attempt_loop_rate_limited _ _ 0 _ b0 H0).
    rewrite (attempt_loop_rate_limited _ _ 1 _ b1 H1).
    simpl attempt_loop. by rewrite H2.
  - destruct retries as [|[|[|n]]]; try lia.
    unfold get_embedding.
    rewrite (attempt_loop_rate_limited _ _ 0 _ b0 H0).
    rewrite (attempt_loop_rate_limited _ _ 1 _ b1 H1).
    simpl attempt_loop. by rewrite H2.
  - unfold get_embedding. by rewrite attempt_loop_server_error.
  - unfold get_embedding. rewrite attempt_loop_server_error by done. simpl.
    clear Hretries. generalize 0 as a.
    induction retries as [|n IH]; intros a; [done|].
    simpl. by rewrite IH.
  - unfold get_embedding. rewrite attempt_loop_server_error by done. simpl.
    clear Hretries. generalize 0 as a.
    induction retries as [|n IH]; intros a; [done|].
    simpl. by rewrite IH.
  - intros k n body Hk.
    by rewrite (attempt_loop_rate_limited _ _ k n body Hk).
Qed.

Lemma get_embedding_backoff_witness :
  let flaky : endpoint := λ _ k,
    match k with 0 | 1 => Http 429 None | _ => Http 200 (Some [49]%N) end in
  let failing : endpoint := λ _ _, Http 500 None in
  (get_embedding flaky [97]%N MAX_RETRIES).1 = Ok [49]%N
  ∧ sleeps (get_embedding flaky [97]%N MAX_RETRIES).2 = [1; 2]%Z
  ∧ (get_embedding failing [97]%N MAX_RETRIES).1 = Raise RETRIES_EXHAUSTED
  ∧ posts_sent (get_embedding failing [97]%N MAX_RETRIES).2 = [0; 1; 2].
Proof.
  intros flaky failing.
  destruct (get_embedding_backoff flaky failing [97]%N [49]%N MAX_RETRIES)
    as ((Hok & Hsleep & _) & (Hfail & Hposts & _) & _).
  - unfold MAX_RETRIES. lia.
  - exists None, None. done.
  - intros k. by exists None.
  - done.
Defined.

(** ** The state monad *)

Lemma bind_ok {A B} (m : M A) (f : A → M B) s a s' :
  m s = (Ok a, s') → bind m f s = f a s'.
Proof. intros H. unfold bind. by rewrite H. Qed.

Lemma bind_raise {A B} (m : M A) (f : A → M B) s e s' :
  m s = (Raise e, s') → bind m f s = (Raise e, s').
Proof. intros H. unfold bind. by rewrite H. Qed.

Lemma bind_nofuel {A B} (m : M A) (f : A → M B) s s' :
  m s = (NoFuel, s') → bind m f s = (NoFuel, s').
Proof. intros H. unfold bind. by rewrite H. Qed.

Lemma add_trace_nil s : add_trace s [] = s.
Proof. destruct s. unfold add_trace. simpl. by rewrite app_nil_r. Qed.

Lemma add_trace_app s t1 t2 : add_trace (add_trace s t1) t2 = add_trace s (t1 ++ t2).
Proof. unfold add_trace. simpl. by rewrite app_assoc. Qed.

(** ** [range] *)

Lemma range_from_nil (fuel i stop step : nat) :
  stop ≤ i → range_from fuel i stop step = [].
Proof.
  intros Hle. destruct fuel; [done|]. simpl.
  destruct (Nat.ltb_spec i stop); [lia|done].
Qed.

Lemma range_from_cons (fuel i stop step : nat) :
  i < stop → stop - i ≤ fuel →
  ∃ fuel', range_from fuel i stop step = i :: range_from fuel' (i + step) stop step
           ∧ (0 < step → stop - (i + step) ≤ fuel').
Proof.
  intros Hlt Hfuel. destruct fuel as [|fuel']; [lia|]. simpl.
  destruct (Nat.ltb_spec i stop); [|lia].
  exists fuel'. split; [done|lia].
Qed.

Lemma length_range_from (fuel i stop step : nat) :
  0 < step → stop - i ≤ fuel →
  Z.of_nat (length (range_from fuel i stop step))
  = ceil_div (Z.of_nat (stop - i)) (Z.of_nat step).
Proof.
  intros Hstep. revert i. induction fuel as [|fuel IH]; intros i Hfuel.
  - simpl. replace (stop - i) with 0 by lia. unfold ceil_div.
    symmetry. apply Z.div_small. lia.
  - simpl. destruct (Nat.ltb_spec i stop).
    + simpl length. rewrite Nat2Z.inj_succ, IH by lia.
      rewrite (ceil_div_step (Z.of_nat (stop - i))) by lia.
      destruct (decide (stop - i ≤ step)).
      * replace (stop - (i + step)) with 0 by lia.
        unfold ceil_div.
        rewrite (Z.div_small (Z.of_nat 0 + _ - 1)) by lia.
        rewrite Z.div_small; lia.
      * replace (Z.of_nat (stop - i) - Z.of_nat step)%Z
          with (Z.of_nat (stop - (i + step))) by lia. lia.
    + simpl. replace (stop - i) with 0 by lia. unfold ceil_div.
      symmetry. apply Z.div_small. lia.
Qed.

Lemma py_slice_batch {A} (l : list A) (i n : nat) :
  py_slice l (Z.of_nat i) (Z.of_nat (i + n)) = take n (drop i l).
Proof.
  unfold py_slice, slice_index.
  destruct (Z.ltb_spec (Z.of_nat i) 0); [lia|].
  destruct (Z.ltb_spec (Z.of_nat (i + n)) 0); [lia|].
  destruct (decide (i ≤ length l)) as [Hi|Hi].
  - rewrite (Z.min_l (Z.of_nat i)) by lia. rewrite Nat2Z.id.
    destruct (decide (i + n ≤ length l)).
    + rewrite Z.min_l by lia. f_equal. lia.
    + rewrite Z.min_r by lia.
      rewrite !take_ge; [done| |]; rewrite length_drop; lia.
  - rewrite !Z.min_r by lia. rewrite Nat2Z.id.
    rewrite !drop_ge by lia. by rewrite !take_nil.
Qed.

(** ** [asyncio.gather] *)

Lemma gather_loop_frame (c : corpus) (i : nat) (outs : list (result str))
    (order : list nat) :
  ∀ slots s r s',
    gather_loop c i outs order slots s = (r, s') →
    ∃ t, s' = add_trace s t
         ∧ Forall (call_event c i (length outs)) t
         ∧ (∀ slots', r = Ok slots' → length slots' = length slots).
Proof.
  induction order as [|j order IH]; intros slots s r s' Hrun; simpl in Hrun.
  - injection Hrun as <- <-. exists []. rewrite add_trace_nil.
    split; [done|]. split; [done|]. by intros ? [= <-].
  - destruct (outs !! j) as [r0|] eqn:Hj; [|by eapply IH].
    apply lookup_lt_Some in Hj as Hlt.
    unfold bind, emit, lift in Hrun. simpl in Hrun.
    destruct r0 as [emb|e|].
    + apply IH in Hrun as (t & -> & Ht & Hlen).
      exists (EvDone c (i + j) :: t). rewrite add_trace_app. split; [done|].
      split.
      * constructor; [|done]. exists j. auto.
      * intros slots' ->. rewrite (Hlen slots' eq_refl). apply length_insert.
    + injection Hrun as <- <-. exists [EvDone c (i + j)].
      split; [done|]. split; [|done].
      constructor; [|done]. exists j. auto.
    + injection Hrun as <- <-. exists [EvDone c (i + j)].
      split; [done|]. split; [|done].
      constructor; [|done]. exists j. auto.
Qed.

Lemma gather_loop_ok (c : corpus) (i : nat) (vals : list str) (order : list nat) :
  ∀ slots s, length slots = length vals →
    ∃ slots' t,
      gather_loop c i (Ok <$> vals) order slots s = (Ok slots', add_trace s t)
      ∧ length slots' = length vals
      ∧ ∀ k, slots' !! k
             = if decide (k ∈ order) then Some <$> vals !! k else slots !! k.
Proof.
  induction order as [|j order IH]; intros slots s Hlen; simpl.
  - exists slots, []. rewrite add_trace_nil. split; [done|]. split; [done|].
    intros k. destruct (decide (k ∈ [])) as [Hk|]; [|done]. by apply elem_of_nil in Hk.
  - rewrite list_lookup_fmap.
    destruct (vals !! j) as [v|] eqn:Hj; simpl.
    + apply lookup_lt_Some in Hj as Hlt.
      unfold bind, emit, lift. simpl.
      destruct (IH (<[j := Some v]> slots) (add_trace s [EvDone c (i + j)]))
        as (slots' & t & Hrun & Hlen' & Hlook).
      { by rewrite length_insert. }
      exists slots', (EvDone c (i + j) :: t).
      rewrite Hrun, add_trace_app. split; [done|]. split; [done|].
      intros k. rewrite Hlook.
      destruct (decide (k = j)) as [->|Hne].
      * rewrite Hj. simpl.
        destruct (decide (j ∈ j :: order)) as [_|Hnin]; [|set_solver].
        destruct (decide (j ∈ order)); [done|].
        apply list_lookup_insert_eq. lia.
      * rewrite list_lookup_insert_ne by done.
        destruct (decide (k ∈ order)) as [Hin|Hnin],
          (decide (k ∈ j :: order)) as [Hin'|Hnin'];
          [ done
          | destruct Hnin'; apply elem_of_cons; by right
          | apply elem_of_cons in Hin' as [?|?]; done
          | done ].
    + apply lookup_ge_None in Hj as Hge.
      destruct (IH slots s Hlen) as (slots' & t & Hrun & Hlen' & Hlook).
      exists slots', t. split; [done|]. split; [done|].
      intros k. rewrite Hlook.
      destruct (decide (k = j)) as [->|Hne].
      * destruct (decide (j ∈ j :: order)) as [_|Hnin]; [|set_solver].
        destruct (decide (j ∈ order)); [done|].
        rewrite (proj2 (lookup_ge_None vals j)) by lia. simpl.
        apply lookup_ge_None. lia.
      * destruct (decide (k ∈ order)) as [Hin|Hnin],
          (decide (k ∈ j :: order)) as [Hin'|Hnin'];
          [ done
          | destruct Hnin'; apply elem_of_cons; by right
          | apply elem_of_cons in Hin' as [?|?]; done
          | done ].
Qed.

(** When every call succeeds and completes, the await returns the values
    in the order of the calls, whatever the order of completion. *)
Lemma gather_ok (c : corpus) (i : nat) (vals : list str) (order : list nat) s :
  completes order (length vals) →
  ∃ t, gather c i (Ok <$> vals) order s = (Ok vals, add_trace s t)
       ∧ Forall (call_event c i (length vals)) t.
Proof.
  intros Hall. unfold gather.
  set (starts := imap (λ j _, EvStart c (i + j)) (Ok <$> vals)).
  unfold bind at 1. unfold emit.
  destruct (gather_loop_ok c i vals order
              (replicate (length (Ok (A:=str) <$> vals)) None) (add_trace s starts))
    as (slots' & t & Hrun & Hlen & Hlook).
  { by rewrite length_replicate, length_fmap. }
  pose proof (gather_loop_frame _ _ _ _ _ _ _ _ Hrun) as (t' & Heq & Ht' & _).
  rewrite (bind_ok _ _ _ _ _ Hrun).
  assert (Hslots : slots' = Some <$> vals).
  { apply list_eq. intros k. rewrite Hlook, list_lookup_fmap.
    destruct (decide (k ∈ order)) as [|Hnin]; [done|].
    destruct (decide (k < length vals)) as [Hlt|Hge].
    - destruct Hnin. by apply Hall.
    - rewrite (proj2 (lookup_ge_None vals k)) by lia. simpl.
      apply lookup_ge_None. rewrite length_replicate, length_fmap. lia. }
  rewrite Hslots, mapM_fmap_Some by done.
  exists (starts ++ t). rewrite <- add_trace_app. split; [done|].
  apply Forall_app. split.
  - apply Forall_forall. intros e He. subst starts.
    apply list_elem_of_lookup in He as [k Hk].
    rewrite list_lookup_imap in Hk.
    destruct ((Ok <$> vals) !! k) eqn:Hv; [|done].
    apply lookup_lt_Some in Hv. rewrite length_fmap in Hv.
    injection Hk as <-. exists k. auto.
  - rewrite Heq in Hrun. rewrite length_fmap in Ht'.
    assert (t = t') as ->; [|done].
    assert (Htr : trace (add_trace (add_trace s starts) t)
                  = trace (add_trace (add_trace s starts) t')) by by rewrite <- Heq.
    simpl in Htr. by apply app_inv_head in Htr.
Qed.

Lemma gather_frame (c : corpus) (i : nat) (outs : list (result str))
    (order : list nat) s r s' :
  gather c i outs order s = (r, s') →
  ∃ t, s' = add_trace s t
       ∧ Forall (call_event c i (length outs)) t
       ∧ (∀ embs, r = Ok embs → length embs = length outs).
Proof.
  unfold gather. unfold bind at 1. unfold emit.
  set (starts := imap (λ j _, EvStart c (i + j)) outs).
  assert (Hstarts : Forall (call_event c i (length outs)) starts).
  { apply Forall_forall. intros e He. subst starts.
    apply list_elem_of_lookup in He as [k Hk].
    rewrite list_lookup_imap in Hk.
    destruct (outs !! k) eqn:Hv; [|done].
    apply lookup_lt_Some in Hv. injection Hk as <-. exists k. auto. }
  unfold bind.
  destruct (gather_loop c i outs order _ (add_trace s starts))
    as [[slots'|e|] s1] eqn:Hloop;
    apply gather_loop_frame in Hloop as (t & -> & Ht & Hlen).
  - specialize (Hlen slots' eq_refl). rewrite length_replicate in Hlen.
    destruct (mapM id slots') as [embs|] eqn:Hm; unfold ret, lift;
      intros [= <- <-]; exists (starts ++ t); rewrite add_trace_app;
      (split; [done|]); (split; [by apply Forall_app|]); [|done].
    intros ? [= <-]. apply mapM_Some, Forall2_length in Hm. lia.
  - intros [= <- <-]. exists (starts ++ t). rewrite add_trace_app.
    split; [done|]. split; [by apply Forall_app|done].
  - intros [= <- <-]. exists (starts ++ t). rewrite add_trace_app.
    split; [done|]. split; [by apply Forall_app|done].
Qed.

Lemma gather_loop_raise (c : corpus) (i : nat) (outs : list (result str))
    (order : list nat) (e0 : exn) (j0 : nat) :
  (∀ j r, outs !! j = Some r → (∃ v, r = Ok v) ∨ r = Raise e0) →
  j0 ∈ order → outs !! j0 = Some (Raise e0) →
  ∀ slots s, ∃ s', gather_loop c i outs order slots s = (Raise e0, s').
Proof.
  intros Hall Hin Hj0. induction order as [|j order IH]; intros slots s.
  - by apply elem_of_nil in Hin.
  - simpl. destruct (outs !! j) as [r|] eqn:Hj.
    + unfold bind, emit, lift. simpl.
      destruct (Hall j r Hj) as [[v ->]| ->]; [|eauto].
      apply IH. apply elem_of_cons in Hin as [->|Hin]; [congruence|done].
    + apply IH. apply elem_of_cons in Hin as [->|Hin]; [congruence|done].
Qed.

(** When a call of the wave fails, the await raises its exception. *)
Lemma gather_raise (c : corpus) (i : nat) (outs : list (result str))
    (order : list nat) (e0 : exn) (j0 : nat) s :
  (∀ j r, outs !! j = Some r → (∃ v, r = Ok v) ∨ r = Raise e0) →
  j0 ∈ order → outs !! j0 = Some (Raise e0) →
  ∃ t, gather c i outs order s = (Raise e0, add_trace s t)
       ∧ Forall (call_event c i (length outs)) t.
Proof.
  intros Hall Hin Hj0.
  destruct (gather c i outs order s) as [r s'] eqn:Hrun.
  pose proof (gather_frame _ _ _ _ _ _ _ Hrun) as (t & -> & Ht & _).
  exists t. split; [|done]. f_equal.
  unfold gather in Hrun. unfold bind at 1 in Hrun. unfold emit in Hrun.
  destruct (gather_loop_raise c i outs order e0 j0 Hall Hin Hj0
              (replicate (length outs) None)
              (add_trace s (imap (λ j _, EvStart c (i + j)) outs)))
    as [s1 Hloop].
  rewrite (bind_raise _ _ _ _ _ Hloop) in Hrun. congruence.
Qed.

(** ** Inserting the rows of a wave *)

Lemma execute_insert_run (c : corpus) (p : nat) (r : row) s :
  execute_insert c p r s
  = match bind_row r with
    | Ok _ => (Ok tt, {| db_file := db_file s; pending := pending s ++ [r];
                         trace := trace s ++ [EvInsert c p] |})
    | Raise e => (Raise e, s)
    | NoFuel => (NoFuel, s)
    end.
Proof. unfold execute_insert, bind, lift. by destruct (bind_row r). Qed.

Lemma insert_rows_frame (c : corpus) (make_row : segment → str → result row)
    (pairs : list (segment * str)) :
  ∀ p s r s',
    insert_rows c make_row p pairs s = (r, s') →
    ∃ k rows,
      k ≤ length pairs
      ∧ s' = {| db_file := db_file s; pending := pending s ++ rows;
                trace := trace s ++ (EvInsert c <$> seq p k) |}
      ∧ (r = Ok tt → k = length pairs).
Proof.
  induction pairs as [|[seg emb] pairs IH]; intros p s r s' Hrun; simpl in Hrun.
  - injection Hrun as <- <-. exists 0, []. simpl. rewrite !app_nil_r.
    split; [lia|]. split; [by destruct s|done].
  - unfold bind at 1 in Hrun. unfold lift in Hrun.
    destruct (make_row seg emb) as [row|e|].
    + unfold bind in Hrun. rewrite execute_insert_run in Hrun.
      destruct (bind_row row) as [[]|e|].
      * apply IH in Hrun as (k & rows & Hk & -> & Hok). simpl.
        exists (S k), (row :: rows). split; [simpl; lia|]. split.
        -- simpl. by rewrite <- !app_assoc.
        -- intros Hr. simpl. by rewrite Hok.
      * injection Hrun as <- <-. exists 0, []. simpl. rewrite !app_nil_r.
        split; [lia|]. split; [by destruct s|done].
      * injection Hrun as <- <-. exists 0, []. simpl. rewrite !app_nil_r.
        split; [lia|]. split; [by destruct s|done].
    + injection Hrun as <- <-. exists 0, []. simpl. rewrite !app_nil_r.
      split; [lia|]. split; [by destruct s|done].
    + injection Hrun as <- <-. exists 0, []. simpl. rewrite !app_nil_r.
      split; [lia|]. split; [by destruct s|done].
Qed.

Lemma insert_rows_ok (c : corpus) (make_row : segment → str → result row)
    (pairs : list (segment * str)) (rows : list row) :
  Forall2 (λ pr row, make_row pr.1 pr.2 = Ok row ∧ bind_row row = Ok tt)
    pairs rows →
  ∀ p s,
    insert_rows c make_row p pairs s
    = (Ok tt, {| db_file := db_file s; pending := pending s ++ rows;
                 trace := trace s ++ (EvInsert c <$> seq p (length pairs)) |}).
Proof.
  induction 1 as [|[seg emb] row pairs rows [Hrow Hbind] _ IH]; intros p s; simpl.
  - rewrite !app_nil_r. by destruct s.
  - unfold bind at 1. unfold lift. simpl in *. rewrite Hrow.
    unfold bind. rewrite execute_insert_run, Hbind.
    rewrite IH. simpl. by rewrite <- !app_assoc.
Qed.

(** ** One wave *)

Section Waves.
Variable env : environment.
Variable c : corpus.
Variable make_row : segment → str → result row.
Variable limit : nat.
Variable to_insert : list segment.
Hypothesis limit_pos : 0 < limit.

Local Abbreviation batch_at i := (take limit (drop i to_insert)).
Local Abbreviation total := (length to_insert).

Lemma length_batch (i : nat) : length (batch_at i) = min limit (total - i).
Proof. by rewrite length_take, length_drop. Qed.

Lemma lookup_batch (i k : nat) (seg : segment) :
  batch_at i !! k = Some seg ↔ k < limit ∧ to_insert !! (i + k) = Some seg.
Proof. rewrite lookup_take_Some, lookup_drop. tauto. Qed.

Section Success.
Variable emb : nat → str.
Variable rowf : nat → row.

Local Abbreviation ok := (call_succeeds env c make_row to_insert emb rowf).

Lemma task_outcomes_ok (i : nat) :
  (∀ p, i ≤ p < i + limit → ok p) →
  task_outcomes env c i (batch_at i)
  = Ok <$> (emb <$> seq i (length (batch_at i))).
Proof.
  intros Hok. apply list_eq. intros k. unfold task_outcomes.
  rewrite list_lookup_imap, !list_lookup_fmap.
  destruct (batch_at i !! k) as [seg|] eqn:Hk; simpl.
  - apply lookup_lt_Some in Hk as Hlt.
    rewrite lookup_seq_lt by done. simpl.
    apply lookup_batch in Hk as [Hkl Hk].
    by destruct (Hok (i + k) ltac:(lia) seg Hk) as [-> _].
  - apply lookup_ge_None in Hk. by rewrite lookup_seq_ge.
Qed.

Lemma rows_ok (i : nat) :
  (∀ p, i ≤ p < i + limit → ok p) →
  Forall2 (λ pr row, make_row pr.1 pr.2 = Ok row ∧ bind_row row = Ok tt)
    (zip (batch_at i) (emb <$> seq i (length (batch_at i))))
    (rowf <$> seq i (length (batch_at i))).
Proof.
  intros Hok. apply Forall2_same_length_lookup_2.
  - rewrite length_zip, !length_fmap, length_seq. lia.
  - intros k [seg e] row Hz Hrow.
    apply lookup_zip_Some in Hz as [Hseg He].
    rewrite list_lookup_fmap in He. rewrite list_lookup_fmap in Hrow.
    apply lookup_lt_Some in Hseg as Hlt.
    rewrite lookup_seq_lt in He by done.
    rewrite lookup_seq_lt in Hrow by done.
    injection He as <-. injection Hrow as <-. simpl.
    apply lookup_batch in Hseg as [Hkl Hseg].
    by destruct (Hok (i + k) ltac:(lia) seg Hseg) as (_ & -> & ->).
Qed.

(** A wave whose calls all succeed returns with its rows committed. *)
Lemma wave_ok (i : nat) s :
  (∀ p, i ≤ p < i + limit → ok p) →
  completes (completion env c i) (Nat.min limit (total - i)) →
  ∃ tw,
    wave env c make_row limit to_insert i s
    = (Ok tt,
       {| db_file := add_rows (pending s ++ (rowf <$> seq i (length (batch_at i))))
                       <$> db_file s;
          pending := [];
          trace := trace s ++ tw |})
    ∧ wave_trace c i (length (batch_at i)) tw.
Proof.
  intros Hok Hall. unfold wave. rewrite py_slice_batch.
  rewrite task_outcomes_ok by done.
  destruct (gather_ok c i (emb <$> seq i (length (batch_at i)))
              (completion env c i) s) as (t & Hg & Ht).
  { by rewrite length_fmap, length_seq, length_batch. }
  rewrite (bind_ok _ _ _ _ _ Hg).
  rewrite (bind_ok _ _ _ _ _ (insert_rows_ok c make_row _ _ (rows_ok i Hok) i _)).
  unfold commit. simpl.
  rewrite length_fmap, length_seq in Ht.
  eexists. split.
  - by rewrite <- !app_assoc.
  - exists t. split; [|done].
    rewrite length_zip, length_fmap, length_seq, Nat.min_id. done.
Qed.
End Success.

(** A wave with a call that uses up its attempts raises before any
    row is inserted. *)
Lemma wave_raise (i p : nat) s :
  i ≤ p < i + limit →
  call_fails env c to_insert p →
  completes (completion env c i) (Nat.min limit (total - i)) →
  ∃ t, wave env c make_row limit to_insert i s
       = (Raise RETRIES_EXHAUSTED, add_trace s t)
       ∧ Forall (call_event c i (length (batch_at i))) t.
Proof.
  intros Hp (seg & Hseg & Hfail) Hall. unfold wave. rewrite py_slice_batch.
  destruct (gather_raise c i (task_outcomes env c i (batch_at i))
              (completion env c i) RETRIES_EXHAUSTED (p - i) s)
    as (t & Hg & Ht).
  - intros j r Hj. unfold task_outcomes in Hj.
    rewrite list_lookup_imap in Hj.
    destruct (batch_at i !! j) as [sg|]; [|done]. injection Hj as <-.
    apply get_embedding_outcome.
  - apply Hall. apply lookup_lt_Some in Hseg. lia.
  - unfold task_outcomes. rewrite list_lookup_imap.
    rewrite (proj2 (lookup_batch i (p - i) seg)).
    + simpl. f_equal. replace (i + (p - i)) with p by lia. done.
    + split; [lia|]. by replace (i + (p - i)) with p by lia.
  - rewrite (bind_raise _ _ _ _ _ Hg). exists t. split; [done|].
    unfold task_outcomes in Ht. by rewrite length_imap in Ht.
Qed.

(** *** The loop over the offsets *)

Lemma add_rows_nil (db : database) : add_rows [] db = db.
Proof. destruct db. unfold add_rows. simpl. by rewrite !app_nil_r. Qed.

Lemma add_rows_app (rows1 rows2 : list row) (db : database) :
  add_rows rows2 (add_rows rows1 db) = add_rows (rows1 ++ rows2) db.
Proof. unfold add_rows. simpl. by rewrite !omap_app, !app_assoc. Qed.

Lemma seq_split_wave (i : nat) :
  seq i (total - i)
  = seq i (length (batch_at i)) ++ seq (i + limit) (total - (i + limit)).
Proof.
  rewrite length_batch.
  destruct (decide (limit ≤ total - i)).
  - rewrite Nat.min_l by lia.
    replace (total - i) with (limit + (total - (i + limit))) at 1 by lia.
    apply seq_app.
  - rewrite Nat.min_r by lia.
    replace (total - (i + limit)) with 0 by lia. simpl. by rewrite app_nil_r.
Qed.

Local Abbreviation loop fuel i :=
  (for_each (range_from fuel i total limit)
     (wave env c make_row limit to_insert)).

Lemma loop_ok (emb : nat → str) (rowf : nat → row) (fuel : nat) :
  ∀ i s,
    total - i ≤ fuel →
    pending s = [] →
    (∀ p, i ≤ p → call_succeeds env c make_row to_insert emb rowf p) →
    every_call_completes env c limit total →
    ∃ traces,
      loop fuel i s
      = (Ok tt,
         {| db_file := add_rows (rowf <$> seq i (total - i)) <$> db_file s;
            pending := [];
            trace := trace s ++ concat traces |})
      ∧ Forall2 (λ j tw, wave_trace c j (length (batch_at j)) tw)
          (range_from fuel i total limit) traces.
Proof.
  induction fuel as [|fuel IH]; intros i s Hfuel Hpend Hok Hall.
  - exists []. simpl. replace (total - i) with 0 by lia. simpl.
    split; [|constructor]. unfold ret. f_equal.
    destruct s as [db pend tr]. simpl in *. subst pend.
    rewrite app_nil_r. f_equal.
    destruct db; simpl; [|done]. by rewrite add_rows_nil.
  - simpl. destruct (Nat.ltb_spec i total) as [Hlt|Hge].
    + destruct (wave_ok emb rowf i s) as (tw & Hw & Htw); [intros; apply Hok; lia|done|].
      cbn [for_each]. rewrite (bind_ok _ _ _ _ _ Hw).
      destruct (IH (i + limit)
                  {| db_file := add_rows (pending s ++ (rowf <$> seq i (length (batch_at i))))
                                  <$> db_file s;
                     pending := [];
                     trace := trace s ++ tw |})
        as (traces & Hrun & Htraces); [lia|done|intros; apply Hok; lia|done|].
      exists (tw :: traces). split; [|by constructor].
      rewrite Hrun. simpl. rewrite Hpend. simpl.
      rewrite <- app_assoc. f_equal. f_equal.
      rewrite (seq_split_wave i), fmap_app.
      destruct (db_file s); simpl; [|done]. by rewrite add_rows_app.
    + exists []. simpl. replace (total - i) with 0 by lia. simpl.
      split; [|constructor]. unfold ret. f_equal.
      destruct s as [db pend tr]. simpl in *. subst pend.
      rewrite app_nil_r. f_equal.
      destruct db; simpl; [|done]. by rewrite add_rows_nil.
Qed.

(** *** What any wave and any run of the loop look like *)

Lemma call_event_wave_event (i n : nat) (e : event) :
  call_event c i n e → wave_event c e.
Proof. by intros (j & _ & [-> | ->]). Qed.

Lemma wave_trace_events (i n : nat) (tw : list event) :
  wave_trace c i n tw → Forall (wave_event c) tw.
Proof.
  intros (calls & -> & Hcalls). rewrite !Forall_app. repeat split.
  - eapply Forall_impl; [done|]. apply call_event_wave_event.
  - apply Forall_fmap, Forall_forall. by intros.
  - by repeat constructor.
Qed.

Lemma wave_frame (i : nat) s r s' :
  wave env c make_row limit to_insert i s = (r, s') →
  ∃ tw, trace s' = trace s ++ tw
        ∧ Forall (wave_event c) tw
        ∧ (∀ p, EvStart c p ∈ tw → i ≤ p < i + limit)
        ∧ (r = Ok tt → wave_trace c i (length (batch_at i)) tw).
Proof.
  unfold wave. rewrite py_slice_batch. unfold bind at 1.
  destruct (gather c i _ (completion env c i) s) as [rg s1] eqn:Hg.
  apply gather_frame in Hg as (t1 & -> & Ht1 & Hlen).
  unfold task_outcomes in Ht1, Hlen. rewrite length_imap in Ht1, Hlen.
  assert (Hstart1 : ∀ p, EvStart c p ∈ t1 → i ≤ p < i + limit).
  { intros p Hp. rewrite Forall_forall in Ht1.
    destruct (Ht1 _ Hp) as (j & Hj & [Heq|Heq]); [|done].
    injection Heq as ->. rewrite length_batch in Hj. lia. }
  assert (Hev1 : Forall (wave_event c) t1).
  { eapply Forall_impl; [done|]. apply call_event_wave_event. }
  destruct rg as [embs|e|].
  - specialize (Hlen embs eq_refl). unfold bind.
    destruct (insert_rows c make_row i (zip (batch_at i) embs) (add_trace s t1))
      as [ri s2] eqn:Hi.
    apply insert_rows_frame in Hi as (k & rows & Hk & -> & Hok).
    rewrite length_zip, Hlen, Nat.min_id in Hk, Hok.
    assert (Hins : Forall (wave_event c) (EvInsert c <$> seq i k)).
    { apply Forall_fmap, Forall_forall. by intros. }
    assert (Hnostart : ∀ p, EvStart c p ∈ EvInsert c <$> seq i k → False).
    { intros p (x & Hx & _)%list_elem_of_fmap. done. }
    destruct ri as [[]|e|].
    + unfold commit. intros [= <- <-]. simpl.
      exists (t1 ++ (EvInsert c <$> seq i k) ++ [EvCommit c]).
      split; [by rewrite <- !app_assoc|].
      rewrite (Hok eq_refl). split; [|split].
      * rewrite !Forall_app. repeat split; try done.
        -- rewrite <- (Hok eq_refl). done.
        -- by repeat constructor.
      * intros p. rewrite !elem_of_app. intros [Hp|[Hp|Hp]].
        -- by apply Hstart1.
        -- rewrite <- (Hok eq_refl) in Hp. by destruct (Hnostart p).
        -- apply list_elem_of_singleton in Hp. done.
      * intros _. by exists t1.
    + intros [= <- <-]. simpl. exists (t1 ++ (EvInsert c <$> seq i k)).
      split; [by rewrite <- !app_assoc|]. split; [|split; [|done]].
      * by apply Forall_app.
      * intros p. rewrite elem_of_app. intros [Hp|Hp]; [by apply Hstart1|].
        by destruct (Hnostart p).
    + intros [= <- <-]. simpl. exists (t1 ++ (EvInsert c <$> seq i k)).
      split; [by rewrite <- !app_assoc|]. split; [|split; [|done]].
      * by apply Forall_app.
      * intros p. rewrite elem_of_app. intros [Hp|Hp]; [by apply Hstart1|].
        by destruct (Hnostart p).
  - intros [= <- <-]. by exists t1.
  - intros [= <- <-]. by exists t1.
Qed.

Lemma div_shift (n x : nat) : 0 < n → n ≤ x → x / n = S ((x - n) / n).
Proof.
  intros Hn Hx. replace x with ((x - n) + 1 * n) at 1 by lia.
  rewrite Nat.div_add by lia. lia.
Qed.

Lemma loop_frame (fuel : nat) :
  ∀ i s r s',
    loop fuel i s = (r, s') →
    ∃ t, trace s' = trace s ++ t
         ∧ Forall (wave_event c) t
         ∧ persisted_before_start c limit total i t.
Proof.
  induction fuel as [|fuel IH]; intros i s r s' Hrun.
  - simpl in Hrun. injection Hrun as <- <-. exists []. rewrite app_nil_r.
    split; [done|]. split; [done|]. by intros a p Ha.
  - simpl in Hrun. destruct (Nat.ltb_spec i total) as [Hlt|Hge].
    + cbn [for_each] in Hrun. unfold bind in Hrun.
      destruct (wave env c make_row limit to_insert i s) as [rw s1] eqn:Hw.
      apply wave_frame in Hw as (tw & Htr1 & Hev & Hstart & Hshape).
      assert (Hhere : ∀ a p, tw !! a = Some (EvStart c p) →
                i ≤ p ∧ ∀ q, i ≤ q → q < total →
                  (q - i) / limit < (p - i) / limit → False).
      { intros a p Ha. apply list_elem_of_lookup_2, Hstart in Ha.
        split; [lia|]. intros q _ _.
        rewrite (Nat.div_small (p - i)) by lia. lia. }
      destruct rw as [[]|e|].
      * apply IH in Hrun as (t' & Htr2 & Hev' & Hord).
        exists (tw ++ t'). split; [by rewrite Htr2, Htr1, <- app_assoc|].
        split; [by apply Forall_app|].
        destruct (Hshape eq_refl) as (calls & Htw & _).
        intros a p Ha. destruct (decide (a < length tw)) as [Ha1|Ha1].
        -- rewrite lookup_app_l in Ha by done.
           destruct (Hhere a p Ha) as [Hp Hno]. split; [done|].
           intros q Hq1 Hq2 Hq3. destruct (Hno q Hq1 Hq2 Hq3).
        -- rewrite lookup_app_r in Ha by lia.
           destruct (Hord _ _ Ha) as [Hp Hearlier]. split; [lia|].
           intros q Hq1 Hq2 Hq3.
           destruct (decide (q < i + limit)) as [Hq|Hq].
           ++ exists (length calls + (q - i)),
                     (length calls + length (batch_at i)).
              assert (Hn : q - i < length (batch_at i))
                by (rewrite length_batch; lia).
              assert (Hlen : length tw = length calls + length (batch_at i) + 1).
              { rewrite Htw, !length_app, length_fmap, length_seq. simpl. lia. }
              split; [lia|]. split.
              ** rewrite lookup_app_l by lia. rewrite Htw.
                 rewrite lookup_app_r by lia.
                 replace (length calls + (q - i) - length calls) with (q - i) by lia.
                 rewrite lookup_app_l by (rewrite length_fmap, length_seq; lia).
                 rewrite list_lookup_fmap, lookup_seq_lt by done. simpl.
                 do 2 f_equal. lia.
              ** rewrite lookup_app_l by lia. rewrite Htw.
                 rewrite lookup_app_r by lia.
                 rewrite lookup_app_r by (rewrite length_fmap, length_seq; lia).
                 rewrite length_fmap, length_seq.
                 replace (length calls + length (batch_at i) - length calls
                          - length (batch_at i)) with 0 by lia. done.
           ++ destruct (Hearlier q ltac:(lia) Hq2) as (b & d & Hbd & Hb & Hd).
              { rewrite (div_shift limit (q - i)) in Hq3 by lia.
                rewrite (div_shift limit (p - i)) in Hq3 by lia.
                replace (q - (i + limit)) with (q - i - limit) by lia.
                replace (p - (i + limit)) with (p - i - limit) by lia. lia. }
              exists (length tw + b), (length tw + d). split; [lia|].
              rewrite !lookup_app_r by lia.
              replace (length tw + b - length tw) with b by lia.
              replace (length tw + d - length tw) with d by lia. done.
      * injection Hrun as <- <-. exists tw. split; [done|]. split; [done|].
        intros a p Ha. destruct (Hhere a p Ha) as [Hp Hno]. split; [done|].
        intros q Hq1 Hq2 Hq3. destruct (Hno q Hq1 Hq2 Hq3).
      * injection Hrun as <- <-. exists tw. split; [done|]. split; [done|].
        intros a p Ha. destruct (Hhere a p Ha) as [Hp Hno]. split; [done|].
        intros q Hq1 Hq2 Hq3. destruct (Hno q Hq1 Hq2 Hq3).
    + simpl in Hrun. injection Hrun as <- <-. exists []. rewrite app_nil_r.
      split; [done|]. split; [done|]. by intros a p Ha.
Qed.

Lemma call_events_positions (i n : nat) (t : list event) (q : nat) :
  Forall (call_event c i n) t →
  (EvStart c q ∈ t → i ≤ q < i + n) ∧ EvInsert c q ∉ t.
Proof.
  rewrite Forall_forall. intros Ht. split.
  - intros Hq. destruct (Ht _ Hq) as (j & Hj & [Heq|Heq]); [|done].
    injection Heq as ->. lia.
  - intros Hq. by destruct (Ht _ Hq) as (j & Hj & [Heq|Heq]).
Qed.

Lemma wave_trace_positions (i n : nat) (tw : list event) (q : nat) :
  wave_trace c i n tw →
  (EvStart c q ∈ tw → i ≤ q < i + n) ∧ (EvInsert c q ∈ tw → i ≤ q < i + n).
Proof.
  intros (calls & -> & Hcalls).
  destruct (call_events_positions i n calls q Hcalls) as [Hs Hi].
  split; rewrite !elem_of_app; intros [H|[H|H]].
  - by apply Hs.
  - by apply list_elem_of_fmap in H as (x & Hx & _).
  - by apply list_elem_of_singleton in H.
  - by destruct Hi.
  - apply list_elem_of_fmap in H as (x & [= ->] & Hx).
    apply elem_of_seq in Hx. lia.
  - by apply list_elem_of_singleton in H.
Qed.

(** [k] waves succeed, then a call of the next wave uses up its
    attempts: the loop raises with the rows of the [k] waves on disk,
    no row of the failing wave is inserted and no later wave starts. *)
Lemma loop_raise (emb : nat → str) (rowf : nat → row) (k : nat) :
  ∀ fuel i s p0,
    total - i ≤ fuel →
    pending s = [] →
    (∀ p, i ≤ p < i + k * limit →
          call_succeeds env c make_row to_insert emb rowf p) →
    i + k * limit ≤ p0 < i + k * limit + limit →
    call_fails env c to_insert p0 →
    every_call_completes env c limit total →
    ∃ t,
      loop fuel i s
      = (Raise RETRIES_EXHAUSTED,
         {| db_file := add_rows (rowf <$> seq i (k * limit)) <$> db_file s;
            pending := [];
            trace := trace s ++ t |})
      ∧ Forall (wave_event c) t
      ∧ (∀ q, EvStart c q ∈ t → q < i + k * limit + limit)
      ∧ (∀ q, EvInsert c q ∈ t → q < i + k * limit).
Proof.
  induction k as [|k IH]; intros fuel i s p0 Hfuel Hpend Hok Hp0 Hfail Hall.
  - assert (Hlt : p0 < total).
    { destruct Hfail as (seg & Hseg & _). by apply lookup_lt_Some in Hseg. }
    destruct (range_from_cons fuel i total limit) as (fuel' & -> & _); [lia|lia|].
    destruct (wave_raise i p0 s) as (t & Hw & Ht); [lia|done|done|].
    cbn [for_each]. rewrite (bind_raise _ _ _ _ _ Hw).
    exists t. split; [|split; [|split]].
    + f_equal. unfold add_trace.
      destruct s as [db pend tr]; simpl in *. subst pend. f_equal.
      destruct db; simpl; [|done]. by rewrite add_rows_nil.
    + eapply Forall_impl; [done|]. apply call_event_wave_event.
    + intros q Hq.
      destruct (call_events_positions _ _ _ q Ht) as [Hs _].
      specialize (Hs Hq). rewrite length_batch in Hs. lia.
    + intros q Hq.
      by destruct (call_events_positions _ _ _ q Ht) as [_ Hi].
  - assert (Hlt : p0 < total).
    { destruct Hfail as (seg & Hseg & _). by apply lookup_lt_Some in Hseg. }
    simpl in Hok, Hp0.
    destruct (range_from_cons fuel i total limit) as (fuel' & -> & Hfuel');
      [lia|lia|].
    destruct (wave_ok emb rowf i s) as (tw & Hw & Htw);
      [intros; apply Hok; lia|done|].
    cbn [for_each]. rewrite (bind_ok _ _ _ _ _ Hw).
    destruct (IH fuel' (i + limit)
                {| db_file := add_rows (pending s ++ (rowf <$> seq i (length (batch_at i))))
                                <$> db_file s;
                   pending := [];
                   trace := trace s ++ tw |} p0)
      as (t & Hrun & Hev & Hstart & Hins);
      [lia|done|intros; apply Hok; lia|lia|done|done|].
    rewrite length_batch, Nat.min_l in Htw by lia.
    exists (tw ++ t). split; [|split; [|split]].
    + rewrite Hrun. simpl. rewrite Hpend. simpl.
      rewrite <- app_assoc. f_equal. f_equal.
      rewrite length_batch, Nat.min_l by lia.
      rewrite seq_app, fmap_app.
      destruct (db_file s); simpl; [|done]. by rewrite add_rows_app.
    + apply Forall_app. split; [by eapply wave_trace_events|done].
    + intros q [Hq|Hq]%elem_of_app.
      * destruct (wave_trace_positions _ _ _ q Htw) as [Hs _].
        specialize (Hs Hq). simpl. lia.
      * specialize (Hstart q Hq). simpl. lia.
    + intros q [Hq|Hq]%elem_of_app.
      * destruct (wave_trace_positions _ _ _ q Htw) as [_ Hi].
        specialize (Hi Hq). simpl. lia.
      * specialize (Hins q Hq). simpl. lia.
Qed.

End Waves.

(** ** The batch scheduler *)

(** C4. With a concurrency limit [limit > 0] and [M] pending segments
    whose calls all succeed and whose rows are built and bound by the
    [INSERT] without an exception, the loop runs exactly
    [ceil (M / limit)] waves, one after the other, each of at most
    [limit] calls, and the row stored for position [p] is the one built
    from segment [p] and from the value returned by the call made for
    segment [p], whatever the order in which the calls of a wave
    complete. *)
Theorem embed_and_store_waves (env : environment) (c : corpus)
    (make_row : segment → str → result row) (limit : nat)
    (to_insert : list segment) (emb : nat → str) (rowf : nat → row) s :
  0 < limit →
  pending s = [] →
  (∀ p, call_succeeds env c make_row to_insert emb rowf p) →
  every_call_completes env c limit (length to_insert) →
  ∃ offsets traces,
    py_range 0 (length to_insert) limit = Ok offsets
    ∧ Z.of_nat (length offsets)
      = ceil_div (Z.of_nat (length to_insert)) (Z.of_nat limit)
    ∧ Forall2 (λ i tw,
        let batch := py_slice to_insert (Z.of_nat i) (Z.of_nat (i + limit)) in
        length batch ≤ limit ∧ wave_trace c i (length batch) tw)
        offsets traces
    ∧ embed_and_store env c make_row limit to_insert s
      = (Ok tt,
         {| db_file := add_rows (rowf <$> seq 0 (length to_insert)) <$> db_file s;
            pending := [];
            trace := trace s ++ concat traces |}).
Proof.
  intros Hlimit Hpend Hok Hall.
  destruct (loop_ok env c make_row limit to_insert Hlimit emb rowf
              (length to_insert) 0 s) as (traces & Hrun & Hshape);
    [lia|done|by intros|done|].
  exists (range_from (length to_insert) 0 (length to_insert) limit), traces.
  assert (Hrange : py_range 0 (length to_insert) limit
                   = Ok (range_from (length to_insert) 0 (length to_insert) limit)).
  { unfold py_range. destruct (Nat.eqb_spec limit 0); [lia|done]. }
  split; [done|]. split; [|split].
  - rewrite length_range_from by lia. by rewrite Nat.sub_0_r.
  - eapply Forall2_impl; [done|]. intros i tw Htw. simpl.
    rewrite py_slice_batch. split; [|done].
    rewrite length_take. lia.
  - unfold embed_and_store. rewrite Hrange. unfold bind, lift.
    rewrite Hrun. by rewrite Nat.sub_0_r.
Qed.

Lemma embed_and_store_raise (env : environment) (c : corpus)
    (make_row : segment → str → result row) (limit : nat)
    (to_insert : list segment) (emb : nat → str) (rowf : nat → row)
    (k p0 : nat) s :
  0 < limit →
  pending s = [] →
  (∀ p, p < k * limit → call_succeeds env c make_row to_insert emb rowf p) →
  k * limit ≤ p0 < k * limit + limit →
  call_fails env c to_insert p0 →
  every_call_completes env c limit (length to_insert) →
  ∃ t,
    embed_and_store env c make_row limit to_insert s
    = (Raise RETRIES_EXHAUSTED,
       {| db_file := add_rows (rowf <$> seq 0 (k * limit)) <$> db_file s;
          pending := [];
          trace := trace s ++ t |})
    ∧ Forall (wave_event c) t
    ∧ (∀ q, EvStart c q ∈ t → q < k * limit + limit)
    ∧ (∀ q, EvInsert c q ∈ t → q < k * limit).
Proof.
  intros Hlimit Hpend Hok Hp0 Hfail Hall.
  destruct (loop_raise env c make_row limit to_insert Hlimit emb rowf k
              (length to_insert) 0 s p0)
    as (t & Hrun & Hev & Hstart & Hins);
    [lia|done|intros; apply Hok; lia|lia|done|done|].
  exists t. split; [|done].
  unfold embed_and_store, py_range.
  destruct (Nat.eqb_spec limit 0); [lia|]. unfold bind, lift.
  by rewrite Hrun.
Qed.

(** ** [main] *)

Lemma main_start (env : environment) (db : option database) :
  main env {| db_file := db; pending := []; trace := [] |}
  = bind (process_discourse env)
      (λ _, bind (process_markdown env) (λ _, ret tt))
      {| db_file := Some empty_database; pending := [];
         trace := startup_events db |}.
Proof. unfold main, bind, remove_existing, connect_and_create. by destruct db. Qed.

Lemma run_with_key (env : environment) (db : option database) (key : str) :
  api_key env = Some key → key ≠ [] →
  run env db
  = let '(r, s) := main env {| db_file := db; pending := []; trace := [] |} in
    (r, db_file s, trace s).
Proof.
  intros Hkey Hne. unfold run, script. rewrite Hkey. by destruct key.
Qed.

(** C5. When the calls of the first [k] waves of the forum corpus
    succeed, with rows that the [INSERT] builds and binds without an
    exception, and a call of the next wave uses up its attempts, the
    failure leaves the wave loop, [process_discourse] and [main] as an
    exception; no row of the failing wave is inserted, no later wave
    starts, the page corpus is never read, and the store file keeps
    exactly the rows of the [k] committed waves. *)
Theorem exhausted_retries_halt_run (env : environment) (db : option database)
    (key : str) (posts : list dict) (to_insert : list segment)
    (emb : nat → str) (rowf : nat → row) (k p0 : nat) :
  api_key env = Some key → key ≠ [] →
  discourse_json env = Some (Parsed posts) →
  discourse_segments posts = Ok to_insert →
  (∀ p, p < k * CONCURRENT_REQUESTS →
        call_succeeds env Forum discourse_row_of to_insert emb rowf p) →
  k * CONCURRENT_REQUESTS ≤ p0 < k * CONCURRENT_REQUESTS + CONCURRENT_REQUESTS →
  call_fails env Forum to_insert p0 →
  every_call_completes env Forum CONCURRENT_REQUESTS (length to_insert) →
  ∃ t,
    run env db
    = (Raise RETRIES_EXHAUSTED,
       Some (add_rows (rowf <$> seq 0 (k * CONCURRENT_REQUESTS)) empty_database),
       startup_events db ++ EvRead DiscourseJson :: t)
    ∧ Forall (wave_event Forum) t
    ∧ (∀ q, EvStart Forum q ∈ t → q < k * CONCURRENT_REQUESTS + CONCURRENT_REQUESTS)
    ∧ (∀ q, EvInsert Forum q ∈ t → q < k * CONCURRENT_REQUESTS).
Proof.
  intros Hkey Hne Hposts Hsegs Hok Hp0 Hfail Hall.
  rewrite (run_with_key env db key Hkey Hne), main_start.
  destruct (embed_and_store_raise env Forum discourse_row_of CONCURRENT_REQUESTS
              to_insert emb rowf k p0
              (add_trace {| db_file := Some empty_database; pending := [];
                            trace := startup_events db |} [EvRead DiscourseJson]))
    as (t & Hrun & Hev & Hstart & Hins);
    [unfold CONCURRENT_REQUESTS; lia|done|done|done|done|done|].
  exists t. split; [|done].
  assert (Hpd : process_discourse env
                  {| db_file := Some empty_database; pending := [];
                     trace := startup_events db |}
                = embed_and_store env Forum discourse_row_of CONCURRENT_REQUESTS
                    to_insert
                    (add_trace {| db_file := Some empty_database; pending := [];
                                  trace := startup_events db |} [EvRead DiscourseJson])).
  { unfold process_discourse. rewrite Hposts. unfold bind at 1. unfold emit.
    unfold bind at 1. unfold lift. by rewrite Hsegs. }
  rewrite Hrun in Hpd. rewrite (bind_raise _ _ _ _ _ Hpd). simpl.
  by rewrite <- app_assoc.
Qed.

(** C9. Without [API_KEY] in the environment the module body raises
    before [main] runs: nothing is read, no embedding call is made, and
    the store file is left as it was (in particular it is not removed). *)
Theorem missing_credential_aborts (env : environment) (db : option database) :
  api_key env = None →
  run env db = (Raise API_KEY_MISSING, db, []).
Proof. intros Hkey. unfold run, script. by rewrite Hkey. Qed.

Lemma empty_credential_aborts (env : environment) (db : option database) :
  api_key env = Some [] →
  run env db = (Raise API_KEY_MISSING, db, []).
Proof. intros Hkey. unfold run, script. by rewrite Hkey. Qed.

(** ** Documents with a missing field or a missing file *)

Lemma discourse_segments_missing_content (posts1 posts2 : list dict)
    (post : dict) (segs1 : list segment) :
  post !! "content" = None →
  discourse_segments posts1 = Ok segs1 →
  discourse_segments (posts1 ++ post :: posts2) = Raise (KeyError "content").
Proof.
  intros Hmiss. revert segs1.
  induction posts1 as [|p ps IH]; intros segs1 Hok; simpl in *.
  - unfold getitem. by rewrite Hmiss.
  - destruct (getitem p "content") as [v| |]; simpl in *; try done.
    destruct (chunk_value v) as [chunks| |]; simpl in *; try done.
    destruct (discourse_segments ps) as [rest| |]; simpl in *; try done.
    by rewrite (IH rest).
Qed.

(** ** The theorems on the example inputs *)

Lemma example_segments_built :
  discourse_segments example_posts = Ok example_segments.
Proof. vm_compute. reflexivity. Qed.

Lemma example_completes (c : corpus) (total : nat) :
  every_call_completes example_env c CONCURRENT_REQUESTS total.
Proof.
  intros i j Hj. unfold CONCURRENT_REQUESTS in Hj. simpl.
  destruct j as [|[|[|[|j]]]]; [| | | |lia]; set_solver.
Qed.

Lemma example_calls_succeed (p : nat) :
  call_succeeds example_env Forum discourse_row_of example_segments
    example_emb example_row p.
Proof.
  intros seg Hseg.
  destruct p as [|[|[|[|[|p]]]]]; [| | | | |done];
    injection Hseg as <-; repeat split; vm_compute; reflexivity.
Qed.

Lemma embed_and_store_waves_witness :
  ∃ offsets traces,
    py_range 0 (length example_segments) CONCURRENT_REQUESTS = Ok offsets
    ∧ Z.of_nat (length offsets) = ceil_div 5 4
    ∧ Forall2 (λ i tw,
        let batch := py_slice example_segments (Z.of_nat i)
                       (Z.of_nat (i + CONCURRENT_REQUESTS)) in
        length batch ≤ CONCURRENT_REQUESTS
        ∧ wave_trace Forum i (length batch) tw)
        offsets traces
    ∧ embed_and_store example_env Forum discourse_row_of CONCURRENT_REQUESTS
        example_segments
        {| db_file := Some empty_database; pending := []; trace := [] |}
      = (Ok tt,
         {| db_file := add_rows (example_row <$> seq 0 (length example_segments))
                         <$> Some empty_database;
            pending := [];
            trace := [] ++ concat traces |}).
Proof.
  apply (embed_and_store_waves example_env Forum discourse_row_of
           CONCURRENT_REQUESTS example_segments example_emb example_row
           {| db_file := Some empty_database; pending := []; trace := [] |}).
  - unfold CONCURRENT_REQUESTS. lia.
  - reflexivity.
  - apply example_calls_succeed.
  - apply example_completes.
Defined.

Lemma failing_calls_succeed (p : nat) :
  p < 1 * CONCURRENT_REQUESTS →
  call_succeeds failing_env Forum discourse_row_of example_segments
    example_emb example_row p.
Proof.
  unfold CONCURRENT_REQUESTS. intros Hp seg Hseg.
  destruct p as [|[|[|[|p]]]]; [| | | |lia];
    injection Hseg as <-; repeat split; vm_compute; reflexivity.
Qed.

Lemma failing_call_fails : call_fails failing_env Forum example_segments 4.
Proof.
  exists (example_post 5 [101]%N, 0, [101]%N). split; [reflexivity|].
  vm_compute. reflexivity.
Qed.

Lemma exhausted_retries_halt_run_witness :
  ∃ t,
    run failing_env (Some old_store)
    = (Raise RETRIES_EXHAUSTED,
       Some (add_rows (example_row <$> seq 0 (1 * CONCURRENT_REQUESTS)) empty_database),
       startup_events (Some old_store) ++ EvRead DiscourseJson :: t)
    ∧ Forall (wave_event Forum) t
    ∧ (∀ q, EvStart Forum q ∈ t → q < 1 * CONCURRENT_REQUESTS + CONCURRENT_REQUESTS)
    ∧ (∀ q, EvInsert Forum q ∈ t → q < 1 * CONCURRENT_REQUESTS).
Proof.
  apply (exhausted_retries_halt_run failing_env (Some old_store) [107]%N
           example_posts example_segments example_emb example_row 1 4).
  - reflexivity.
  - discriminate.
  - reflexivity.
  - apply example_segments_built.
  - apply failing_calls_succeed.
  - unfold CONCURRENT_REQUESTS. lia.
  - apply failing_call_fails.
  - apply (example_completes Forum).
Defined.

(** The run of the failing example, evaluated: four rows stay in the
    store, the fifth segment is never inserted, the page corpus is
    never read. *)
Example failing_run :
  run failing_env (Some old_store)
  = (Raise RETRIES_EXHAUSTED,
     Some (add_rows (example_row <$> [0; 1; 2; 3]) empty_database),
     [EvRemoveDb; EvConnect; EvRead DiscourseJson;
      EvStart Forum 0; EvStart Forum 1; EvStart Forum 2; EvStart Forum 3;
      EvDone Forum 3; EvDone Forum 1; EvDone Forum 0; EvDone Forum 2;
      EvInsert Forum 0; EvInsert Forum 1; EvInsert Forum 2; EvInsert Forum 3;
      EvCommit Forum;
      EvStart Forum 4; EvDone Forum 4]).
Proof. vm_compute. reflexivity. Qed.

(** The run of the example where every call succeeds: two forum waves,
    then the page corpus, where the entry whose file is missing is
    skipped and the front matter of the other is removed. *)
Example successful_run :
  run example_env None
  = (Ok tt,
     Some {| discourse_chunks :=
               omap (λ r, match r with DiscourseRow d => Some d | _ => None end)
                 (example_row <$> [0; 1; 2; 3; 4]);
             markdown_chunks :=
               [ {| m_doc_title := VStr [84]%N; m_original_url := VStr [47]%N;
                    m_downloaded_at := VStr [50]%N; m_chunk_index := 0;
                    m_content := [104; 105]%N;
                    m_embedding := [104; 105; 0]%N |} ] |},
     [EvConnect; EvRead DiscourseJson;
      EvStart Forum 0; EvStart Forum 1; EvStart Forum 2; EvStart Forum 3;
      EvDone Forum 3; EvDone Forum 1; EvDone Forum 0; EvDone Forum 2;
      EvInsert Forum 0; EvInsert Forum 1; EvInsert Forum 2; EvInsert Forum 3;
      EvCommit Forum;
      EvStart Forum 4; EvDone Forum 4; EvInsert Forum 4; EvCommit Forum;
      EvRead MetadataJson; EvRead (MarkdownFile [121]%N);
      EvStart Pages 0; EvDone Pages 0; EvInsert Pages 0; EvCommit Pages]).
Proof. vm_compute. reflexivity. Qed.


Lemma missing_credential_aborts_witness :
  run no_key_env (Some old_store) = (Raise API_KEY_MISSING, Some old_store, []).
Proof.
  apply (missing_credential_aborts no_key_env (Some old_store)). reflexivity.
Defined.

(** With the credential present the same inputs make [main] remove the
    old store file. *)
Example credential_present_run :
  (run example_env (Some old_store)).1.2 ≠ Some old_store
  ∧ take 2 (run example_env (Some old_store)).2 = [EvRemoveDb; EvConnect].
Proof. split; vm_compute; [discriminate|reflexivity]. Qed.

(** *** The chunker and the client on the scenarios of the specification *)

Example chunk_text_1200 :
  fmap (M:=result) (fmap length)
    (chunk_text 1200 (replicate 1200 97%N) CHUNK_SIZE CHUNK_OVERLAP)
  = Ok [500; 500; 400].
Proof. vm_compute. reflexivity. Qed.

Example chunk_text_50 :
  fmap (M:=result) (fmap length)
    (chunk_text 50 (replicate 50 97%N) CHUNK_SIZE CHUNK_OVERLAP)
  = Ok [50].
Proof. vm_compute. reflexivity. Qed.

Example chunk_text_blank :
  chunk_text 0 [] CHUNK_SIZE CHUNK_OVERLAP = Ok []
  ∧ chunk_text 3 [32; 10; 9]%N CHUNK_SIZE CHUNK_OVERLAP = Ok [].
Proof. split; reflexivity. Qed.

Example chunk_text_equal_overlap_stalls :
  chunk_text 1000 [97; 98; 99]%N 2 2 = NoFuel.
Proof. apply chunk_text_stalls; [lia|vm_compute; reflexivity|discriminate]. Qed.

Example get_embedding_429_429_200 :
  get_embedding
    (λ _ k, match k with 0 | 1 => Http 429 None | _ => Http 200 (Some [49]%N) end)
    [97]%N MAX_RETRIES
  = (Ok [49]%N,
     [Post [97]%N 0; Sleep 1; Post [97]%N 1; Sleep 2; Post [97]%N 2]).
Proof. reflexivity. Qed.

Example get_embedding_500 :
  get_embedding (λ _ _, Http 500 None) [97]%N MAX_RETRIES
  = (Raise RETRIES_EXHAUSTED,
     [Post [97]%N 0; Sleep 2; Post [97]%N 1; Sleep 2; Post [97]%N 2; Sleep 2]).
Proof. reflexivity. Qed.

(** * Further properties of the code *)

(** ** [chunk_text]: windows *)

Lemma length_py_slice_inside {A} (s : list A) (a b : Z) :
  (0 ≤ a ≤ b)%Z → (b ≤ Z.of_nat (length s))%Z →
  Z.of_nat (length (py_slice s a b)) = (b - a)%Z.
Proof.
  intros Hab Hb. rewrite py_slice_inside by done.
  rewrite length_take, length_drop. lia.
Qed.

(** The windows that the loop appends from the offset [start] on: the
    [i]-th one starts at [start + i * (chunk_size - overlap)], and it is
    the last one exactly when it reaches the end of the text. *)
Lemma chunk_loop_closed_form (text : str) (chunk_size overlap : Z) (fuel : nat) :
  (0 ≤ overlap < chunk_size)%Z →
  ∀ start,
    (0 ≤ start < Z.of_nat (length text))%Z →
    enough_fuel text chunk_size overlap fuel start →
    ∃ ws,
      chunk_loop fuel text chunk_size overlap
        {| cs_start := start; cs_chunks := [] |} = Ok ws
      ∧ ∀ i w, ws !! i = Some w →
          let a := (start + Z.of_nat i * (chunk_size - overlap))%Z in
          w = py_slice text a (Z.min (a + chunk_size) (Z.of_nat (length text)))
          ∧ (0 ≤ a < Z.of_nat (length text))%Z
          ∧ (S i < length ws ↔ (a + chunk_size < Z.of_nat (length text))%Z).
Proof.
  intros [Ho HS].
  induction fuel as [|fuel IH]; intros start Hs [Hf1 Hf2]; [lia|].
  simpl. unfold chunk_iter; simpl.
  destruct (Z.ltb_spec start (Z.of_nat (length text))); [|lia].
  destruct (Z.eqb_spec (Z.min (start + chunk_size) (Z.of_nat (length text)))
              (Z.of_nat (length text))) as [He|He].
  - eexists. split; [done|]. intros [|i] w Hw; [|done].
    injection Hw as <-. simpl.
    rewrite Z.add_0_r. split; [done|]. split; [lia|]. split; lia.
  - destruct (IH (start + (chunk_size - overlap))%Z) as (ws & Hrun & Hws).
    { lia. }
    { split; [|lia]. destruct fuel; [|lia]. simpl in Hf2. lia. }
    rewrite chunk_loop_acc, Hrun. eexists. split; [done|].
    assert (Hne : 0 < length ws).
    { destruct fuel as [|fuel']; [done|]. simpl in Hrun.
      destruct (chunk_iter_progress text chunk_size overlap Ho HS
                  (start + (chunk_size - overlap))%Z [] ltac:(lia))
        as [(chunks & Hb & _)|(st' & Hc & _)].
      - rewrite Hb in Hrun. injection Hrun as <-.
        unfold chunk_iter in Hb. simpl in Hb.
        repeat case_match; try done; injection Hb as <-; simpl; lia.
      - rewrite Hc in Hrun. destruct st' as [st acc].
        rewrite chunk_loop_acc in Hrun.
        unfold chunk_iter in Hc. simpl in Hc.
        repeat case_match; try done. injection Hc as _ <-.
        destruct (chunk_loop fuel' _ _ _ _); try done.
        injection Hrun as <-. simpl. lia. }
    intros [|i] w Hw; simpl in Hw.
    + injection Hw as <-. simpl. rewrite Z.add_0_r.
      split; [done|]. split; [lia|]. split; lia.
    + destruct (Hws i w Hw) as (Hw' & Ha & Hlast). cbv zeta in *.
      replace (start + Z.of_nat (S i) * (chunk_size - overlap))%Z
        with (start + (chunk_size - overlap)
              + Z.of_nat i * (chunk_size - overlap))%Z by lia.
      split; [done|]. split; [done|]. rewrite <- Hlast.
      simpl length. lia.
Qed.

(** X2. With [0 <= overlap < chunk_size], chunk [i] of the result is the
    window of the trimmed text that starts at [i * (chunk_size - overlap)]
    and spans [chunk_size] characters, cut at the end of the text. *)
Theorem chunk_text_window (text : str) (chunk_size overlap : Z) (fuel : nat) :
  (0 ≤ overlap < chunk_size)%Z →
  length (strip text) ≤ fuel →
  ∃ chunks,
    chunk_text fuel text chunk_size overlap = Ok chunks
    ∧ ∀ i w, chunks !! i = Some w →
        let a := (Z.of_nat i * (chunk_size - overlap))%Z in
        (a < Z.of_nat (length (strip text)))%Z
        ∧ w = py_slice (strip text) a
                (Z.min (a + chunk_size) (Z.of_nat (length (strip text)))).
Proof.
  intros Hpar Hfuel. unfold chunk_text.
  destruct (strip text) as [|c t] eqn:Hstrip.
  - exists []. split; [done|]. by intros i w Hw.
  - destruct (chunk_loop_closed_form (c :: t) chunk_size overlap fuel Hpar 0)
      as (ws & Hrun & Hws).
    { simpl. lia. }
    { apply enough_fuel_length; [lia|lia|done|done]. }
    exists ws. split; [done|]. intros i w Hw.
    destruct (Hws i w Hw) as (Hw' & Ha & _). simpl in *.
    split; [lia|]. by rewrite Z.add_0_l in Hw'.
Qed.

(** X1. With [0 <= overlap < chunk_size], no chunk is empty, no chunk is
    longer than [chunk_size], and every chunk but the last has exactly
    [chunk_size] characters. *)
Theorem chunk_text_lengths (text : str) (chunk_size overlap : Z) (fuel : nat) :
  (0 ≤ overlap < chunk_size)%Z →
  length (strip text) ≤ fuel →
  ∃ chunks,
    chunk_text fuel text chunk_size overlap = Ok chunks
    ∧ ∀ i w, chunks !! i = Some w →
        (1 ≤ Z.of_nat (length w) ≤ chunk_size)%Z
        ∧ (S i < length chunks → Z.of_nat (length w) = chunk_size).
Proof.
  intros Hpar Hfuel. unfold chunk_text.
  destruct (strip text) as [|c t] eqn:Hstrip.
  - exists []. split; [done|]. by intros i w Hw.
  - destruct (chunk_loop_closed_form (c :: t) chunk_size overlap fuel Hpar 0)
      as (ws & Hrun & Hws).
    { simpl. lia. }
    { apply enough_fuel_length; [lia|lia|done|done]. }
    exists ws. split; [done|]. intros i w Hw.
    destruct (Hws i w Hw) as (Hw' & Ha & Hlast).
    set (a := (0 + Z.of_nat i * (chunk_size - overlap))%Z) in *.
    assert (Hlen : Z.of_nat (length w)
                   = (Z.min (a + chunk_size) (Z.of_nat (length (c :: t))) - a)%Z).
    { rewrite Hw'. apply length_py_slice_inside; lia. }
    split; [lia|]. intros Hi. apply Hlast in Hi. lia.
Qed.

(** ** [chunk_text]: blank input and termination *)

Lemma lstrip_head (s s' : str) (c : N) : lstrip s = c :: s' → isspace c = false.
Proof.
  induction s as [|x s IH]; simpl; [done|].
  destruct (isspace x) eqn:Hx; [done|]. by intros [= <- _].
Qed.

Lemma lstrip_nil_iff (s : str) :
  lstrip s = [] ↔ Forall (λ c, isspace c = true) s.
Proof.
  induction s as [|x s IH]; simpl; [by split|].
  destruct (isspace x) eqn:Hx.
  - rewrite IH. split; [by constructor|by inversion 1].
  - split; [done|]. inversion 1; congruence.
Qed.

Lemma strip_nil_iff (s : str) :
  strip s = [] ↔ Forall (λ c, isspace c = true) s.
Proof.
  rewrite <- lstrip_nil_iff. unfold strip, rstrip. split.
  - intros H. apply (f_equal length) in H. rewrite length_rev in H.
    apply nil_length_inv, lstrip_nil_iff in H. apply Forall_rev in H. rewrite rev_involutive in H.
    destruct (lstrip s) as [|c s'] eqn:Hl; [done|].
    apply lstrip_head in Hl. inversion H; congruence.
  - by intros ->.
Qed.

Lemma chunk_loop_first_chunk (fuel : nat) (text : str) (chunk_size overlap : Z) ws :
  text ≠ [] →
  chunk_loop fuel text chunk_size overlap {| cs_start := 0; cs_chunks := [] |}
  = Ok ws →
  ws ≠ [].
Proof.
  intros Hne. destruct fuel as [|fuel]; [done|]. simpl.
  unfold chunk_iter. simpl.
  assert (0 < Z.of_nat (length text))%Z by (destruct text; [done|simpl; lia]).
  destruct (Z.ltb_spec 0 (Z.of_nat (length text))); [|lia].
  destruct (Z.min (0 + chunk_size) (Z.of_nat (length text))
            =? Z.of_nat (length text))%Z.
  - by intros [= <-].
  - rewrite chunk_loop_acc. destruct (chunk_loop fuel _ _ _ _); try done.
    by intros [= <-].
Qed.

(** X3. For any size and overlap, [chunk_text] returns the empty list
    exactly on the texts that consist of whitespace only (the empty text
    included). *)
Theorem chunk_text_empty_iff_blank (text : str) (chunk_size overlap : Z) :
  (∃ fuel, chunk_text fuel text chunk_size overlap = Ok [])
  ↔ Forall (λ c, isspace c = true) text.
Proof.
  rewrite <- strip_nil_iff. unfold chunk_text. split.
  - intros [fuel Hrun]. destruct (strip text) as [|c t] eqn:Hs; [done|].
    by apply chunk_loop_first_chunk in Hrun.
  - intros ->. by exists 0.
Qed.

Lemma chunk_loop_advancing (text : str) (chunk_size overlap : Z) (fuel : nat) :
  (overlap < chunk_size)%Z →
  ∀ st, Z.to_nat (Z.of_nat (length text) - cs_start st) < fuel →
  ∃ ws, chunk_loop fuel text chunk_size overlap st = Ok ws.
Proof.
  intros HS. induction fuel as [|fuel IH]; intros [start acc] Hfuel; [lia|].
  simpl in *. unfold chunk_iter. simpl.
  destruct (Z.ltb_spec start (Z.of_nat (length text))); [|eauto].
  destruct (Z.min (start + chunk_size) (Z.of_nat (length text))
            =? Z.of_nat (length text))%Z; [eauto|].
  apply IH. simpl. lia.
Qed.

(** X4. For arbitrary integer parameters, [chunk_text] returns if and only
    if the trimmed text is empty, or fits in one window, or the overlap
    is smaller than the size; in every other case the loop never ends. *)
Theorem chunk_text_returns_iff (text : str) (chunk_size overlap : Z) :
  (∃ fuel chunks, chunk_text fuel text chunk_size overlap = Ok chunks)
  ↔ (strip text = []
     ∨ (Z.of_nat (length (strip text)) ≤ chunk_size)%Z
     ∨ (overlap < chunk_size)%Z).
Proof.
  split.
  - intros (fuel & chunks & Hrun).
    destruct (decide (strip text = [])) as [|Hne]; [by left|].
    destruct (decide (Z.of_nat (length (strip text)) ≤ chunk_size)%Z);
      [by right; left|].
    destruct (decide (overlap < chunk_size)%Z); [by right; right|].
    rewrite chunk_text_stalls in Hrun; [done|lia|lia|done].
  - unfold chunk_text. intros [Hnil|[Hfit|Hadv]].
    + rewrite Hnil. by exists 0, [].
    + destruct (strip text) as [|c t] eqn:Hs; [by exists 0, []|].
      exists 1. simpl. unfold chunk_iter. simpl.
      destruct (Z.ltb_spec 0 (Z.pos (Pos.of_succ_nat (length t)))); [|lia].
      rewrite Z.min_r by (simpl in Hfit; lia). rewrite Z.eqb_refl. eauto.
    + destruct (strip text) as [|c t] eqn:Hs; [by exists 0, []|].
      exists (S (length (c :: t))).
      apply chunk_loop_advancing; [done|]. simpl cs_start. lia.
Qed.

(** ** [get_embedding]: result and log *)

Lemma is_success_true (r : response) :
  is_success r = true ↔ ∃ emb, r = Http 200 (Some emb).
Proof.
  split.
  - destruct r as [status [emb|]|]; simpl; try done.
    intros ->%Z.eqb_eq. eauto.
  - by intros [emb ->].
Qed.

Lemma attempt_loop_spec (server : endpoint) (text : str) (n : nat) :
  ∀ a, ∃ k,
    a ≤ k ≤ a + n
    ∧ (∀ j, a ≤ j < k → is_success (server text j) = false)
    ∧ ((k < a + n
        ∧ ∃ emb, server text k = Http 200 (Some emb)
            ∧ attempt_loop server text a n
              = (Ok emb,
                 flat_map (failed_attempt server text) (seq a (k - a))
                 ++ [Post text k]))
       ∨ (k = a + n
          ∧ attempt_loop server text a n
            = (Raise RETRIES_EXHAUSTED,
               flat_map (failed_attempt server text) (seq a n)))).
Proof.
  induction n as [|n IH]; intros a.
  - exists a. split; [lia|]. split; [intros; lia|]. right. split; [lia|done].
  - destruct (is_success (server text a)) eqn:Hsucc.
    + apply is_success_true in Hsucc as [emb Hemb].
      exists a. split; [lia|]. split; [intros; lia|]. left. split; [lia|].
      exists emb. split; [done|]. simpl. rewrite Hemb. simpl.
      by rewrite Nat.sub_diag.
    + destruct (IH (S a)) as (k & Hk & Hnone & Hcase).
      exists k. split; [lia|]. split.
      { intros j Hj. destruct (decide (j = a)) as [->|]; [done|].
        apply Hnone. lia. }
      assert (Hstep : attempt_loop server text a (S n)
                      = ((attempt_loop server text (S a) n).1,
                         failed_attempt server text a
                         ++ (attempt_loop server text (S a) n).2)).
      { simpl. unfold failed_attempt, backoff.
        destruct (attempt_loop server text (S a) n) as [r log].
        destruct (server text a) as [status [emb|]|]; simpl in *;
          repeat case_match; try done;
          repeat match goal with
                 | H : (_ =? _)%Z = true |- _ => apply Z.eqb_eq in H
                 end; lia. }
      destruct Hcase as [(Hlt & emb & Hemb & Hrun)|(-> & Hrun)].
      * left. split; [lia|]. exists emb. split; [done|].
        rewrite Hstep, Hrun. simpl. f_equal.
        replace (k - a) with (S (k - S a)) by lia. done.
      * right. split; [lia|]. rewrite Hstep, Hrun. done.
Qed.

(** X5. [get_embedding] returns the embedding of the first attempt that
    is answered 200 with a usable body, provided that attempt is among
    the first [retries]; otherwise it raises the [RuntimeError], whatever
    mix of statuses and request exceptions it met. *)
Theorem get_embedding_result (server : endpoint) (text : str) (retries : nat) :
  (∀ emb,
     (get_embedding server text retries).1 = Ok emb
     ↔ ∃ k, k < retries
            ∧ server text k = Http 200 (Some emb)
            ∧ ∀ j, j < k → is_success (server text j) = false)
  ∧ ((get_embedding server text retries).1 = Raise RETRIES_EXHAUSTED
     ↔ ∀ j, j < retries → is_success (server text j) = false).
Proof.
  unfold get_embedding.
  destruct (attempt_loop_spec server text retries 0) as (k & Hk & Hnone & Hcase).
  assert (Hnone' : ∀ j, j < k → is_success (server text j) = false)
    by (intros; apply Hnone; lia).
  destruct Hcase as [(Hlt & emb0 & Hemb & ->)|(-> & ->)]; simpl.
  - split.
    + intros emb. split.
      * intros [= <-]. exists k. split; [lia|done].
      * intros (k' & Hk' & Hemb' & Hnone'').
        destruct (decide (k = k')) as [->|Hne]; [congruence|].
        destruct (decide (k < k')).
        -- specialize (Hnone'' k ltac:(lia)). rewrite Hemb in Hnone''.
           simpl in Hnone''. done.
        -- specialize (Hnone' k' ltac:(lia)). rewrite Hemb' in Hnone'.
           simpl in Hnone'. done.
    + split; [done|]. intros Hall.
      specialize (Hall k ltac:(lia)). rewrite Hemb in Hall. done.
  - split.
    + intros emb. split; [done|].
      intros (k' & Hk' & Hemb' & _).
      specialize (Hnone' k' ltac:(lia)). rewrite Hemb' in Hnone'. done.
    + split; [|done]. intros _ j Hj. apply Hnone'. lia.
Qed.

(** X6. The requests and sleeps of a call, in order: every attempt that
    does not succeed is followed by one sleep, of [2 ^ attempt] seconds
    after a 429 and of 2 seconds otherwise; a successful attempt ends the
    call at once; a call that fails has sent exactly [retries] requests
    and has slept after the last one too. *)
Theorem get_embedding_log (server : endpoint) (text : str) (retries : nat) :
  ∃ k,
    k ≤ retries
    ∧ ((∃ emb, (get_embedding server text retries).1 = Ok emb)
       ∧ k < retries
       ∧ (get_embedding server text retries).2
         = flat_map (failed_attempt server text) (seq 0 k) ++ [Post text k]
       ∨ (get_embedding server text retries).1 = Raise RETRIES_EXHAUSTED
         ∧ k = retries
         ∧ (get_embedding server text retries).2
           = flat_map (failed_attempt server text) (seq 0 retries)).
Proof.
  unfold get_embedding.
  destruct (attempt_loop_spec server text retries 0) as (k & Hk & _ & Hcase).
  exists k. split; [lia|].
  destruct Hcase as [(Hlt & emb & _ & ->)|(-> & ->)]; simpl.
  - left. split; [eauto|]. split; [lia|]. by rewrite Nat.sub_0_r.
  - by right.
Qed.

(** ** The wave loop: batches *)

Lemma range_from_lookup (fuel stop step : nat) :
  ∀ i k j, range_from fuel i stop step !! k = Some j →
           j = i + k * step ∧ j < stop.
Proof.
  induction fuel as [|fuel IH]; intros i k j; simpl; [done|].
  destruct (Nat.ltb_spec i stop); [|done].
  destruct k as [|k]; simpl.
  - intros [= <-]. lia.
  - intros Hk. apply IH in Hk. lia.
Qed.

Lemma concat_batches {A} (l : list A) (limit fuel : nat) :
  0 < limit →
  ∀ i, length l - i ≤ fuel →
  concat ((λ j, py_slice l (Z.of_nat j) (Z.of_nat (j + limit)))
          <$> range_from fuel i (length l) limit)
  = drop i l.
Proof.
  intros Hlimit. induction fuel as [|fuel IH]; intros i Hfuel; simpl.
  - rewrite drop_ge; [done|lia].
  - destruct (Nat.ltb_spec i (length l)).
    + simpl. rewrite IH by lia. rewrite py_slice_batch.
      rewrite <- (take_drop limit (drop i l)) at 2. by rewrite drop_drop.
    + simpl. rewrite drop_ge; [done|lia].
Qed.

(** X7. With a positive limit the batches of the wave loop are the
    consecutive slices of the pending list at the offsets
    [0, limit, 2 * limit, ...]: no batch is empty, and put end to end
    they are the pending list, so that every pending segment is in
    exactly one wave. *)
Theorem waves_partition_pending (to_insert : list segment) (limit : nat) :
  0 < limit →
  ∃ offsets,
    py_range 0 (length to_insert) limit = Ok offsets
    ∧ (∀ k i, offsets !! k = Some i →
         i = k * limit
         ∧ py_slice to_insert (Z.of_nat i) (Z.of_nat (i + limit)) ≠ [])
    ∧ concat ((λ i, py_slice to_insert (Z.of_nat i) (Z.of_nat (i + limit)))
              <$> offsets)
      = to_insert.
Proof.
  intros Hlimit. unfold py_range.
  destruct (Nat.eqb_spec limit 0); [lia|].
  eexists. split; [done|]. split.
  - intros k i Hk. apply range_from_lookup in Hk as [-> Hlt].
    split; [done|]. rewrite py_slice_batch. intros Hnil.
    apply (f_equal length) in Hnil.
    rewrite length_take, length_drop in Hnil. simpl in *. lia.
  - by rewrite concat_batches, drop_0 by lia.
Qed.

(** ** [asyncio.gather] and the inserts, in every run *)

Lemma gather_loop_values (c : corpus) (i : nat) (outs : list (result str))
    (order : list nat) :
  ∀ slots s slots' s',
    gather_loop c i outs order slots s = (Ok slots', s') →
    ∀ j e, slots' !! j = Some (Some e) →
      slots !! j = Some (Some e)
      ∨ (outs !! j = Some (Ok e) ∧ EvDone c (i + j) ∈ drop (length (trace s)) (trace s')).
Proof.
  induction order as [|k order IH]; intros slots s slots' s' Hrun j e Hj;
    simpl in Hrun.
  - injection Hrun as <- <-. by left.
  - destruct (outs !! k) as [r|] eqn:Hk; [|by eapply IH].
    unfold bind, emit, lift in Hrun. simpl in Hrun.
    destruct r as [emb|x|]; try done.
    pose proof (gather_loop_frame _ _ _ _ _ _ _ _ Hrun) as (t & Hs' & _).
    destruct (IH _ _ _ _ Hrun j e Hj) as [Hold|[Hout Hdone]].
    + destruct (decide (j = k)) as [->|Hne].
      * apply lookup_lt_Some in Hold as Hlt. rewrite length_insert in Hlt.
        rewrite list_lookup_insert_eq in Hold by done.
        injection Hold as ->. right. split; [done|].
        rewrite Hs'. simpl. rewrite <- app_assoc, drop_app_length.
        apply elem_of_cons. by left.
      * rewrite list_lookup_insert_ne in Hold by done. by left.
    + right. split; [done|]. rewrite Hs' in *. simpl in *.
      rewrite length_app in Hdone. simpl in Hdone.
      rewrite <- !app_assoc in *. rewrite drop_app_length.
      rewrite <- drop_drop, drop_app_length in Hdone.
      simpl in Hdone. apply elem_of_cons. by right.
Qed.

(** Whenever the await returns, it returns for every call the value of
    that call, and every call has completed. *)
Lemma gather_values (c : corpus) (i : nat) (outs : list (result str))
    (order : list nat) s embs s' :
  gather c i outs order s = (Ok embs, s') →
  length embs = length outs
  ∧ ∀ j e, embs !! j = Some e →
      outs !! j = Some (Ok e)
      ∧ EvDone c (i + j) ∈ drop (length (trace s)) (trace s').
Proof.
  intros Hrun.
  pose proof (gather_frame _ _ _ _ _ _ _ Hrun) as (t & Hs' & _ & Hlen).
  split; [by apply Hlen|].
  unfold gather in Hrun. unfold bind at 1 in Hrun. unfold emit in Hrun.
  unfold bind in Hrun.
  destruct (gather_loop c i outs order _ _) as [[slots'|x|] s1] eqn:Hloop;
    try done.
  destruct (mapM id slots') as [embs'|] eqn:Hm; [|done].
  injection Hrun as -> ->.
  intros j e Hj. apply mapM_Some in Hm.
  destruct (Forall2_lookup_r _ _ _ _ _ Hm Hj) as (x & Hx & Hid). simpl in Hid.
  subst x.
  destruct (gather_loop_values _ _ _ _ _ _ _ _ Hloop j e Hx) as [Hold|[Hout Hdone]].
  - apply lookup_replicate in Hold as [? _]. done.
  - split; [done|]. simpl in Hdone.
    pose proof (gather_loop_frame _ _ _ _ _ _ _ _ Hloop) as (t1 & Hs1 & _).
    rewrite Hs1 in *. simpl in *.
    rewrite <- app_assoc, drop_app_length.
    rewrite <- app_assoc in Hdone. rewrite length_app in Hdone.
    rewrite <- drop_drop, drop_app_length, drop_app_length in Hdone.
    apply elem_of_app. by right.
Qed.

Lemma insert_rows_values (c : corpus) (make_row : segment → str → result row)
    (pairs : list (segment * str)) :
  ∀ p s s',
    insert_rows c make_row p pairs s = (Ok tt, s') →
    ∃ rows,
      Forall2 (λ pr row, make_row pr.1 pr.2 = Ok row) pairs rows
      ∧ db_file s' = db_file s
      ∧ pending s' = pending s ++ rows.
Proof.
  induction pairs as [|[seg emb] pairs IH]; intros p s s' Hrun; simpl in Hrun.
  - injection Hrun as <-. exists []. by rewrite app_nil_r.
  - unfold bind at 1 in Hrun. unfold lift in Hrun.
    destruct (make_row seg emb) as [row|e|] eqn:Hrow; try done.
    unfold bind in Hrun. rewrite execute_insert_run in Hrun.
    destruct (bind_row row) as [[]|e|]; try done.
    apply IH in Hrun as (rows & Hrows & Hdb & Hpend). simpl in *.
    exists (row :: rows). split; [by constructor|]. split; [done|].
    by rewrite Hpend, <- app_assoc.
Qed.

(** ** The wave loop in every run *)

Section AnyRun.
Variable env : environment.
Variable c : corpus.
Variable make_row : segment → str → result row.
Variable limit : nat.
Variable to_insert : list segment.
Hypothesis limit_pos : 0 < limit.

Local Abbreviation total := (length to_insert).

(** A wave either commits the rows of all its segments, each built from
    the value of its own call, after every call has completed, or leaves
    the store file as it was. *)
Lemma wave_any (i : nat) s r s' :
  wave env c make_row limit to_insert i s = (r, s') →
  (r = Ok tt
   ∧ pending s' = []
   ∧ (∀ q, i ≤ q < i + limit → q < total →
        EvDone c q ∈ drop (length (trace s)) (trace s'))
   ∧ ∃ rows,
       db_file s' = add_rows (pending s ++ rows) <$> db_file s
       ∧ length rows = Nat.min limit (total - i)
       ∧ ∀ j row, rows !! j = Some row →
           row_of_call env c make_row to_insert (i + j) row)
  ∨ (r ≠ Ok tt ∧ db_file s' = db_file s).
Proof.
  unfold wave. rewrite py_slice_batch.
  set (batch := take limit (drop i to_insert)).
  assert (Hlb : length batch = Nat.min limit (total - i))
    by (subst batch; by rewrite length_take, length_drop).
  unfold bind at 1.
  destruct (gather c i _ (completion env c i) s) as [rg s1] eqn:Hg.
  pose proof (gather_frame _ _ _ _ _ _ _ Hg) as (t1 & Hs1 & _ & _).
  destruct rg as [embs|e|]; [|intros [= <- <-]; right; by subst s1..].
  apply gather_values in Hg as [Hlen Hvals].
  unfold task_outcomes in Hlen. rewrite length_imap in Hlen.
  unfold bind.
  destruct (insert_rows c make_row i (zip batch embs) s1) as [ri s2] eqn:Hi.
  pose proof (insert_rows_frame _ _ _ _ _ _ _ Hi) as (k & rows0 & _ & Hs2 & _).
  destruct ri as [[]|e|];
    [|intros [= <- <-]; right; by subst s2 s1..].
  apply insert_rows_values in Hi as (rows & Hrows & Hdb & Hpend).
  unfold commit. intros [= <- <-]. left. simpl.
  split; [done|]. split; [done|]. split.
  - intros q Hq1 Hq2.
    destruct (lookup_lt_is_Some_2 embs (q - i)) as [e He]; [lia|].
    destruct (Hvals _ _ He) as [_ Hdone].
    replace (i + (q - i)) with q in Hdone by lia.
    rewrite Hs1 in Hdone. simpl in Hdone. rewrite drop_app_length in Hdone.
    rewrite Hs2, Hs1. simpl. rewrite <- !app_assoc, drop_app_length.
    apply elem_of_app. by left.
  - exists rows. rewrite Hdb, Hpend, Hs1. simpl. split; [done|]. split.
    + apply Forall2_length in Hrows. rewrite length_zip in Hrows. lia.
    + intros j row Hj.
      destruct (Forall2_lookup_r _ _ _ _ _ Hrows Hj) as ([seg e] & Hz & Hrow).
      apply lookup_zip_Some in Hz as [Hseg He]. simpl in Hrow.
      destruct (Hvals _ _ He) as [Hout _].
      unfold task_outcomes in Hout. rewrite list_lookup_imap, Hseg in Hout.
      simpl in Hout. injection Hout as Hout.
      subst batch. apply lookup_take_Some in Hseg as [Hseg _].
      rewrite lookup_drop in Hseg.
      by exists seg, e.
Qed.

Lemma fmap_add_rows_nil (db : option database) : add_rows [] <$> db = db.
Proof. destruct db as [db|]; [|done]. simpl. by rewrite add_rows_nil. Qed.

Lemma fmap_add_rows_app (rows1 rows2 : list row) (db : option database) :
  add_rows rows2 <$> (add_rows rows1 <$> db) = add_rows (rows1 ++ rows2) <$> db.
Proof. destruct db as [db|]; [|done]. simpl. by rewrite add_rows_app. Qed.

Lemma loop_any (fuel : nat) :
  ∀ i s r s',
    total - i ≤ fuel →
    pending s = [] →
    for_each (range_from fuel i total limit)
      (wave env c make_row limit to_insert) s = (r, s') →
    ∃ rows k,
      db_file s' = add_rows rows <$> db_file s
      ∧ length rows = Nat.min (k * limit) (total - i)
      ∧ (∀ j row, rows !! j = Some row →
           row_of_call env c make_row to_insert (i + j) row)
      ∧ (r = Ok tt → pending s' = [] ∧ length rows = total - i).
Proof.
  induction fuel as [|fuel IH]; intros i s r s' Hfuel Hpend Hrun.
  - simpl in Hrun. injection Hrun as <- <-. exists [], 0.
    rewrite fmap_add_rows_nil. split; [done|]. split; [simpl; lia|].
    split; [done|]. intros _. split; [done|]. simpl. lia.
  - simpl in Hrun. destruct (Nat.ltb_spec i total) as [Hlt|Hge].
    + cbn [for_each] in Hrun. unfold bind in Hrun.
      destruct (wave env c make_row limit to_insert i s) as [rw s1] eqn:Hw.
      apply wave_any in Hw
        as [(-> & Hpend1 & _ & rows1 & Hdb1 & Hlen1 & Hrows1)|(Hne & Hdb1)].
      * apply IH in Hrun as (rows2 & k & Hdb2 & Hlen2 & Hrows2 & Hok);
          [|lia|done].
        rewrite Hpend in Hdb1. simpl in Hdb1.
        exists (rows1 ++ rows2), (S k).
        rewrite Hdb2, Hdb1, fmap_add_rows_app. split; [done|].
        split; [rewrite length_app; simpl; lia|]. split.
        -- intros j row Hj. apply lookup_app_Some in Hj as [Hj|[Hge Hj]].
           ++ by apply Hrows1.
           ++ apply lookup_lt_Some in Hj as Hlt2.
              replace (i + j) with (i + limit + (j - length rows1)) by lia.
              by apply Hrows2.
        -- intros Hr. destruct (Hok Hr) as [Hp Hl]. split; [done|].
           rewrite length_app. lia.
      * exists [], 0. rewrite fmap_add_rows_nil.
        destruct rw as [[]|e|]; [done| |]; injection Hrun as <- <-;
          (split; [done|]); (split; [simpl; lia|]); (split; [done|done]).
    + simpl in Hrun. injection Hrun as <- <-. exists [], 0.
      rewrite fmap_add_rows_nil. split; [done|]. split; [simpl; lia|].
      split; [done|]. intros _. split; [done|]. simpl. lia.
Qed.

Lemma loop_done_before_start (fuel : nat) :
  ∀ i s r s',
    for_each (range_from fuel i total limit)
      (wave env c make_row limit to_insert) s = (r, s') →
    ∃ t, trace s' = trace s ++ t
         ∧ ∀ a p, t !! a = Some (EvStart c p) →
             i ≤ p
             ∧ ∀ q, i ≤ q → q < total →
                 (q - i) / limit < (p - i) / limit →
                 ∃ b, b < a ∧ t !! b = Some (EvDone c q).
Proof.
  induction fuel as [|fuel IH]; intros i s r s' Hrun.
  - simpl in Hrun. injection Hrun as <- <-. exists []. rewrite app_nil_r.
    split; [done|]. by intros a p Ha.
  - simpl in Hrun. destruct (Nat.ltb_spec i total) as [Hlt|Hge].
    + cbn [for_each] in Hrun. unfold bind in Hrun.
      destruct (wave env c make_row limit to_insert i s) as [rw s1] eqn:Hw.
      pose proof (wave_frame env c make_row limit to_insert limit_pos _ _ _ _ Hw)
        as (tw & Htr1 & _ & Hstart & _).
      assert (Hhere : ∀ a p, tw !! a = Some (EvStart c p) →
                i ≤ p ∧ ∀ q, i ≤ q → q < total →
                  (q - i) / limit < (p - i) / limit → False).
      { intros a p Ha. apply list_elem_of_lookup_2, Hstart in Ha.
        split; [lia|]. intros q _ _.
        rewrite (Nat.div_small (p - i)) by lia. lia. }
      destruct rw as [[]|e|].
      * apply wave_any in Hw as [(_ & _ & Hdone & _)|[Hne _]]; [|done].
        rewrite Htr1, drop_app_length in Hdone.
        apply IH in Hrun as (t' & Htr2 & Hord).
        exists (tw ++ t'). split; [by rewrite Htr2, Htr1, <- app_assoc|].
        intros a p Ha. destruct (decide (a < length tw)) as [Ha1|Ha1].
        -- rewrite lookup_app_l in Ha by done.
           destruct (Hhere a p Ha) as [Hp Hno]. split; [done|].
           intros q Hq1 Hq2 Hq3. destruct (Hno q Hq1 Hq2 Hq3).
        -- rewrite lookup_app_r in Ha by lia.
           destruct (Hord _ _ Ha) as [Hp Hearlier]. split; [lia|].
           intros q Hq1 Hq2 Hq3.
           destruct (decide (q < i + limit)) as [Hq|Hq].
           ++ destruct (list_elem_of_lookup_1 _ _ (Hdone q ltac:(lia) Hq2))
                as [b Hb].
              apply lookup_lt_Some in Hb as Hblt.
              exists b. split; [lia|]. by rewrite lookup_app_l.
           ++ destruct (Hearlier q ltac:(lia) Hq2) as (b & Hba & Hb).
              { rewrite (div_shift limit limit_pos limit (q - i)) in Hq3 by lia.
                rewrite (div_shift limit limit_pos limit (p - i)) in Hq3 by lia.
                replace (q - (i + limit)) with (q - i - limit) by lia.
                replace (p - (i + limit)) with (p - i - limit) by lia. lia. }
              exists (length tw + b). split; [lia|].
              rewrite lookup_app_r by lia.
              by replace (length tw + b - length tw) with b by lia.
      * injection Hrun as <- <-. exists tw. split; [done|].
        intros a p Ha. destruct (Hhere a p Ha) as [Hp Hno]. split; [done|].
        intros q Hq1 Hq2 Hq3. destruct (Hno q Hq1 Hq2 Hq3).
      * injection Hrun as <- <-. exists tw. split; [done|].
        intros a p Ha. destruct (Hhere a p Ha) as [Hp Hno]. split; [done|].
        intros q Hq1 Hq2 Hq3. destruct (Hno q Hq1 Hq2 Hq3).
    + simpl in Hrun. injection Hrun as <- <-. exists []. rewrite app_nil_r.
      split; [done|]. by intros a p Ha.
Qed.

End AnyRun.

Lemma embed_and_store_any (env : environment) (c : corpus)
    (make_row : segment → str → result row) (limit : nat)
    (to_insert : list segment) s r s' :
  0 < limit →
  pending s = [] →
  embed_and_store env c make_row limit to_insert s = (r, s') →
  ∃ rows k,
    db_file s' = add_rows rows <$> db_file s
    ∧ length rows = Nat.min (k * limit) (length to_insert)
    ∧ (∀ p row, rows !! p = Some row →
         row_of_call env c make_row to_insert p row)
    ∧ (r = Ok tt → pending s' = [] ∧ length rows = length to_insert).
Proof.
  intros Hlimit Hpend. unfold embed_and_store, py_range.
  destruct (Nat.eqb_spec limit 0); [lia|]. unfold bind, lift.
  intros Hrun.
  apply loop_any in Hrun as (rows & k & Hdb & Hlen & Hrows & Hok);
    [|done|lia|done].
  rewrite Nat.sub_0_r in *. by exists rows, k.
Qed.

(** X8. In every run of the wave loop that starts with no open
    transaction, whatever the service answers and however the run ends,
    the rows added to the store file are those of whole waves: their
    number is a multiple of the limit or the number of pending segments,
    the row at position [p] is built from segment [p] and from the value
    returned by the call made for segment [p], and when the loop returns
    normally every pending segment has its row and nothing is left
    uncommitted. *)
Theorem store_holds_whole_waves (env : environment) (c : corpus)
    (make_row : segment → str → result row) (limit : nat)
    (to_insert : list segment) s :
  0 < limit →
  pending s = [] →
  ∃ rows k,
    db_file (embed_and_store env c make_row limit to_insert s).2
    = add_rows rows <$> db_file s
    ∧ length rows = Nat.min (k * limit) (length to_insert)
    ∧ (∀ p row, rows !! p = Some row →
         row_of_call env c make_row to_insert p row)
    ∧ ((embed_and_store env c make_row limit to_insert s).1 = Ok tt →
       pending (embed_and_store env c make_row limit to_insert s).2 = []
       ∧ length rows = length to_insert).
Proof.
  intros Hlimit Hpend.
  destruct (embed_and_store env c make_row limit to_insert s) as [r s'] eqn:Hrun.
  by apply embed_and_store_any in Hrun.
Qed.

(** X9. In every run of the wave loop, when the embedding call for a
    position starts, the call of every position of an earlier wave has
    completed: calls of different waves are never in flight together, so
    at most [limit] calls are. *)
Theorem calls_done_before_next_wave (env : environment) (c : corpus)
    (make_row : segment → str → result row) (limit : nat)
    (to_insert : list segment) s :
  ∃ t,
    trace (embed_and_store env c make_row limit to_insert s).2 = trace s ++ t
    ∧ ∀ a p, t !! a = Some (EvStart c p) →
        ∀ q, q < length to_insert → q / limit < p / limit →
          ∃ b, b < a ∧ t !! b = Some (EvDone c q).
Proof.
  unfold embed_and_store, py_range.
  destruct (Nat.eqb_spec limit 0) as [->|Hne].
  - exists []. simpl. by rewrite app_nil_r.
  - unfold bind, lift.
    destruct (for_each _ _ s) as [r s'] eqn:Hrun.
    apply loop_done_before_start in Hrun as (t & Htr & Hord); [|lia].
    exists t. split; [by destruct r|].
    intros a p Ha q Hq Hwave.
    destruct (Hord a p Ha) as [_ Hearlier].
    apply Hearlier; [lia|done|]. by rewrite !Nat.sub_0_r.
Qed.

(** ** [process_discourse]: the pending list *)

Lemma chunk_value_str (s : str) : ∃ chunks, chunk_value (VStr s) = Ok chunks.
Proof.
  simpl. unfold chunk_text.
  pose proof (length_strip_le s) as Hlen.
  destruct (strip s) as [|c t] eqn:Hs; [eauto|].
  destruct (chunk_loop_from_zero (c :: t) CHUNK_SIZE CHUNK_OVERLAP
              ltac:(unfold CHUNK_OVERLAP; lia)
              ltac:(unfold CHUNK_SIZE, CHUNK_OVERLAP; lia) (length s))
    as (chunks & Hrun & _); [done|done|eauto].
Qed.

(** X10. The pending list of a corpus is the pending list of its first
    posts followed by that of the remaining ones, and the first post
    that cannot be chunked decides the exception. *)
Theorem discourse_segments_app (posts1 posts2 : list dict) :
  discourse_segments (posts1 ++ posts2)
  = (segs1 ← discourse_segments posts1;
     segs2 ← discourse_segments posts2;
     Ok (segs1 ++ segs2)).
Proof.
  induction posts1 as [|post posts1 IH]; simpl.
  - by destruct (discourse_segments posts2).
  - destruct (getitem post "content") as [v|e|]; simpl; try done.
    destruct (chunk_value v) as [chunks|e|]; simpl; try done.
    rewrite IH.
    destruct (discourse_segments posts1) as [segs1|e|]; simpl; try done.
    destruct (discourse_segments posts2) as [segs2|e|]; simpl; try done.
    by rewrite app_assoc.
Qed.

(** X11. Building the pending list of the forum corpus succeeds exactly
    when every post has a string under ["content"]; otherwise it raises
    [KeyError('content')] or, for a value that is not a string, the
    [AttributeError] of [.strip()].  It always ends: the chunker
    terminates on every text with the default size and overlap. *)
Theorem discourse_segments_outcome (posts : list dict) :
  match discourse_segments posts with
  | Ok _ => Forall has_text posts
  | Raise e =>
      ¬ Forall has_text posts ∧ (e = KeyError "content" ∨ e = AttributeError)
  | NoFuel => False
  end.
Proof.
  induction posts as [|post posts IH]; simpl; [done|].
  unfold getitem.
  destruct (post !! "content") as [v|] eqn:Hc; simpl.
  - destruct v as [|z|s]; simpl.
    + split; [|by right]. inversion 1 as [|?? [s Hs]]; congruence.
    + split; [|by right]. inversion 1 as [|?? [s Hs]]; congruence.
    + destruct (chunk_value_str s) as [chunks Hchunks]. simpl in Hchunks.
      rewrite Hchunks. simpl.
      destruct (discourse_segments posts) as [segs|e|]; simpl; [| |done].
      * constructor; [by exists s|done].
      * destruct IH as [Hnot He]. split; [|done].
        inversion 1; by apply Hnot.
  - split; [|by left]. inversion 1 as [|?? [s Hs]]; congruence.
Qed.

(** X12. Every entry [(post, idx, chunk)] of the pending list belongs to
    a post of the corpus, and [chunk] is the chunk number [idx] of that
    post's own content. *)
Theorem discourse_segments_entries (posts : list dict) (segs : list segment)
    (post : dict) (idx : nat) (chunk : str) :
  discourse_segments posts = Ok segs →
  (post, idx, chunk) ∈ segs →
  post ∈ posts
  ∧ ∃ s chunks,
      post !! "content" = Some (VStr s)
      ∧ chunk_text (length s) s CHUNK_SIZE CHUNK_OVERLAP = Ok chunks
      ∧ chunks !! idx = Some chunk.
Proof.
  revert segs. induction posts as [|p posts IH]; intros segs; simpl.
  - intros [= <-] Hin. by apply elem_of_nil in Hin.
  - unfold getitem. destruct (p !! "content") as [v|] eqn:Hc; simpl; [|done].
    destruct (chunk_value v) as [chunks|e|] eqn:Hv; simpl; try done.
    destruct (discourse_segments posts) as [rest|e|]; simpl; try done.
    intros [= <-] [Hin|Hin]%elem_of_app.
    + unfold enumerate_chunks in Hin.
      apply list_elem_of_lookup in Hin as [k Hk].
      rewrite list_lookup_imap in Hk.
      destruct (chunks !! k) as [ch|] eqn:Hch; [|done].
      injection Hk as <- <- <-. split; [by left|].
      destruct v as [|z|s]; try done. by exists s, chunks.
    + destruct (IH rest eq_refl Hin) as [Hp Hrest].
      split; [by right|done].
Qed.

(** X13. The row of a forum segment can be built exactly when the post
    has the six fields read with [post[...]]; the first one missing, in
    the order of the [INSERT], is the key of the [KeyError].  The row
    carries the chunk index, the chunk and the embedding it was given,
    and the defaults [""] and [0] for an absent title or like count. *)
Theorem discourse_row_of_outcome (post : dict) (idx : nat) (chunk emb : str) :
  match discourse_row_of (post, idx, chunk) emb with
  | Ok (DiscourseRow r) =>
      Forall (λ key, is_Some (post !! key)) REQUIRED_POST_FIELDS
      ∧ post !! "post_id" = Some (d_post_id r)
      ∧ post !! "url" = Some (d_url r)
      ∧ d_topic_title r = default (VStr []) (post !! "topic_title")
      ∧ d_likes r = default (VInt 0) (post !! "like_count")
      ∧ d_chunk_index r = idx ∧ d_content r = chunk ∧ d_embedding r = emb
  | Raise (KeyError key) =>
      ∃ before after,
        REQUIRED_POST_FIELDS = before ++ key :: after
        ∧ post !! key = None
        ∧ Forall (λ k, is_Some (post !! k)) before
  | _ => False
  end.
Proof.
  unfold discourse_row_of, getitem, get, REQUIRED_POST_FIELDS.
  destruct (post !! "post_id") as [v1|] eqn:H1; simpl;
    [|by exists [], ["topic_id"; "post_number"; "author"; "created_at"; "url"]].
  destruct (post !! "topic_id") as [v2|] eqn:H2; simpl;
    [|exists ["post_id"], ["post_number"; "author"; "created_at"; "url"];
      repeat split; [done|]; repeat constructor; by rewrite ?H1].
  destruct (post !! "post_number") as [v3|] eqn:H3; simpl;
    [|exists ["post_id"; "topic_id"], ["author"; "created_at"; "url"];
      repeat split; [done|]; repeat constructor; by rewrite ?H1, ?H2].
  destruct (post !! "author") as [v4|] eqn:H4; simpl;
    [|exists ["post_id"; "topic_id"; "post_number"], ["created_at"; "url"];
      repeat split; [done|]; repeat constructor; by rewrite ?H1, ?H2, ?H3].
  destruct (post !! "created_at") as [v5|] eqn:H5; simpl;
    [|exists ["post_id"; "topic_id"; "post_number"; "author"], ["url"];
      repeat split; [done|]; repeat constructor;
      by rewrite ?H1, ?H2, ?H3, ?H4].
  destruct (post !! "url") as [v6|] eqn:H6; simpl;
    [|exists ["post_id"; "topic_id"; "post_number"; "author"; "created_at"], [];
      repeat split; [done|]; repeat constructor;
      by rewrite ?H1, ?H2, ?H3, ?H4, ?H5].
  split.
  - repeat constructor; by rewrite ?H1, ?H2, ?H3, ?H4, ?H5, ?H6.
  - repeat split; by destruct (post !! _).
Qed.

(** ** [process_markdown]: front matter and the pending list *)

Lemma lstrip_suffix (s : str) : ∃ pre, s = pre ++ lstrip s.
Proof.
  induction s as [|c s [pre IH]]; simpl; [by exists []|].
  destruct (isspace c); [|by exists []].
  exists (c :: pre). simpl. by rewrite <- IH.
Qed.

Lemma after_dashes_suffix (s rest : str) :
  after_dashes s = Some rest → ∃ pre, s = pre ++ rest.
Proof.
  induction s as [|c s IH]; [done|]. cbn [after_dashes].
  destruct (starts_with DASHES (c :: s)).
  - intros [= Hrest]. exists (take 3 (c :: s)). rewrite <- Hrest.
    change (drop 2 s) with (drop 3 (c :: s)). symmetry. apply take_drop.
  - intros [pre ->]%IH. by exists (c :: pre).
Qed.

(** X14. Removing the front matter only removes a prefix: what is
    chunked is always a suffix of the content of the file. *)
Theorem strip_front_matter_suffix (content : str) :
  ∃ removed, content = removed ++ strip_front_matter content.
Proof.
  unfold strip_front_matter.
  destruct (starts_with DASHES content); [|by exists []].
  destruct (after_dashes (drop 3 content)) as [rest|] eqn:Hrest; [|by exists []].
  apply after_dashes_suffix in Hrest as [pre Hpre].
  destruct (lstrip_suffix rest) as [ws Hws].
  exists (take 3 content ++ pre ++ ws).
  rewrite <- !app_assoc, <- Hws, <- Hpre. symmetry. apply take_drop.
Qed.

Lemma after_dashes_header (header body : str) :
  Forall (λ c, c ≠ 45%N) header →
  after_dashes (header ++ DASHES ++ body) = Some body.
Proof.
  induction 1 as [|c header Hc _ IH]; [done|].
  simpl. unfold starts_with. rewrite bool_decide_eq_false_2; [done|].
  simpl. intros [= -> _]. done.
Qed.

(** X15. A front-matter block whose header contains no dash is removed
    whole, together with the whitespace that follows its closing line:
    the document that is chunked is the body without leading
    whitespace. *)
Theorem strip_front_matter_block (header body : str) :
  Forall (λ c, c ≠ 45%N) header →
  strip_front_matter (DASHES ++ header ++ DASHES ++ body) = lstrip body.
Proof.
  intros Hheader. unfold strip_front_matter.
  change (starts_with DASHES (DASHES ++ header ++ DASHES ++ body)) with true.
  change (drop 3 (DASHES ++ header ++ DASHES ++ body))
    with (header ++ DASHES ++ body).
  by rewrite after_dashes_header.
Qed.

(** A file whose content does not start with three dashes, or has no
    second run of three dashes, is chunked as it is. *)
Lemma strip_front_matter_unchanged (content : str) :
  starts_with DASHES content = false ∨ after_dashes (drop 3 content) = None →
  strip_front_matter content = content.
Proof.
  unfold strip_front_matter. intros [->| ->]; [done|].
  by destruct (starts_with DASHES content).
Qed.

Lemma markdown_segments_frame (files : gmap str disk_file)
    (metadata : list dict) :
  ∀ s r s',
    markdown_segments files metadata s = (r, s') →
    db_file s' = db_file s ∧ pending s' = pending s
    ∧ ∃ t, trace s' = trace s ++ t
           ∧ Forall (λ e, ∃ name meta,
                       e = EvRead (MarkdownFile name)
                       ∧ meta ∈ metadata
                       ∧ meta !! "filename" = Some (VStr name)
                       ∧ is_Some (files !! name)) t.
Proof.
  induction metadata as [|meta metadata IH]; intros s r s'; simpl.
  - intros [= <- <-]. repeat split. exists []. by rewrite app_nil_r.
  - assert (Hweaken : ∀ t : list event,
              Forall (λ e, ∃ name m, e = EvRead (MarkdownFile name)
                           ∧ m ∈ metadata
                           ∧ m !! "filename" = Some (VStr name)
                           ∧ is_Some (files !! name)) t →
              Forall (λ e, ∃ name m, e = EvRead (MarkdownFile name)
                           ∧ m ∈ meta :: metadata
                           ∧ m !! "filename" = Some (VStr name)
                           ∧ is_Some (files !! name)) t).
    { intros t Ht. eapply Forall_impl; [exact Ht|].
      intros e (name & m & -> & Hm & Hrest).
      exists name, m. split; [done|]. split; [by right|done]. }
    unfold bind, lift, emit, getitem.
    destruct (meta !! "filename") as [v|] eqn:Hv; simpl;
      [|intros [= <- <-]; repeat split; exists []; by rewrite app_nil_r].
    destruct v as [| |name]; simpl;
      try (intros [= <- <-]; repeat split; exists []; by rewrite app_nil_r).
    destruct (files !! name) as [[content|e]|] eqn:Hfile;
      [|intros [= <- <-]; repeat split; exists []; by rewrite app_nil_r|].
    + assert (Hread : ∃ nm m, EvRead (MarkdownFile name) = EvRead (MarkdownFile nm)
                       ∧ m ∈ meta :: metadata
                       ∧ m !! "filename" = Some (VStr nm)
                       ∧ is_Some (files !! nm)).
      { exists name, meta. split; [done|]. split; [by left|]. by rewrite Hfile. }
      destruct (chunk_text _ _ _ _) as [chunks|e|];
        [|intros [= <- <-]; repeat split; eexists; split; [done|];
          by constructor..].
      destruct (markdown_segments files metadata _) as [rr s1] eqn:Hrec.
      apply IH in Hrec as (Hdb & Hpend & t & Htr & Ht).
      simpl in *.
      destruct rr as [rest|e|]; intros [= <- <-];
        (split; [done|]); (split; [done|]);
        exists (EvRead (MarkdownFile name) :: t);
        (split; [by rewrite Htr, <- app_assoc|]);
        (constructor; [done|by apply Hweaken]).
    + intros Hrec. apply IH in Hrec as (Hdb & Hpend & t & Htr & Ht).
      split; [done|]. split; [done|]. exists t. split; [done|].
      by apply Hweaken.
Qed.

(** X16. Building the pending list of the page corpus touches neither
    the store file nor the open transaction, and reads only files that
    are listed in the metadata and exist; every entry
    [(meta, idx, chunk)] of the list belongs to a listed document whose
    file exists, and [chunk] is the chunk number [idx] of that file's
    content without its front matter. *)
Theorem markdown_segments_entries (files : gmap str disk_file)
    (metadata : list dict) (segs : list segment) s s' :
  markdown_segments files metadata s = (Ok segs, s') →
  (db_file s' = db_file s ∧ pending s' = pending s
   ∧ ∃ t, trace s' = trace s ++ t
          ∧ Forall (λ e, ∃ name meta,
                      e = EvRead (MarkdownFile name)
                      ∧ meta ∈ metadata
                      ∧ meta !! "filename" = Some (VStr name)
                      ∧ is_Some (files !! name)) t)
  ∧ ∀ meta idx chunk, (meta, idx, chunk) ∈ segs →
      meta ∈ metadata
      ∧ ∃ name content chunks,
          meta !! "filename" = Some (VStr name)
          ∧ files !! name = Some (TextFile content)
          ∧ chunk_value (VStr (strip_front_matter content)) = Ok chunks
          ∧ chunks !! idx = Some chunk.
Proof.
  intros Hrun. split; [by eapply markdown_segments_frame|].
  revert s segs s' Hrun.
  induction metadata as [|m metadata IH]; intros s segs s'; simpl.
  - intros [= <- <-] meta idx chunk Hin. by apply elem_of_nil in Hin.
  - unfold bind, lift, emit, getitem.
    destruct (m !! "filename") as [v|] eqn:Hv; simpl; [|done].
    destruct v as [| |name]; simpl; try done.
    destruct (files !! name) as [[content|e]|] eqn:Hfile; [|done|].
    + destruct (chunk_text _ _ _ _) as [chunks|e|] eqn:Hchunks; try done.
      destruct (markdown_segments files metadata _) as [[rest|e|] s1] eqn:Hrec;
        try done.
      intros [= <- <-] meta idx chunk [Hin|Hin]%elem_of_app.
      * unfold enumerate_chunks in Hin.
        apply list_elem_of_lookup in Hin as [k Hk].
        rewrite list_lookup_imap in Hk.
        destruct (chunks !! k) as [ch|] eqn:Hch; [|done].
        injection Hk as <- <- <-. split; [by left|].
        by exists name, content, chunks.
      * destruct (IH _ _ _ Hrec meta idx chunk Hin) as [Hm Hrest].
        split; [by right|done].
    + intros Hrec meta idx chunk Hin.
      destruct (IH _ _ _ Hrec meta idx chunk Hin) as [Hm Hrest].
      split; [by right|done].
Qed.

(** X18. The row of a page segment can be built exactly when the
    metadata entry has a title, an original URL and a download time; the
    first one missing is the key of the [KeyError]. *)
Theorem markdown_row_of_outcome (meta : dict) (idx : nat) (chunk emb : str) :
  match markdown_row_of (meta, idx, chunk) emb with
  | Ok (MarkdownRow r) =>
      meta !! "title" = Some (m_doc_title r)
      ∧ meta !! "original_url" = Some (m_original_url r)
      ∧ meta !! "downloaded_at" = Some (m_downloaded_at r)
      ∧ m_chunk_index r = idx ∧ m_content r = chunk ∧ m_embedding r = emb
  | Raise (KeyError key) =>
      meta !! key = None
      ∧ (key = "title"
         ∨ key = "original_url" ∧ is_Some (meta !! "title")
         ∨ key = "downloaded_at" ∧ is_Some (meta !! "title")
           ∧ is_Some (meta !! "original_url"))
  | _ => False
  end.
Proof.
  unfold markdown_row_of, getitem.
  destruct (meta !! "title") as [v1|] eqn:H1; simpl; [|by auto].
  destruct (meta !! "original_url") as [v2|] eqn:H2; simpl;
    [|split; [done|]; right; left; eauto].
  destruct (meta !! "downloaded_at") as [v3|] eqn:H3; simpl;
    [|split; [done|]; right; right; eauto].
  done.
Qed.

(** ** [main]: the store is rebuilt *)

Lemma process_discourse_any (env : environment) s r s' :
  pending s = [] →
  process_discourse env s = (r, s') →
  ∃ rows, db_file s' = add_rows rows <$> db_file s
          ∧ (r = Ok tt → pending s' = []).
Proof.
  intros Hpend. unfold process_discourse.
  destruct (discourse_json env) as [[posts|e]|];
    [|intros [= <- <-]; exists []; by rewrite fmap_add_rows_nil|].
  - unfold bind at 1. unfold emit. unfold bind at 1. unfold lift.
    destruct (discourse_segments posts) as [to_insert|e|].
    + intros Hrun.
      apply embed_and_store_any in Hrun as (rows & k & Hdb & _ & _ & Hok);
        [|unfold CONCURRENT_REQUESTS; lia|done].
      exists rows. split; [done|]. intros Hr. by apply Hok.
    + intros [= <- <-]. exists []. by rewrite fmap_add_rows_nil.
    + intros [= <- <-]. exists []. by rewrite fmap_add_rows_nil.
  - intros [= <- <-]. exists []. by rewrite fmap_add_rows_nil.
Qed.

Lemma process_markdown_any (env : environment) s r s' :
  pending s = [] →
  process_markdown env s = (r, s') →
  ∃ rows, db_file s' = add_rows rows <$> db_file s
          ∧ (r = Ok tt → pending s' = []).
Proof.
  intros Hpend. unfold process_markdown.
  destruct (metadata_json env) as [[metadata|e]|];
    [|intros [= <- <-]; exists []; by rewrite fmap_add_rows_nil|].
  - unfold bind at 1. unfold emit. unfold bind at 1.
    destruct (markdown_segments _ _ _) as [rs s1] eqn:Hsegs.
    apply markdown_segments_frame in Hsegs as (Hdb1 & Hpend1 & _).
    simpl in Hdb1, Hpend1.
    destruct rs as [to_insert|e|].
    + intros Hrun.
      apply embed_and_store_any in Hrun as (rows & k & Hdb & _ & _ & Hok);
        [|unfold CONCURRENT_REQUESTS; lia|congruence].
      exists rows. split; [congruence|]. intros Hr. by apply Hok.
    + intros [= <- <-]. exists []. by rewrite fmap_add_rows_nil.
    + intros [= <- <-]. exists []. by rewrite fmap_add_rows_nil.
  - intros [= <- <-]. exists []. by rewrite fmap_add_rows_nil.
Qed.

(** X17. With the credential present, however the run ends the store
    file exists afterwards and holds only rows inserted by this run,
    added to two empty tables; what an earlier store file contained has
    no influence on the run. *)
Theorem run_rebuilds_store (env : environment) (key : str) :
  api_key env = Some key → key ≠ [] →
  (∀ db, ∃ rows, (run env db).1.2 = Some (add_rows rows empty_database))
  ∧ (∀ db1 db2, run env (Some db1) = run env (Some db2)).
Proof.
  intros Hkey Hne. split.
  - intros db. rewrite (run_with_key env db key Hkey Hne), main_start.
    unfold bind at 1.
    destruct (process_discourse env _) as [r1 s1] eqn:H1.
    apply process_discourse_any in H1 as (rows1 & Hdb1 & Hok1); [|done].
    simpl in Hdb1.
    destruct r1 as [[]|e|]; [|by exists rows1..].
    unfold bind.
    destruct (process_markdown env s1) as [r2 s2] eqn:H2.
    apply process_markdown_any in H2 as (rows2 & Hdb2 & _); [|by apply Hok1].
    rewrite Hdb1 in Hdb2. simpl in Hdb2. rewrite add_rows_app in Hdb2.
    destruct r2 as [[]|e|]; by exists (rows1 ++ rows2).
  - intros db1 db2.
    by rewrite !(run_with_key env _ key Hkey Hne), !main_start.
Qed.

(** ** The further properties on the example inputs *)

Lemma chunk_text_lengths_witness :
  ∃ chunks,
    chunk_text 7 [32; 97; 98; 99; 100; 101; 102; 103; 10]%N 3 1 = Ok chunks
    ∧ ∀ i w, chunks !! i = Some w →
        (1 ≤ Z.of_nat (length w) ≤ 3)%Z
        ∧ (S i < length chunks → Z.of_nat (length w) = 3%Z).
Proof.
  apply (chunk_text_lengths [32; 97; 98; 99; 100; 101; 102; 103; 10]%N 3 1 7).
  - lia.
  - vm_compute. lia.
Defined.

Lemma chunk_text_window_witness :
  ∃ chunks,
    chunk_text 7 [32; 97; 98; 99; 100; 101; 102; 103; 10]%N 3 1 = Ok chunks
    ∧ ∀ i w, chunks !! i = Some w →
        let a := (Z.of_nat i * (3 - 1))%Z in
        (a < Z.of_nat (length (strip [32; 97; 98; 99; 100; 101; 102; 103; 10]%N)))%Z
        ∧ w = py_slice (strip [32; 97; 98; 99; 100; 101; 102; 103; 10]%N) a
                (Z.min (a + 3)
                   (Z.of_nat (length (strip [32; 97; 98; 99; 100; 101; 102; 103; 10]%N)))).
Proof.
  apply (chunk_text_window [32; 97; 98; 99; 100; 101; 102; 103; 10]%N 3 1 7).
  - lia.
  - vm_compute. lia.
Defined.

Lemma waves_partition_pending_witness :
  ∃ offsets,
    py_range 0 (length example_segments) CONCURRENT_REQUESTS = Ok offsets
    ∧ (∀ k i, offsets !! k = Some i →
         i = k * CONCURRENT_REQUESTS
         ∧ py_slice example_segments (Z.of_nat i)
             (Z.of_nat (i + CONCURRENT_REQUESTS)) ≠ [])
    ∧ concat ((λ i, py_slice example_segments (Z.of_nat i)
                      (Z.of_nat (i + CONCURRENT_REQUESTS)))
              <$> offsets)
      = example_segments.
Proof.
  apply (waves_partition_pending example_segments CONCURRENT_REQUESTS).
  unfold CONCURRENT_REQUESTS. lia.
Defined.

Lemma store_holds_whole_waves_witness :
  ∃ rows k,
    db_file (embed_and_store failing_env Forum discourse_row_of
               CONCURRENT_REQUESTS example_segments
               {| db_file := Some empty_database; pending := []; trace := [] |}).2
    = add_rows rows <$> Some empty_database
    ∧ length rows = Nat.min (k * CONCURRENT_REQUESTS) (length example_segments)
    ∧ (∀ p row, rows !! p = Some row →
         row_of_call failing_env Forum discourse_row_of example_segments p row)
    ∧ ((embed_and_store failing_env Forum discourse_row_of
          CONCURRENT_REQUESTS example_segments
          {| db_file := Some empty_database; pending := []; trace := [] |}).1
       = Ok tt →
       pending (embed_and_store failing_env Forum discourse_row_of
                  CONCURRENT_REQUESTS example_segments
                  {| db_file := Some empty_database; pending := [];
                     trace := [] |}).2 = []
       ∧ length rows = length example_segments).
Proof.
  apply (store_holds_whole_waves failing_env Forum discourse_row_of
           CONCURRENT_REQUESTS example_segments
           {| db_file := Some empty_database; pending := []; trace := [] |}).
  - unfold CONCURRENT_REQUESTS. lia.
  - reflexivity.
Defined.

Lemma discourse_segments_entries_witness :
  example_post 5 [101]%N ∈ example_posts
  ∧ ∃ s chunks,
      example_post 5 [101]%N !! "content" = Some (VStr s)
      ∧ chunk_text (length s) s CHUNK_SIZE CHUNK_OVERLAP = Ok chunks
      ∧ chunks !! 0 = Some [101]%N.
Proof.
  apply (discourse_segments_entries example_posts example_segments
           (example_post 5 [101]%N) 0 [101]%N).
  - vm_compute. reflexivity.
  - unfold example_segments. set_solver.
Defined.

Lemma strip_front_matter_block_witness :
  strip_front_matter (DASHES ++ [10; 116]%N ++ DASHES ++ [10; 104; 105]%N)
  = lstrip [10; 104; 105]%N.
Proof.
  apply (strip_front_matter_block [10; 116]%N [10; 104; 105]%N).
  repeat constructor; discriminate.
Defined.

Lemma markdown_segments_entries_witness :
  example_meta [121]%N ∈ [example_meta [120]%N; example_meta [121]%N]
  ∧ ∃ name content chunks,
      example_meta [121]%N !! "filename" = Some (VStr name)
      ∧ markdown_files example_env !! name = Some (TextFile content)
      ∧ chunk_value (VStr (strip_front_matter content)) = Ok chunks
      ∧ chunks !! 0 = Some [104; 105]%N.
Proof.
  assert (Hrun : markdown_segments (markdown_files example_env)
                   [example_meta [120]%N; example_meta [121]%N]
                   {| db_file := Some empty_database; pending := []; trace := [] |}
                 = (Ok [(example_meta [121]%N, 0, [104; 105]%N)],
                    {| db_file := Some empty_database; pending := [];
                       trace := [EvRead (MarkdownFile [121]%N)] |})).
  { vm_compute. reflexivity. }
  destruct (markdown_segments_entries _ _ _ _ _ Hrun) as [_ Hentries].
  apply (Hentries (example_meta [121]%N) 0 [104; 105]%N).
  apply list_elem_of_singleton. reflexivity.
Defined.

Lemma run_rebuilds_store_witness :
  (∀ db, ∃ rows, (run example_env db).1.2 = Some (add_rows rows empty_database))
  ∧ (∀ db1 db2, run example_env (Some db1) = run example_env (Some db2)).
Proof.
  apply (run_rebuilds_store example_env [107]%N).
  - reflexivity.
  - discriminate.
Defined.

(** * Waves and incomplete documents *)

(** ** The state in which a wave starts *)

Lemma for_each_app {A} (l1 l2 : list A) (body : A → M unit) s :
  for_each (l1 ++ l2) body s
  = bind (for_each l1 body) (λ _, for_each l2 body) s.
Proof.
  revert s. induction l1 as [|x l1 IH]; intros s; simpl; [done|].
  unfold bind. by destruct (body x s) as [[[]|e|] s1].
Qed.

Lemma range_from_closed_form (fuel stop step : nat) (l : list nat) :
  ∀ i, range_from fuel i stop step = l →
  l = (λ k, i + k * step) <$> seq 0 (length l).
Proof.
  intros i <-. apply list_eq. intros k.
  rewrite list_lookup_fmap.
  destruct (range_from fuel i stop step !! k) as [j|] eqn:Hk.
  - apply lookup_lt_Some in Hk as Hlt.
    rewrite lookup_seq_lt by done. simpl.
    apply range_from_lookup in Hk as [-> _]. done.
  - apply lookup_ge_None in Hk. by rewrite lookup_seq_ge.
Qed.

Section WaveStart.
Variable env : environment.
Variable c : corpus.
Variable make_row : segment → str → result row.
Variable limit : nat.
Variable to_insert : list segment.
Hypothesis limit_pos : 0 < limit.

Local Abbreviation total := (length to_insert).
Local Abbreviation the_wave := (wave env c make_row limit to_insert).

(** After [n] full waves from the offset [i0] that all return, the rows
    of their [n * limit] segments are in the store file and no
    transaction is open. *)
Lemma full_waves_committed (n : nat) :
  ∀ i0 s s',
    pending s = [] →
    i0 + n * limit ≤ total →
    for_each ((λ k, i0 + k * limit) <$> seq 0 n) the_wave s = (Ok tt, s') →
    ∃ rows t,
      db_file s' = add_rows rows <$> db_file s
      ∧ pending s' = []
      ∧ length rows = n * limit
      ∧ (∀ j row, rows !! j = Some row →
           row_of_call env c make_row to_insert (i0 + j) row)
      ∧ trace s' = trace s ++ t
      ∧ (∀ p, EvStart c p ∈ t → p < i0 + n * limit).
Proof.
  induction n as [|n IH]; intros i0 s s' Hpend Hfit.
  - simpl. intros [= <-]. exists [], []. rewrite fmap_add_rows_nil, app_nil_r.
    repeat split; try done.
    intros p Hp. by apply elem_of_nil in Hp.
  - rewrite <- cons_seq, fmap_cons, <- fmap_S_seq, <- list_fmap_compose.
    cbn [for_each]. unfold bind.
    destruct (the_wave (i0 + 0 * limit) s) as [r1 s1] eqn:Hw.
    replace (i0 + 0 * limit) with i0 in Hw by lia.
    pose proof (wave_frame env c make_row limit to_insert limit_pos _ _ _ _ Hw)
      as (tw & Htr1 & _ & Hstart1 & _).
    apply (wave_any env c make_row limit to_insert limit_pos) in Hw
      as [(-> & Hpend1 & _ & rows1 & Hdb1 & Hlen1 & Hrows1)|(Hne & _)];
      [|by destruct r1 as [[]|e|]].
    intros Hrest.
    rewrite (list_fmap_ext _ (λ k, (i0 + limit) + k * limit) (seq 0 n))
      in Hrest by (intros; simpl; lia).
    apply IH in Hrest
      as (rows2 & t2 & Hdb2 & Hpend2 & Hlen2 & Hrows2 & Htr2 & Hstart2);
      [|done|simpl in Hfit; lia].
    rewrite Hpend in Hdb1. simpl in Hdb1 |- *.
    exists (rows1 ++ rows2), (tw ++ t2).
    rewrite Hdb2, Hdb1, fmap_add_rows_app.
    split; [done|]. split; [done|]. split; [|split; [|split]].
    + rewrite length_app, Hlen1, Hlen2. lia.
    + intros j row Hj. apply lookup_app_Some in Hj as [Hj|[Hge Hj]].
      * by apply Hrows1.
      * replace (i0 + j) with (i0 + limit + (j - length rows1)) by lia.
        by apply Hrows2.
    + by rewrite Htr2, Htr1, <- app_assoc.
    + intros p [Hp|Hp]%elem_of_app.
      * apply Hstart1 in Hp. lia.
      * apply Hstart2 in Hp. lia.
Qed.

End WaveStart.

(** C6. The wave loop runs the waves one after the other, and the wave
    at an offset [i] starts in the state that the waves before it have
    left.  If one of those did not return normally, the wave at [i]
    never starts.  Otherwise, when it starts (before any of its
    embedding calls), the store file holds the rows of all the [i]
    segments of the earlier waves, each built from its own segment and
    the value of its own call, no transaction is open, and no call for a
    position from [i] on has been started.  In the events of the run,
    the start of a call comes after the insert of every position of an
    earlier wave and after a commit that follows that insert. *)
Theorem commit_before_next_wave (env : environment) (c : corpus)
    (make_row : segment → str → result row) (limit : nat)
    (to_insert : list segment) s (offsets pre post : list nat) (i : nat) :
  pending s = [] →
  py_range 0 (length to_insert) limit = Ok offsets →
  offsets = pre ++ i :: post →
  embed_and_store env c make_row limit to_insert s
  = (let* _ := for_each pre (wave env c make_row limit to_insert) in
     let* _ := wave env c make_row limit to_insert i in
     for_each post (wave env c make_row limit to_insert)) s
  ∧ (∀ r s1,
       for_each pre (wave env c make_row limit to_insert) s = (r, s1) →
       (r = Ok tt
        ∧ ∃ rows t,
            db_file s1 = add_rows rows <$> db_file s
            ∧ pending s1 = []
            ∧ length rows = i
            ∧ (∀ q row, rows !! q = Some row →
                 row_of_call env c make_row to_insert q row)
            ∧ trace s1 = trace s ++ t
            ∧ (∀ p, EvStart c p ∈ t → p < i))
       ∨ (r ≠ Ok tt
          ∧ embed_and_store env c make_row limit to_insert s = (r, s1)))
  ∧ (∃ t,
       trace (embed_and_store env c make_row limit to_insert s).2 = trace s ++ t
       ∧ ∀ a p, t !! a = Some (EvStart c p) →
           ∀ q, q < length to_insert → q / limit < p / limit →
             ∃ b d, b < d < a
                    ∧ t !! b = Some (EvInsert c q)
                    ∧ t !! d = Some (EvCommit c)).
Proof.
  intros Hpend Hrange Hsplit.
  unfold py_range in Hrange.
  destruct (Nat.eqb_spec limit 0) as [|Hlimit]; [done|].
  injection Hrange as Hrange.
  assert (Hloop : embed_and_store env c make_row limit to_insert s
                  = (let* _ := for_each pre (wave env c make_row limit to_insert) in
                     let* _ := wave env c make_row limit to_insert i in
                     for_each post (wave env c make_row limit to_insert)) s).
  { unfold embed_and_store, py_range.
    destruct (Nat.eqb_spec limit 0); [done|].
    unfold bind at 1. unfold lift. rewrite Hrange, Hsplit.
    by rewrite for_each_app. }
  split; [done|]. split.
  - intros r s1 Hpre.
    destruct r as [[]|e|];
      [|right; split; [done|]; rewrite Hloop; unfold bind at 1; by rewrite Hpre..].
    + left. split; [done|].
      assert (Hi : offsets !! length pre = Some i)
        by (rewrite Hsplit; apply list_lookup_middle; done).
      rewrite <- Hrange in Hi.
      apply range_from_lookup in Hi as [Hi Hlt]. simpl in Hi.
      pose proof (range_from_closed_form _ _ _ _ _ Hrange) as Hclosed.
      assert (Hprefix : pre = (λ k, 0 + k * limit) <$> seq 0 (length pre)).
      { apply (f_equal (take (length pre))) in Hclosed.
        rewrite Hsplit in Hclosed at 1. rewrite take_app_length in Hclosed.
        rewrite <- fmap_take, take_seq in Hclosed.
        assert (Hmin : length pre `min` length offsets = length pre)
          by (rewrite Hsplit, length_app; simpl; lia).
        by rewrite Hmin in Hclosed. }
      rewrite Hprefix in Hpre.
      apply full_waves_committed in Hpre
        as (rows & t & Hdb & Hp & Hlen & Hrows & Htr & Hstart);
        [|lia|done|lia].
      exists rows, t. repeat split; try done; try lia.
      intros p Hin. apply Hstart in Hin. lia.
  - unfold embed_and_store, py_range.
    destruct (Nat.eqb_spec limit 0); [done|].
    unfold bind, lift.
    destruct (for_each _ _ s) as [r s'] eqn:Hrun.
    apply loop_frame in Hrun as (t & Htr & _ & Hord); [|lia].
    exists t. split; [by destruct r|].
    intros a p Ha q Hq Hwave.
    destruct (Hord a p Ha) as [_ Hearlier].
    apply Hearlier; [lia|done|]. by rewrite !Nat.sub_0_r.
Qed.

Lemma commit_before_next_wave_witness :
  ∃ rows t,
    db_file (for_each [0] (wave example_env Forum discourse_row_of
                             CONCURRENT_REQUESTS example_segments)
               {| db_file := Some empty_database; pending := []; trace := [] |}).2
    = add_rows rows <$> Some empty_database
    ∧ length rows = 4
    ∧ trace (for_each [0] (wave example_env Forum discourse_row_of
                             CONCURRENT_REQUESTS example_segments)
               {| db_file := Some empty_database; pending := []; trace := [] |}).2
      = [] ++ t.
Proof.
  destruct (commit_before_next_wave example_env Forum discourse_row_of
              CONCURRENT_REQUESTS example_segments
              {| db_file := Some empty_database; pending := []; trace := [] |}
              [0; 4] [0] [] 4 eq_refl eq_refl eq_refl) as (_ & Hstate & _).
  destruct (for_each [0] _ _) as [r s1] eqn:Hrun.
  destruct (Hstate r s1 eq_refl)
    as [(_ & rows & t & Hdb & _ & Hlen & _ & Htr & _)|(Hne & _)].
  - by exists rows, t.
  - exfalso. apply Hne. vm_compute in Hrun. by injection Hrun as <- _.
Defined.

(** ** An [INSERT] that raises *)

Lemma gather_starts (c : corpus) (i : nat) (outs : list (result str))
    (order : list nat) s r s' :
  gather c i outs order s = (r, s') →
  ∃ t, trace s' = trace s ++ imap (λ j _, EvStart c (i + j)) outs ++ t.
Proof.
  unfold gather. unfold bind at 1. unfold emit. unfold bind.
  destruct (gather_loop c i outs order _ _) as [rl s1] eqn:Hloop.
  apply gather_loop_frame in Hloop as (t & -> & _).
  intros Hrun. exists t.
  assert (s' = add_trace
                 (add_trace s (imap (λ j _, EvStart c (i + j)) outs)) t) as ->.
  { destruct rl as [slots|e|]; [|by injection Hrun..].
    destruct (mapM id slots); by injection Hrun. }
  simpl. by rewrite <- app_assoc.
Qed.

Lemma insert_rows_raise (c : corpus) (make_row : segment → str → result row)
    (pairs1 : list (segment * str)) (rows1 : list row)
    (seg : segment) (emb : str) (pairs2 : list (segment * str)) (e : exn) :
  Forall2 (λ pr row, make_row pr.1 pr.2 = Ok row ∧ bind_row row = Ok tt)
    pairs1 rows1 →
  insert_raises make_row seg emb e →
  ∀ p s,
    insert_rows c make_row p (pairs1 ++ (seg, emb) :: pairs2) s
    = (Raise e,
       {| db_file := db_file s; pending := pending s ++ rows1;
          trace := trace s ++ (EvInsert c <$> seq p (length pairs1)) |}).
Proof.
  intros Hrows Hraise.
  induction Hrows as [|[sg em] row pairs1 rows1 [Hrow Hbind] _ IH];
    intros p s; simpl.
  - rewrite !app_nil_r. unfold bind at 1. unfold lift.
    destruct Hraise as [->|(r & -> & Hb)].
    + by destruct s.
    + unfold bind. rewrite execute_insert_run, Hb. by destruct s.
  - unfold bind at 1. unfold lift. simpl in *. rewrite Hrow.
    unfold bind. rewrite execute_insert_run, Hbind.
    rewrite IH. simpl. by rewrite <- !app_assoc.
Qed.

Section InsertError.
Variable env : environment.
Variable c : corpus.
Variable make_row : segment → str → result row.
Variable limit : nat.
Variable to_insert : list segment.
Hypothesis limit_pos : 0 < limit.
Variable emb : nat → str.
Variable rowf : nat → row.

Local Abbreviation total := (length to_insert).
Local Abbreviation batch_at i := (take limit (drop i to_insert)).
Local Abbreviation ok := (call_succeeds env c make_row to_insert emb rowf).
Local Abbreviation returns := (call_returns env c to_insert emb).

Lemma call_succeeds_returns (p : nat) : ok p → returns p.
Proof. intros Hok seg Hseg. by destruct (Hok seg Hseg) as [-> _]. Qed.

Lemma task_outcomes_returns (i : nat) :
  (∀ p, i ≤ p < i + limit → returns p) →
  task_outcomes env c i (batch_at i)
  = Ok <$> (emb <$> seq i (length (batch_at i))).
Proof.
  intros Hret. apply list_eq. intros k. unfold task_outcomes.
  rewrite list_lookup_imap, !list_lookup_fmap.
  destruct (batch_at i !! k) as [seg|] eqn:Hk; simpl.
  - apply lookup_lt_Some in Hk as Hlt.
    rewrite lookup_seq_lt by done. simpl.
    apply lookup_take_Some in Hk as [Hk Hkl]. rewrite lookup_drop in Hk.
    by rewrite (Hret (i + k) ltac:(lia) seg Hk).
  - apply lookup_ge_None in Hk. by rewrite lookup_seq_ge.
Qed.

(** Every call of the wave returns, the rows before position [p0] are
    inserted, and the row of [p0] cannot be built or bound: the wave
    raises after the embedding calls, with nothing committed. *)
Lemma wave_insert_raise (i p0 : nat) (seg0 : segment) (e : exn) s :
  i ≤ p0 < i + limit →
  to_insert !! p0 = Some seg0 →
  (∀ p, i ≤ p < p0 → ok p) →
  (∀ p, p0 ≤ p < i + limit → returns p) →
  insert_raises make_row seg0 (emb p0) e →
  completes (completion env c i) (Nat.min limit (total - i)) →
  ∃ t,
    wave env c make_row limit to_insert i s
    = (Raise e,
       {| db_file := db_file s;
          pending := pending s ++ (rowf <$> seq i (p0 - i));
          trace := trace s ++ t |})
    ∧ Forall (wave_event c) t
    ∧ EvStart c p0 ∈ t
    ∧ (∀ q, EvStart c q ∈ t → q < i + limit)
    ∧ (∀ q, EvInsert c q ∈ t → q < p0).
Proof.
  intros Hp0 Hseg0 Hok Hret Hraise Hall.
  apply lookup_lt_Some in Hseg0 as Hlt.
  assert (Hlb : length (batch_at i) = Nat.min limit (total - i))
    by by rewrite length_take, length_drop.
  unfold wave. rewrite py_slice_batch.
  rewrite task_outcomes_returns.
  2:{ intros p Hp. destruct (decide (p < p0)).
      - apply call_succeeds_returns, Hok. lia.
      - apply Hret. lia. }
  set (vals := emb <$> seq i (length (batch_at i))).
  destruct (gather_ok c i vals (completion env c i) s) as (t & Hg & Ht).
  { subst vals. by rewrite length_fmap, length_seq, Hlb. }
  pose proof (gather_starts _ _ _ _ _ _ _ Hg) as (t' & Htr).
  simpl in Htr. apply app_inv_head in Htr.
  rewrite (bind_ok _ _ _ _ _ Hg).
  set (pairs := zip (batch_at i) vals).
  assert (Hpair : pairs !! (p0 - i) = Some (seg0, emb p0)).
  { subst pairs vals. apply lookup_zip_Some. split.
    - apply lookup_take_Some. split; [|lia].
      rewrite lookup_drop. by replace (i + (p0 - i)) with p0 by lia.
    - rewrite list_lookup_fmap, lookup_seq_lt by lia. simpl.
      do 2 f_equal. lia. }
  rewrite <- (take_drop_middle pairs (p0 - i) (seg0, emb p0) Hpair).
  assert (Hlen1 : length (take (p0 - i) pairs) = p0 - i).
  { apply lookup_lt_Some in Hpair. rewrite length_take. lia. }
  assert (Hrows : Forall2
            (λ pr row, make_row pr.1 pr.2 = Ok row ∧ bind_row row = Ok tt)
            (take (p0 - i) pairs) (rowf <$> seq i (p0 - i))).
  { apply Forall2_same_length_lookup_2.
    + by rewrite Hlen1, length_fmap, length_seq.
    + intros k [seg em] row Hk Hrow.
      apply lookup_take_Some in Hk as [Hk Hklt].
      subst pairs vals. apply lookup_zip_Some in Hk as [Hsg Hem].
      rewrite list_lookup_fmap in Hem. rewrite list_lookup_fmap in Hrow.
      rewrite lookup_seq_lt in Hrow by done.
      apply lookup_take_Some in Hsg as [Hsg _]. rewrite lookup_drop in Hsg.
      apply lookup_lt_Some in Hsg as Hsglt.
      rewrite lookup_seq_lt in Hem by lia.
      injection Hem as <-. injection Hrow as <-. simpl.
      by destruct (Hok (i + k) ltac:(lia) seg Hsg) as (_ & -> & ->). }
  rewrite (bind_raise _ _ _ _ _
             (insert_rows_raise c make_row _ _ seg0 (emb p0)
                (drop (S (p0 - i)) pairs) e Hrows Hraise i _)).
  rewrite Hlen1. simpl.
  exists (t ++ (EvInsert c <$> seq i (p0 - i))).
  split; [by rewrite <- app_assoc|].
  subst vals. rewrite length_fmap, length_seq in Ht.
  split; [|split; [|split]].
  + apply Forall_app. split.
    * eapply Forall_impl; [exact Ht|]. by intros ev (j & _ & [-> | ->]).
    * apply Forall_fmap, Forall_forall. by intros.
  + apply elem_of_app. left. rewrite Htr.
    apply elem_of_app. left. apply list_elem_of_lookup.
    exists (p0 - i). rewrite list_lookup_imap, list_lookup_fmap.
    rewrite list_lookup_fmap, lookup_seq_lt by lia. simpl.
    do 2 f_equal. lia.
  + intros q [Hq|Hq]%elem_of_app.
    * destruct (call_events_positions c limit limit_pos i _ t q Ht) as [Hs _].
      specialize (Hs Hq). lia.
    * by apply list_elem_of_fmap in Hq as (x & Hx & _).
  + intros q [Hq|Hq]%elem_of_app.
    * by destruct (call_events_positions c limit limit_pos i _ t q Ht) as [_ Hi].
    * apply list_elem_of_fmap in Hq as (x & [= ->] & Hx).
      apply elem_of_seq in Hx. lia.
Qed.

Lemma loop_insert_raise (k : nat) :
  ∀ fuel i s p0 seg0 e,
    total - i ≤ fuel →
    pending s = [] →
    i + k * limit ≤ p0 < i + k * limit + limit →
    to_insert !! p0 = Some seg0 →
    (∀ p, i ≤ p < p0 → ok p) →
    (∀ p, p0 ≤ p < i + k * limit + limit → returns p) →
    insert_raises make_row seg0 (emb p0) e →
    every_call_completes env c limit total →
    ∃ t,
      for_each (range_from fuel i total limit)
        (wave env c make_row limit to_insert) s
      = (Raise e,
         {| db_file := add_rows (rowf <$> seq i (k * limit)) <$> db_file s;
            pending := rowf <$> seq (i + k * limit) (p0 - (i + k * limit));
            trace := trace s ++ t |})
      ∧ Forall (wave_event c) t
      ∧ EvStart c p0 ∈ t
      ∧ (∀ q, EvStart c q ∈ t → q < i + k * limit + limit)
      ∧ (∀ q, EvInsert c q ∈ t → q < p0).
Proof.
  induction k as [|k IH];
    intros fuel i s p0 seg0 e Hfuel Hpend Hp0 Hseg0 Hok Hret Hraise Hall.
  - apply lookup_lt_Some in Hseg0 as Hlt.
    destruct (range_from_cons fuel i total limit) as (fuel' & -> & _); [lia|lia|].
    destruct (wave_insert_raise i p0 seg0 e s)
      as (t & Hw & Hev & Hin & Hstart & Hins);
      [lia|done|intros; apply Hok; lia|intros; apply Hret; lia|done|done|].
    cbn [for_each]. rewrite (bind_raise _ _ _ _ _ Hw).
    exists t. split; [|split; [done|split; [done|split]]].
    + rewrite Hpend, fmap_add_rows_nil. simpl.
      by replace (i + 0) with i by lia.
    + intros q Hq. apply Hstart in Hq. lia.
    + done.
  - apply lookup_lt_Some in Hseg0 as Hlt. simpl in Hp0, Hret.
    destruct (range_from_cons fuel i total limit) as (fuel' & -> & Hfuel');
      [lia|lia|].
    destruct (wave_ok env c make_row limit to_insert limit_pos emb rowf i s)
      as (tw & Hw & Htw); [intros; apply Hok; lia|done|].
    cbn [for_each]. rewrite (bind_ok _ _ _ _ _ Hw).
    destruct (IH fuel' (i + limit)
                {| db_file := add_rows (pending s ++ (rowf <$> seq i (length (batch_at i))))
                                <$> db_file s;
                   pending := [];
                   trace := trace s ++ tw |} p0 seg0 e)
      as (t & Hrun & Hev & Hin & Hstart & Hins);
      [lia|done|lia|done|intros; apply Hok; lia|intros; apply Hret; lia
      |done|done|].
    assert (Hfull : length (batch_at i) = limit)
      by (rewrite length_take, length_drop; lia).
    rewrite Hfull in Htw, Hrun |- *.
    exists (tw ++ t). split; [|split; [|split; [|split]]].
    + rewrite Hrun. simpl. rewrite Hpend. simpl.
      rewrite <- app_assoc, fmap_add_rows_app. f_equal. f_equal.
      * by rewrite seq_app, fmap_app.
      * do 2 f_equal; lia.
    + apply Forall_app. split; [|done].
      by eapply (wave_trace_events c).
    + apply elem_of_app. by right.
    + intros q [Hq|Hq]%elem_of_app.
      * destruct (wave_trace_positions c limit limit_pos _ _ _ q Htw) as [Hs _].
        specialize (Hs Hq). lia.
      * specialize (Hstart q Hq). lia.
    + intros q [Hq|Hq]%elem_of_app.
      * destruct (wave_trace_positions c limit limit_pos _ _ _ q Htw) as [_ Hi].
        specialize (Hi Hq). lia.
      * by apply Hins.
Qed.

End InsertError.

(** ** Documents without a required field *)

Lemma discourse_row_of_first_missing (post : dict) (idx : nat)
    (chunk emb : str) (field : string) :
  first_missing REQUIRED_POST_FIELDS post field →
  discourse_row_of (post, idx, chunk) emb = Raise (KeyError field).
Proof.
  intros (before & after & Hfields & Hbefore & Hmiss).
  unfold REQUIRED_POST_FIELDS in Hfields.
  unfold discourse_row_of, getitem.
  repeat (destruct before as [|? before];
          [injection Hfields as <- _; by rewrite Hmiss|];
          injection Hfields as <- Hfields;
          apply Forall_cons in Hbefore as [[? ->] Hbefore]; simpl).
  by destruct before.
Qed.

Lemma markdown_row_of_first_missing (meta : dict) (idx : nat)
    (chunk emb : str) (field : string) :
  first_missing REQUIRED_PAGE_FIELDS meta field →
  markdown_row_of (meta, idx, chunk) emb = Raise (KeyError field).
Proof.
  intros (before & after & Hfields & Hbefore & Hmiss).
  unfold REQUIRED_PAGE_FIELDS in Hfields.
  unfold markdown_row_of, getitem.
  repeat (destruct before as [|? before];
          [injection Hfields as <- _; by rewrite Hmiss|];
          injection Hfields as <- Hfields;
          apply Forall_cons in Hbefore as [[? ->] Hbefore]; simpl).
  by destruct before.
Qed.

Lemma embed_and_store_insert_raise (env : environment) (c : corpus)
    (make_row : segment → str → result row) (limit : nat)
    (to_insert : list segment) (emb : nat → str) (rowf : nat → row)
    (k p0 : nat) (seg0 : segment) (e : exn) s :
  0 < limit →
  pending s = [] →
  k * limit ≤ p0 < k * limit + limit →
  to_insert !! p0 = Some seg0 →
  (∀ p, p < p0 → call_succeeds env c make_row to_insert emb rowf p) →
  (∀ p, p0 ≤ p < k * limit + limit → call_returns env c to_insert emb p) →
  insert_raises make_row seg0 (emb p0) e →
  every_call_completes env c limit (length to_insert) →
  ∃ t,
    embed_and_store env c make_row limit to_insert s
    = (Raise e,
       {| db_file := add_rows (rowf <$> seq 0 (k * limit)) <$> db_file s;
          pending := rowf <$> seq (k * limit) (p0 - k * limit);
          trace := trace s ++ t |})
    ∧ Forall (wave_event c) t
    ∧ EvStart c p0 ∈ t
    ∧ (∀ q, EvStart c q ∈ t → q < k * limit + limit)
    ∧ (∀ q, EvInsert c q ∈ t → q < p0).
Proof.
  intros Hlimit Hpend Hp0 Hseg0 Hok Hret Hraise Hall.
  destruct (loop_insert_raise env c make_row limit to_insert Hlimit emb rowf k
              (length to_insert) 0 s p0 seg0 e)
    as (t & Hrun & Hev & Hin & Hstart & Hins);
    [lia|done|lia|done|intros; apply Hok; lia|intros; apply Hret; lia
    |done|done|].
  exists t. split; [|done].
  unfold embed_and_store, py_range.
  destruct (Nat.eqb_spec limit 0); [lia|]. unfold bind, lift.
  by rewrite Hrun.
Qed.

Lemma embed_and_store_same_service (env env' : environment) (c : corpus)
    (make_row : segment → str → result row) (limit : nat)
    (to_insert : list segment) :
  same_service env env' →
  embed_and_store env' c make_row limit to_insert
  = embed_and_store env c make_row limit to_insert.
Proof.
  intros [Hserver Hcompletion].
  unfold embed_and_store, wave, task_outcomes.
  by rewrite Hserver, Hcompletion.
Qed.

Lemma markdown_segments_missing_file (files : gmap str disk_file)
    (metadata1 metadata2 : list dict) (meta : dict) (name : str) :
  meta !! "filename" = Some (VStr name) →
  files !! name = None →
  ∀ s, markdown_segments files (metadata1 ++ meta :: metadata2) s
       = markdown_segments files (metadata1 ++ metadata2) s.
Proof.
  intros Hname Hfile.
  induction metadata1 as [|m ms IH]; intros s; simpl.
  - unfold bind, lift, getitem. rewrite Hname. simpl. by rewrite Hfile.
  - unfold bind, lift, emit.
    destruct (getitem m "filename") as [v|e|]; try done.
    destruct (filename_of v) as [nm|e|]; try done.
    destruct (files !! nm) as [[content|e]|]; [|done|apply IH].
    destruct (chunk_text _ _ _ _) as [chunks|e|]; try done.
    by rewrite IH.
Qed.

Lemma markdown_segments_missing_filename (files : gmap str disk_file)
    (metadata1 metadata2 : list dict) (meta : dict) :
  meta !! "filename" = None →
  ∀ s segs1 s1,
    markdown_segments files metadata1 s = (Ok segs1, s1) →
    markdown_segments files (metadata1 ++ meta :: metadata2) s
    = (Raise (KeyError "filename"), s1).
Proof.
  intros Hmiss.
  induction metadata1 as [|m ms IH]; intros s segs1 s1; simpl.
  - intros [= <- <-]. unfold bind, lift, getitem. by rewrite Hmiss.
  - unfold bind, lift, emit.
    destruct (getitem m "filename") as [v|e|]; try done.
    destruct (filename_of v) as [nm|e|]; try done.
    destruct (files !! nm) as [[content|e]|]; [|done|apply IH].
    destruct (chunk_text _ _ _ _) as [chunks|e|]; try done.
    destruct (markdown_segments files ms _) as [[rest|e|] s2] eqn:Hrest;
      try done.
    intros [= _ <-]. by rewrite (IH _ _ _ Hrest).
Qed.

Lemma discourse_segments_blank (posts1 posts2 : list dict) (post : dict)
    (body : str) :
  post !! "content" = Some (VStr body) →
  Forall (λ ch, isspace ch = true) body →
  discourse_segments (posts1 ++ post :: posts2)
  = discourse_segments (posts1 ++ posts2).
Proof.
  intros Hbody Hblank. apply strip_nil_iff in Hblank.
  induction posts1 as [|p ps IH]; simpl.
  - unfold getitem. rewrite Hbody. simpl. unfold chunk_text.
    rewrite Hblank. simpl. by destruct (discourse_segments posts2).
  - by rewrite IH.
Qed.

Lemma run_process_discourse_raise (env : environment) (db : option database)
    (key : str) (e : exn) s :
  api_key env = Some key → key ≠ [] →
  process_discourse env
    {| db_file := Some empty_database; pending := [];
       trace := startup_events db |} = (Raise e, s) →
  run env db = (Raise e, db_file s, trace s).
Proof.
  intros Hkey Hne Hrun.
  rewrite (run_with_key env db key Hkey Hne), main_start.
  by rewrite (bind_raise _ _ _ _ _ Hrun).
Qed.


Lemma anonymous_calls_succeed (p : nat) :
  p < 5 →
  call_succeeds anonymous_env Forum discourse_row_of anonymous_segments
    example_emb example_row p.
Proof.
  intros Hp seg Hseg.
  destruct p as [|[|[|[|[|p]]]]]; [| | | | |lia];
    injection Hseg as <-; repeat split; vm_compute; reflexivity.
Qed.

Lemma anonymous_calls_return (p : nat) :
  5 ≤ p →
  call_returns anonymous_env Forum anonymous_segments example_emb p.
Proof.
  intros Hp seg Hseg.
  destruct p as [|[|[|[|[|[|p]]]]]]; [lia..| |done].
  injection Hseg as <-. vm_compute. reflexivity.
Qed.

Lemma untitled_calls_succeed (p : nat) :
  p < 1 →
  call_succeeds untitled_env Pages markdown_row_of
    [(example_meta [121]%N, 0, [104; 105]%N); (untitled_meta, 0, [104; 105]%N)]
    example_page_emb example_page_row p.
Proof.
  intros Hp seg Hseg. destruct p as [|p]; [|lia].
  injection Hseg as <-; repeat split; vm_compute; reflexivity.
Qed.

Lemma untitled_calls_return (p : nat) :
  1 ≤ p →
  call_returns untitled_env Pages
    [(example_meta [121]%N, 0, [104; 105]%N); (untitled_meta, 0, [104; 105]%N)]
    example_page_emb p.
Proof.
  intros Hp seg Hseg. destruct p as [|[|p]]; [lia| |done].
  injection Hseg as <-. vm_compute. reflexivity.
Qed.


(** A forum post whose id does not fit in 64 signed bits: the [INSERT]
    of its row raises, the row inserted before it is not committed. *)
Example huge_id_run :
  run huge_id_env None
  = (Raise OverflowError, Some empty_database,
     [EvConnect; EvRead DiscourseJson; EvStart Forum 0; EvStart Forum 1;
      EvDone Forum 1; EvDone Forum 0; EvInsert Forum 0]).
Proof. vm_compute. reflexivity. Qed.

(** The run on [anonymous_env], evaluated: the first wave is committed,
    the second stops at the row of the post without ["post_id"]. *)
Example anonymous_run :
  run anonymous_env None
  = (Raise (KeyError "post_id"),
     Some (add_rows (example_row <$> [0; 1; 2; 3]) empty_database),
     [EvConnect; EvRead DiscourseJson;
      EvStart Forum 0; EvStart Forum 1; EvStart Forum 2; EvStart Forum 3;
      EvDone Forum 3; EvDone Forum 1; EvDone Forum 0; EvDone Forum 2;
      EvInsert Forum 0; EvInsert Forum 1; EvInsert Forum 2; EvInsert Forum 3;
      EvCommit Forum;
      EvStart Forum 4; EvStart Forum 5; EvDone Forum 5; EvDone Forum 4;
      EvInsert Forum 4]).
Proof. vm_compute. reflexivity. Qed.
